(** * meshmaker: the maze engine and the cube grid, embedded and verified

    Shallow embedding of [src/meshmaker/maze_generator.py],
    [src/meshmaker/cube_grid.py], [src/meshmaker/cube_appearance.py] and
    [src/meshmaker/mesh_generator.py] (without [export_obj], which writes a
    file).

    - Python integers are [Z]; [//] is [Z.div] (floor division) and [%] is
      [Z.modulo].
    - A Python list is a Rocq [list]; subscripting follows Python: an index
      in [[-len, 0)] counts from the end, anything else outside [[0, len)]
      raises [IndexError].
    - Exceptions are an error monad [result]; recursion and the [while]
      loop take a fuel argument, and running out of it is a result of its
      own ([OutOfFuel]) that is never confused with an exception.
    - The module [random] is not part of the repository: it is the class
      [RandomSource], a seeding function and a shuffle that returns a
      permutation of its argument together with the next generator state.
    - List objects that are handed to callers live in a heap of list
      objects, so that aliasing can be stated. *)

From Stdlib Require Import ZArith QArith String Ascii List Lia Permutation.
From stdpp Require Import base tactics option list gmap sets relations pretty.

Local Open Scope Z_scope.

(** ** Exceptions and the error monad *)

Inductive exn : Type :=
  | ValueError (msg : string)
  | IndexError
  | RuntimeError (msg : string).

Inductive result (A : Type) : Type :=
  | Ok (a : A)
  | Raise (e : exn)
  | OutOfFuel.
Arguments Ok {A} a.
Arguments Raise {A} e.
Arguments OutOfFuel {A}.

Definition rbind {A B} (f : A → result B) (r : result A) : result B :=
  match r with
  | Ok a => f a
  | Raise e => Raise e
  | OutOfFuel => OutOfFuel
  end.

#[global] Instance result_ret : MRet result := @Ok.
#[global] Instance result_bind : MBind result := @rbind.

(** ** Python lists *)

Module PyList.

(** The position a Python subscript [i] denotes in a list of length
    [len], if any. *)
Definition norm_index (len : nat) (i : Z) : option nat :=
  if bool_decide (0 ≤ i < Z.of_nat len) then Some (Z.to_nat i)
  else if bool_decide (- Z.of_nat len ≤ i < 0) then Some (Z.to_nat (Z.of_nat len + i))
  else None.

(** [l[i]] *)
Definition getitem {A} (l : list A) (i : Z) : result A :=
  match norm_index (length l) i ≫= (l !!.) with
  | Some a => Ok a
  | None => Raise IndexError
  end.

(** [l[i] = v] *)
Definition setitem {A} (l : list A) (i : Z) (v : A) : result (list A) :=
  match norm_index (length l) i with
  | Some n => Ok (<[n:=v]> l)
  | None => Raise IndexError
  end.

End PyList.

(** ** The wall field *)

Abbreviation coord := (Z * Z)%type.

(** [_maze[y][x]]: [true] is a wall, [false] is open. *)
Abbreviation grid := (list (list bool)).

(** [self._maze[y][x]] *)
Definition maze_get (m : grid) (x y : Z) : result bool :=
  row ← PyList.getitem m y; PyList.getitem row x.

(** [self._maze[y][x] = v] *)
Definition maze_set (m : grid) (x y : Z) (v : bool) : result grid :=
  row ← PyList.getitem m y;
  row' ← PyList.setitem row x v;
  PyList.setitem m y row'.

(** [[[True for _ in range(width)] for _ in range(height)]] *)
Definition all_walls (w h : Z) : grid :=
  replicate (Z.to_nat h) (replicate (Z.to_nat w) true).

(** [0 <= nx < self.width and 0 <= ny < self.height] *)
Definition in_bounds (w h nx ny : Z) : bool :=
  bool_decide (0 ≤ nx < w) && bool_decide (0 ≤ ny < h).

(** ** The random source *)

Class RandomSource (G : Type) : Type := {
  (** [random.seed(s)]: the generator state a seed determines *)
  seed_state : Z → G;
  (** [random.shuffle(l)]: the shuffled list and the next state *)
  shuffle : G → list coord → list coord * G;
  shuffle_perm : ∀ g l, (shuffle g l).1 ≡ₚ l
}.

(** ** The carver *)

Section Carver.
Context {G : Type} `{!RandomSource G}.

(** The candidate steps of [_carve_path]: up, right, down, left. *)
Definition directions : list coord := [(0, -2); (2, 0); (0, 2); (-2, 0)].

(** The [for dx, dy in directions] loop of [_carve_path] at cell [(x, y)];
    [rec] is the recursive call. *)
Fixpoint carve_loop (rec : Z → Z → grid * G → result (grid * G))
    (w h x y : Z) (ds : list coord) (st : grid * G) : result (grid * G) :=
  match ds with
  | [] => Ok st
  | (dx, dy) :: ds' =>
      let nx := x + dx in
      let ny := y + dy in
      if in_bounds w h nx ny then
        wall ← maze_get st.1 nx ny;
        if (wall : bool) then
          m' ← maze_set st.1 (x + dx `div` 2) (y + dy `div` 2) false;
          st' ← rec nx ny (m', st.2);
          carve_loop rec w h x y ds' st'
        else carve_loop rec w h x y ds' st
      else carve_loop rec w h x y ds' st
  end.

(** [_carve_path(x, y)]; [fuel] bounds the recursion depth. *)
Fixpoint _carve_path (fuel : nat) (w h x y : Z) (st : grid * G)
    : result (grid * G) :=
  match fuel with
  | O => OutOfFuel
  | S fuel' =>
      m1 ← maze_set st.1 x y false;
      let sh := shuffle st.2 directions in
      carve_loop (_carve_path fuel' w h) w h x y sh.1 (m1, sh.2)
  end.

End Carver.

(** ** The solver *)

(** The neighbour order of [_find_solution]: up, right, down, left. *)
Definition bfs_directions : list coord := [(0, -1); (1, 0); (0, 1); (-1, 0)].

Definition no_solution_msg : string :=
  "No solution path found - maze generation failed"%string.

(** The frontier: a [deque] of [(cell, path)] pairs, and the visited set. *)
Abbreviation frontier :=
  (list (coord * list coord) * gset coord)%type.

(** The [for dx, dy in ...] loop of [_find_solution] at the cell [(x, y)]
    popped with [path]. *)
Fixpoint bfs_expand (m : grid) (w h x y : Z) (path : list coord)
    (ds : list coord) (fr : frontier) : result frontier :=
  match ds with
  | [] => Ok fr
  | (dx, dy) :: ds' =>
      let nx := x + dx in
      let ny := y + dy in
      if in_bounds w h nx ny then
        wall ← maze_get m nx ny;
        if negb wall && bool_decide ((nx, ny) ∉ fr.2) then
          bfs_expand m w h x y path ds'
            (fr.1 ++ [((nx, ny), path ++ [(nx, ny)])], {[(nx, ny)]} ∪ fr.2)
        else bfs_expand m w h x y path ds' fr
      else bfs_expand m w h x y path ds' fr
  end.

(** The [while queue] loop; [fuel] bounds the number of iterations. *)
Fixpoint bfs_loop (fuel : nat) (dirs : list coord) (m : grid) (w h : Z)
    (goal : coord) (fr : frontier) : result (list coord) :=
  match fuel with
  | O => OutOfFuel
  | S fuel' =>
      match fr.1 with
      | [] => Raise (RuntimeError no_solution_msg)
      | ((x, y), path) :: queue' =>
          if bool_decide ((x, y) = goal) then Ok path
          else
            fr' ← bfs_expand m w h x y path dirs (queue', fr.2);
            bfs_loop fuel' dirs m w h goal fr'
      end
  end.

(** [_find_solution], with the neighbour order as a parameter. *)
Definition find_solution_with (dirs : list coord) (fuel : nat) (m : grid)
    (w h : Z) : result (list coord) :=
  let start := (1, 0) in
  let goal := (w - 2, h - 1) in
  bfs_loop fuel dirs m w h goal ([(start, [start])], {[start]}).

(** [_find_solution] as the source has it. *)
Definition _find_solution : nat → grid → Z → Z → result (list coord) :=
  find_solution_with bfs_directions.

(** ** Cube appearances ([cube_appearance.py]) *)

(** Colour components and alpha are Python floats; the code only compares
    them with [0] and [1] and passes them on, so they are rationals here. *)
Record CubeAppearance : Type := mkAppearance {
  color : Q * Q * Q;
  alpha : Q;
  material : string
}.

Definition between_0_1 (c : Q) : bool := Qle_bool 0 c && Qle_bool c 1.

(** [CubeAppearance.__init__(color, alpha, material)] *)
Definition CubeAppearance_init (col : Q * Q * Q) (al : Q)
    (mat : option string) : result CubeAppearance :=
  let '(r, g, b) := col in
  if negb (forallb between_0_1 [r; g; b]) then
    Raise (ValueError "Color values must be between 0 and 1")
  else if negb (between_0_1 al) then
    Raise (ValueError "Alpha must be between 0 and 1")
  else
    Ok {| color := col; alpha := al;
          material := match mat with
                      | Some s => if String.eqb s "" then "default"%string else s
                      | None => "default"%string
                      end |}.

(** ** The cube grid ([cube_grid.py]) *)

Abbreviation position := (Z * Z * Z)%type.

(** [_grid] is a boolean array of shape [dimensions], created all [False];
    every subscript of it is guarded by [_is_valid_position], so the array
    is the set of positions that hold [True]. *)
Record CubeGrid : Type := mkCubeGrid {
  dimensions : position;
  _grid : gset position;
  _appearances : gmap position CubeAppearance;
  _default_appearance : CubeAppearance
}.

Definition show_position (p : position) : string :=
  let '(x, y, z) := p in
  ("(" ++ pretty x ++ ", " ++ pretty y ++ ", " ++ pretty z ++ ")")%string.

Definition outside_msg (p dims : position) : string :=
  ("Position " ++ show_position p ++ " is outside grid bounds "
     ++ show_position dims)%string.

Module CubeGridM.

(** [CubeGrid.__init__(dimensions)] *)
Definition init (dims : position) : result CubeGrid :=
  let '(dx, dy, dz) := dims in
  if negb (forallb (λ d, bool_decide (0 < d)) [dx; dy; dz]) then
    Raise (ValueError "All dimensions must be positive")
  else
    dflt ← CubeAppearance_init (0.5, 0.5, 0.5)%Q 1%Q None;
    Ok {| dimensions := dims; _grid := ∅; _appearances := ∅;
          _default_appearance := dflt |}.

(** [_is_valid_position(position)] *)
Definition _is_valid_position (g : CubeGrid) (p : position) : bool :=
  let '(x, y, z) := p in
  let '(dx, dy, dz) := dimensions g in
  bool_decide (0 ≤ x < dx) && bool_decide (0 ≤ y < dy)
    && bool_decide (0 ≤ z < dz).

(** [set_cube(position, occupied, appearance)]: the grid after the call
    and the outcome of the call. *)
Definition set_cube (p : position) (occupied : bool)
    (appearance : option CubeAppearance) (g : CubeGrid)
    : CubeGrid * result unit :=
  if negb (_is_valid_position g p) then
    (g, Raise (ValueError (outside_msg p (dimensions g))))
  else
    let cells := if occupied then {[p]} ∪ _grid g else _grid g ∖ {[p]} in
    let apps :=
      match occupied, appearance with
      | true, Some a => <[p:=a]> (_appearances g)
      | true, None => _appearances g
      | false, _ => delete p (_appearances g)
      end in
    ({| dimensions := dimensions g; _grid := cells; _appearances := apps;
        _default_appearance := _default_appearance g |}, Ok ()).

(** [get_cube(position)] *)
Definition get_cube (p : position) (g : CubeGrid) : CubeGrid * result bool :=
  if negb (_is_valid_position g p) then
    (g, Raise (ValueError (outside_msg p (dimensions g))))
  else (g, Ok (bool_decide (p ∈ _grid g))).

(** [get_appearance(position)] *)
Definition get_appearance (p : position) (g : CubeGrid)
    : CubeGrid * result CubeAppearance :=
  (g, Ok (default (_default_appearance g) (_appearances g !! p))).

(** [set_default_appearance(appearance)] *)
Definition set_default_appearance (a : CubeAppearance) (g : CubeGrid)
    : CubeGrid * result unit :=
  ({| dimensions := dimensions g; _grid := _grid g;
      _appearances := _appearances g; _default_appearance := a |}, Ok ()).

(** [clear()] *)
Definition clear (g : CubeGrid) : CubeGrid * result unit :=
  ({| dimensions := dimensions g; _grid := ∅; _appearances := ∅;
      _default_appearance := _default_appearance g |}, Ok ()).

(** The grid a call leaves behind, when the call returned. *)
Definition returned {A} (r : CubeGrid * result A) : result CubeGrid :=
  match r.2 with
  | Ok _ => Ok r.1
  | Raise e => Raise e
  | OutOfFuel => OutOfFuel
  end.

End CubeGridM.

(** ** The maze generator object ([maze_generator.py]) *)

(** A reference to a list object. *)
Abbreviation loc := positive.

Record MazeGenerator : Type := mkMaze {
  width : Z;
  height : Z;
  wall_appearance : CubeAppearance;
  path_appearance : option CubeAppearance;
  solution_appearance : CubeAppearance;
  _maze : grid;
  (** the list object [self._solution_path] refers to *)
  _solution_path : loc
}.

Section Maze.
Context {G : Type} `{!RandomSource G}.

(** What lies outside the instance: the list objects, the state of the
    module-level generator of [random], and what was printed. *)
Record world : Type := mkWorld {
  heap : gmap loc (list coord);
  rng : G;
  stdout : list string
}.

(** A method of [MazeGenerator]: from [self] and the world to the value
    returned, [self] and the world after the call, or an exception. *)
Definition method (A : Type) : Type :=
  MazeGenerator → world → result (A * MazeGenerator * world).

(** A new list object holding [l]. *)
Definition alloc (l : list coord) (σ : world) : loc * world :=
  let p := fresh (dom (heap σ)) in
  (p, {| heap := <[p:=l]> (heap σ); rng := rng σ; stdout := stdout σ |}).

(** The contents of the list object at [p]. *)
Definition deref (σ : world) (p : loc) : list coord :=
  default [] (heap σ !! p).

(** An in-place mutation of the list object at [p] (append, item
    assignment, clear, ...): its contents become [l]. *)
Definition mutate (p : loc) (l : list coord) (σ : world) : world :=
  {| heap := <[p:=l]> (heap σ); rng := rng σ; stdout := stdout σ |}.

Definition too_small_msg : string := "Maze dimensions must be at least 3x3".
Definition not_odd_msg : string := "Maze dimensions must be odd numbers".

(** [MazeGenerator.__init__(width, height, wall_appearance,
    path_appearance, solution_appearance)] *)
Definition MazeGenerator_init (w h : Z)
    (wall_app path_app solution_app : option CubeAppearance) (σ : world)
    : result (MazeGenerator * world) :=
  if bool_decide (w < 3) || bool_decide (h < 3) then
    Raise (ValueError too_small_msg)
  else if bool_decide (w `mod` 2 = 0) || bool_decide (h `mod` 2 = 0) then
    Raise (ValueError not_odd_msg)
  else
    wa ← match wall_app with
         | Some a => Ok a
         | None => CubeAppearance_init (0.8, 0.8, 0.8)%Q 1%Q None
         end;
    sa ← match solution_app with
         | Some a => Ok a
         | None => CubeAppearance_init (1.0, 1.0, 0.0)%Q 1%Q None
         end;
    let '(p, σ') := alloc [] σ in
    Ok ({| width := w; height := h; wall_appearance := wa;
           path_appearance := path_app; solution_appearance := sa;
           _maze := all_walls w h; _solution_path := p |}, σ').

(** [generate(seed)] *)
Definition generate (fuel : nat) (seed : option Z) : method unit :=
  λ self σ,
    let g0 := match seed with
              | Some s => seed_state s
              | None => rng σ
              end in
    let w := width self in
    let h := height self in
    st ← _carve_path fuel w h 1 1 (all_walls w h, g0);
    m2 ← maze_set st.1 1 0 false;
    m3 ← maze_set m2 (w - 2) (h - 1) false;
    path ← _find_solution fuel m3 w h;
    let '(p, σ') :=
      alloc path {| heap := heap σ; rng := st.2; stdout := stdout σ |} in
    Ok ((), {| width := w; height := h;
               wall_appearance := wall_appearance self;
               path_appearance := path_appearance self;
               solution_appearance := solution_appearance self;
               _maze := m3; _solution_path := p |}, σ').

(** [get_solution_path()]: a reference to a new list object. *)
Definition get_solution_path : method loc :=
  λ self σ,
    let '(p, σ') := alloc (deref σ (_solution_path self)) σ in
    Ok (p, self, σ').

(** The [for x in range(self.width)] loop of [to_cube_grid] in row [y]. *)
Fixpoint cube_row (self : MazeGenerator) (solution_set : gset coord)
    (y : Z) (xs : list Z) (g : CubeGrid) : result CubeGrid :=
  match xs with
  | [] => Ok g
  | x :: xs' =>
      wall ← maze_get (_maze self) x y;
      g' ← (if (wall : bool) then
              CubeGridM.returned
                (CubeGridM.set_cube (x, 0, y) true
                   (Some (wall_appearance self)) g)
            else if bool_decide ((x, y) ∈ solution_set) then
              CubeGridM.returned
                (CubeGridM.set_cube (x, 0, y) true
                   (Some (solution_appearance self)) g)
            else
              match path_appearance self with
              | Some a =>
                  CubeGridM.returned
                    (CubeGridM.set_cube (x, 0, y) true (Some a) g)
              | None => Ok g
              end);
      cube_row self solution_set y xs' g'
  end.

(** The [for y in range(self.height)] loop of [to_cube_grid]. *)
Fixpoint cube_rows (self : MazeGenerator) (solution_set : gset coord)
    (ys : list Z) (g : CubeGrid) : result CubeGrid :=
  match ys with
  | [] => Ok g
  | y :: ys' =>
      g' ← cube_row self solution_set y (seqZ 0 (width self)) g;
      cube_rows self solution_set ys' g'
  end.

(** [to_cube_grid(include_solution)] *)
Definition to_cube_grid (include_solution : bool) : method CubeGrid :=
  λ self σ,
    g0 ← CubeGridM.init (width self, 1, height self);
    let solution_set : gset coord :=
      if include_solution then list_to_set (deref σ (_solution_path self))
      else ∅ in
    g ← cube_rows self solution_set (seqZ 0 (height self)) g0;
    Ok (g, self, σ).

(** The wall glyph of [print_maze]. The literal in the source holds the
    three characters U+00E2, U+2013 and U+02C6; a string is the list of
    its bytes in UTF-8, here [c3 a2], [e2 80 93] and [cb 86]. *)
Definition wall_glyph : string :=
  String (ascii_of_nat 195) (String (ascii_of_nat 162)
    (String (ascii_of_nat 226) (String (ascii_of_nat 128)
      (String (ascii_of_nat 147)
        (String (ascii_of_nat 203) (String (ascii_of_nat 134)
          EmptyString)))))).

(** The [for x in range(self.width)] loop of [print_maze] in row [y]. *)
Fixpoint print_row (m : grid) (solution_set : gset coord) (y : Z)
    (xs : list Z) (row : string) : result string :=
  match xs with
  | [] => Ok row
  | x :: xs' =>
      if bool_decide ((x, y) ∈ solution_set) then
        print_row m solution_set y xs' (row ++ "o")%string
      else
        wall ← maze_get m x y;
        print_row m solution_set y xs'
          (row ++ (if (wall : bool) then wall_glyph else " "))%string
  end.

(** The [for y in range(self.height)] loop of [print_maze]: the lines
    printed. *)
Fixpoint print_rows (m : grid) (w : Z) (solution_set : gset coord)
    (ys : list Z) (out : list string) : result (list string) :=
  match ys with
  | [] => Ok out
  | y :: ys' =>
      row ← print_row m solution_set y (seqZ 0 w) EmptyString;
      print_rows m w solution_set ys' (out ++ [row])
  end.

(** [print_maze(show_solution)] *)
Definition print_maze (show_solution : bool) : method unit :=
  λ self σ,
    let solution_set : gset coord :=
      if show_solution then list_to_set (deref σ (_solution_path self))
      else ∅ in
    out ← print_rows (_maze self) (width self) solution_set
            (seqZ 0 (height self)) (stdout σ);
    Ok ((), self, {| heap := heap σ; rng := rng σ; stdout := out |}).

End Maze.
Arguments world G : clear implicits.

(** * Specification vocabulary *)

(** ** The wall field as a map from coordinates to cell states *)

(** The state of the cell [c] of the grid, when [c] lies in it. *)
Definition cell (m : grid) (c : coord) : option bool :=
  if bool_decide (0 ≤ c.1 ∧ 0 ≤ c.2) then
    row ← m !! Z.to_nat c.2; row !! Z.to_nat c.1
  else None.

Definition is_open (m : grid) (c : coord) : Prop := cell m c = Some false.
Definition is_wall (m : grid) (c : coord) : Prop := cell m c = Some true.

(** The grid with the cell [c] set to [v]. *)
Definition upd (m : grid) (c : coord) (v : bool) : grid :=
  match m !! Z.to_nat c.2 with
  | Some row => <[Z.to_nat c.2 := <[Z.to_nat c.1 := v]> row]> m
  | None => m
  end.

(** [h] rows of [w] cells. *)
Definition shape (w h : Z) (m : grid) : Prop :=
  length m = Z.to_nat h ∧ Forall (λ row, length row = Z.to_nat w) m.

Definition inside (w h : Z) (c : coord) : Prop :=
  0 ≤ c.1 < w ∧ 0 ≤ c.2 < h.

(** The number of wall cells. *)
Definition count_walls (m : grid) : nat :=
  sum_list_with (λ row, length (filter (λ b, b = true) row)) m.

(** ** Walks and simple paths *)

(** Manhattan distance exactly one. *)
Definition adjacent (a b : coord) : Prop :=
  Z.abs (b.1 - a.1) + Z.abs (b.2 - a.2) = 1.

(** Every cell is in [S] and consecutive cells are adjacent. *)
Definition walk (S : coord → Prop) (p : list coord) : Prop :=
  Forall S p ∧
  ∀ i a b, p !! i = Some a → p !! (i + 1)%nat = Some b → adjacent a b.

Definition simple_path (S : coord → Prop) (a b : coord) (p : list coord)
    : Prop :=
  walk S p ∧ NoDup p ∧ head p = Some a ∧ last p = Some b.

(** At most one simple path between any two cells: the graph is a
    forest. *)
Definition unique_paths (S : coord → Prop) : Prop :=
  ∀ a b p q, simple_path S a b p → simple_path S a b q → p = q.

(** ** The invariant of the carver *)

(** The cells [_carve_path] is called on: both coordinates odd. *)
Definition room (c : coord) : Prop := c.1 `mod` 2 = 1 ∧ c.2 `mod` 2 = 1.

(** Both coordinates even: never opened. *)
Definition pillar (c : coord) : Prop := c.1 `mod` 2 = 0 ∧ c.2 `mod` 2 = 0.

(** Not on the outer boundary. *)
Definition interior (w h : Z) (c : coord) : Prop :=
  0 < c.1 < w - 1 ∧ 0 < c.2 < h - 1.

Definition move (c d : coord) : coord := (c.1 + d.1, c.2 + d.2).

(** The wall cell between [c] and [move c d]. *)
Definition between (c d : coord) : coord :=
  (c.1 + d.1 `div` 2, c.2 + d.2 `div` 2).

(** Reachability through open cells. *)
Definition connected (m : grid) : relation coord :=
  rtc (λ a b, is_open m a ∧ is_open m b ∧ adjacent a b).

(** The state between two steps of the carver: the open cells are interior
    cells that are no pillars, an open cell next to a room means that the
    room is open, and the open cells form a forest. *)
Record carved (w h : Z) (m : grid) : Prop := {
  carved_shape : shape w h m;
  carved_cells : ∀ c, is_open m c → interior w h c ∧ ¬ pillar c;
  carved_ends : ∀ c r, is_open m c → adjacent c r → room r → is_open m r;
  carved_forest : unique_paths (is_open m)
}.

(** The state on entry to [_carve_path] at the room [r]: [r] is still a
    wall, and at most one open cell (the wall just removed) touches it. *)
Record pending (w h : Z) (m : grid) (r : coord) : Prop := {
  pending_shape : shape w h m;
  pending_cells : ∀ c, is_open m c → interior w h c ∧ ¬ pillar c;
  pending_ends :
    ∀ c r', is_open m c → adjacent c r' → room r' → r' ≠ r → is_open m r';
  pending_forest : unique_paths (is_open m);
  pending_room : room r;
  pending_interior : interior w h r;
  pending_wall : is_wall m r;
  pending_leaf :
    ∀ a b, is_open m a → is_open m b → adjacent r a → adjacent r b → a = b
}.

(** What a run of the carver from the room [r] adds to the grid: cells are
    only opened, every new open cell is connected to [r], and every new
    open room has all its neighbouring rooms open. *)
Record grown (w h : Z) (r : coord) (m m' : grid) : Prop := {
  grown_mono : ∀ c, is_open m c → is_open m' c;
  grown_conn : ∀ c, is_open m' c → ¬ is_open m c → connected m' r c;
  grown_closed :
    ∀ c d, room c → is_open m' c → ¬ is_open m c → d ∈ directions →
           inside w h (move c d) → is_open m' (move c d);
  grown_count : (count_walls m' ≤ count_walls m)%nat
}.

(** What a call [run x y] of the carver does on a pending state: it
    returns a carved grid, or it runs out of fuel, and that only when
    the grid has more than [bound] walls. It raises no exception. *)
Definition carves {G : Type} (w h : Z)
    (run : Z → Z → grid * G → result (grid * G)) (bound : nat) : Prop :=
  ∀ r m g, pending w h m r →
    (∃ m' g', run r.1 r.2 (m, g) = Ok (m', g')
              ∧ carved w h m' ∧ grown w h r m m' ∧ is_open m' r)
    ∨ (run r.1 r.2 (m, g) = OutOfFuel ∧ (bound < count_walls m)%nat).

(** ** The invariant of the solver *)

(** The cells of the grid, as a set. *)
Definition cells (w h : Z) : gset coord :=
  list_to_set (cprod (seqZ 0 w) (seqZ 0 h)).

(** Every open neighbour of [c] has been seen. *)
Definition expanded (m : grid) (visited : gset coord) (c : coord) : Prop :=
  ∀ n, is_open m n → adjacent c n → n ∈ visited.

(** The state of the search from [s] for [t] while the cell [cur] is being
    expanded: every queued pair is a simple path from [s] through visited
    cells, and every visited cell is queued, is [cur], or is expanded and
    not the goal. *)
Record searching (w h : Z) (m : grid) (s t : coord) (cur : option coord)
    (fr : frontier) : Prop := {
  searching_paths :
    ∀ c p, (c, p) ∈ fr.1 →
           simple_path (is_open m) s c p ∧ ∀ a, a ∈ p → a ∈ fr.2;
  searching_visited :
    ∀ c, c ∈ fr.2 →
         inside w h c
         ∧ (c ∈ fr.1.*1 ∨ cur = Some c ∨ (c ≠ t ∧ expanded m fr.2 c));
  searching_start : s ∈ fr.2
}.

(** What remains to be done: unseen cells and queued cells. *)
Definition remaining (w h : Z) (fr : frontier) : nat :=
  (size (cells w h ∖ fr.2) + length fr.1)%nat.

(** ** The generated maze *)

(** The entry and the exit of a [w] by [h] maze. *)
Definition entry : coord := (1, 0).
Definition exit_cell (w h : Z) : coord := (w - 2, h - 1).

(** The dimensions [__init__] accepts. *)
Definition valid_dims (w h : Z) : Prop :=
  3 ≤ w ∧ 3 ≤ h ∧ Z.odd w = true ∧ Z.odd h = true.

(** The wall field [generate] leaves behind. *)
Record generated (w h : Z) (m : grid) : Prop := {
  gen_shape : shape w h m;
  gen_entry : is_open m entry;
  gen_exit : is_open m (exit_cell w h);
  gen_cells :
    ∀ c, is_open m c →
         c = entry ∨ c = exit_cell w h ∨ (interior w h c ∧ ¬ pillar c);
  gen_ends :
    ∀ c r, is_open m c → interior w h c → adjacent c r → room r → is_open m r;
  gen_rooms : ∀ c, room c → interior w h c → is_open m c;
  gen_connected : ∀ c, is_open m c → connected m entry c;
  gen_forest : unique_paths (is_open m)
}.

(** ** A concrete random source and concrete objects, for examples *)

(** A linear congruential generator; its shuffle rotates the list, and
    reverses it first on some states. *)
Definition lcg_next (g : Z) : Z := (g * 1103515245 + 12345) `mod` 2147483648.

Definition lcg_shuffle (g : Z) (l : list coord) : list coord * Z :=
  (rotate (Z.to_nat ((g `div` 65536) `mod` 4))
     (if Z.even (g `div` 262144) then l else reverse l),
   lcg_next g).

#[global] Instance lcg_source : RandomSource Z.
Proof.
  refine {| seed_state := λ s, s; shuffle := lcg_shuffle |}.
  intros g l. unfold lcg_shuffle, rotate. cbn [fst].
  rewrite <- Permutation_app_comm, take_drop.
  destruct (Z.even _); [done|]. apply reverse_Permutation.
Defined.

Definition default_wall : CubeAppearance :=
  {| color := (0.8, 0.8, 0.8)%Q; alpha := 1%Q; material := "default" |}.
Definition default_solution : CubeAppearance :=
  {| color := (1.0, 1.0, 0.0)%Q; alpha := 1%Q; material := "default" |}.

(** An instance of the given dimensions whose solution path is the list
    object [1], and a world in which that object is the empty list. *)
Definition example_maze (w h : Z) : MazeGenerator :=
  {| width := w; height := h; wall_appearance := default_wall;
     path_appearance := None; solution_appearance := default_solution;
     _maze := all_walls w h; _solution_path := 1%positive |}.

Definition example_world : world Z :=
  {| heap := {[1%positive := []]}; rng := 2024; stdout := [] |}.

(** ** Observations of an instance *)

(** The list a call of [get_solution_path] hands out. *)
Definition returned_path {G : Type} (self : MazeGenerator) (σ : world G)
    : result (list coord) :=
  r ← get_solution_path self σ; Ok (deref r.2 r.1.1).

(** [generate] followed by [get_solution_path]: the wall field left in the
    instance and the contents of the list handed out. *)
Definition generate_and_read {G : Type} `{!RandomSource G} (fuel : nat)
    (seed : option Z) (self : MazeGenerator) (σ : world G)
    : result (grid * list coord) :=
  r ← generate fuel seed self σ;
  p ← returned_path r.1.2 r.2;
  Ok (_maze r.1.2, p).

(** The wall field and the path that [generate] computes from the
    dimensions and the state of the generator alone. *)
Definition maze_of_state {G : Type} `{!RandomSource G} (fuel : nat)
    (w h : Z) (g0 : G) : result (grid * list coord) :=
  st ← _carve_path fuel w h 1 1 (all_walls w h, g0);
  m2 ← maze_set st.1 1 0 false;
  m3 ← maze_set m2 (w - 2) (h - 1) false;
  path ← _find_solution fuel m3 w h;
  Ok (m3, path).

(** ** The lattice of rooms, and bounds checks *)

(** The lattice as the specification words it: an open cell is a room
    with both coordinates even, or the wall cell between two such rooms
    that are open. *)
Definition even_lattice (m : grid) : Prop :=
  ∀ c, is_open m c →
       pillar c
       ∨ ∃ a b, a ≠ b ∧ pillar a ∧ pillar b ∧ is_open m a ∧ is_open m b
                ∧ adjacent a c ∧ adjacent c b.

(** The lattice as the carver builds it: an open cell is a room with both
    coordinates odd, or the wall cell between two such rooms that are
    open. *)
Definition odd_lattice (m : grid) : Prop :=
  ∀ c, is_open m c →
       room c
       ∨ ∃ r d, d ∈ directions ∧ c = between r d ∧ room r ∧ room (move r d)
                ∧ is_open m r ∧ is_open m (move r d).

(** A grid operation rejects every position outside the grid with a
    [ValueError] and leaves the grid as it was. *)
Definition rejects_outside {A : Type}
    (op : position → CubeGrid → CubeGrid * result A) : Prop :=
  ∀ g p, CubeGridM._is_valid_position g p = false →
         ∃ msg, op p g = (g, Raise (ValueError msg)).

(** An empty 3 by 3 by 3 cube grid. *)
Definition example_grid : CubeGrid :=
  {| dimensions := (3, 3, 3); _grid := ∅; _appearances := ∅;
     _default_appearance :=
       {| color := (0.5, 0.5, 0.5)%Q; alpha := 1%Q; material := "default" |} |}.

(** ** The rest of the cube grid *)

(** The indices of an array of shape [dims], in row-major order. *)
Definition all_positions (dims : position) : list position :=
  let '(dx, dy, dz) := dims in
  x ← seqZ 0 dx; y ← seqZ 0 dy; z ← seqZ 0 dz; [(x, y, z)].

(** [get_occupied_positions()]: [np.where] lists the indices of the cells
    that hold [True], in row-major order. *)
Definition get_occupied_positions (g : CubeGrid)
    : CubeGrid * result (list position) :=
  (g, Ok (filter (λ p, p ∈ _grid g) (all_positions (dimensions g)))).

(** A call of one of the mutating methods of [CubeGrid]. *)
Inductive grid_call : Type :=
  | CallSetCube (p : position) (occupied : bool)
      (appearance : option CubeAppearance)
  | CallSetDefault (a : CubeAppearance)
  | CallClear.

(** The grid a call leaves behind, whether it returned or raised. *)
Definition after_call (c : grid_call) (g : CubeGrid) : CubeGrid :=
  match c with
  | CallSetCube p occupied appearance =>
      (CubeGridM.set_cube p occupied appearance g).1
  | CallSetDefault a => (CubeGridM.set_default_appearance a g).1
  | CallClear => (CubeGridM.clear g).1
  end.

Definition after_calls (cs : list grid_call) (g : CubeGrid) : CubeGrid :=
  foldl (λ g c, after_call c g) g cs.

(** Occupied cells lie in the grid, and only occupied cells carry an
    appearance of their own. *)
Definition grid_wf (g : CubeGrid) : Prop :=
  (∀ p, p ∈ _grid g → CubeGridM._is_valid_position g p = true)
  ∧ (∀ p, is_Some (_appearances g !! p) → p ∈ _grid g).

(** ** The levels of the search *)

(** The search runs level by level. [lev] gives every visited cell the
    length of the path it was queued with; the queue holds paths of length
    [L] followed by paths of length [L + 1]; no visited cell has a level
    above [L + 1]; and a visited cell that is neither queued nor the cell
    [cur] being expanded has all its open neighbours visited, at a level
    at most one above its own. *)
Record levelled (m : grid) (s : coord) (cur : option coord) (L : nat)
    (lev : coord → nat) (fr : frontier) : Prop := {
  lv_queue :
    ∃ A B, fr.1 = A ++ B
           ∧ Forall (λ cp, lev cp.1 = L ∧ length cp.2 = L) A
           ∧ Forall (λ cp, lev cp.1 = S L ∧ length cp.2 = S L) B;
  lv_visited : ∀ c p, (c, p) ∈ fr.1 → c ∈ fr.2;
  lv_bound : ∀ c, c ∈ fr.2 → (lev c ≤ S L)%nat;
  lv_done :
    ∀ c, c ∈ fr.2 →
         c ∈ fr.1.*1 ∨ cur = Some c
         ∨ ∀ n, is_open m n → adjacent c n →
                n ∈ fr.2 ∧ (lev n ≤ S (lev c))%nat;
  lv_start : s ∈ fr.2 ∧ lev s = 1%nat;
  lv_cur : ∀ c, cur = Some c → lev c = L
}.

(** A wall field with two routes from the entry to the exit, for
    examples. *)
Definition ring_grid : grid :=
  [[true; false; true; true; true];
   [true; false; false; false; true];
   [true; false; true; false; true];
   [true; false; false; false; true];
   [true; true; true; false; true]].

(** A wall field whose exit is cut off, for examples. *)
Definition blocked_grid : grid :=
  [[true; false; true];
   [true; false; true];
   [true; true; true]].

(** ** The cubes of a maze *)

(** The cube [to_cube_grid] places for the cell [c] of the maze: none, or
    a cube of the given appearance. *)
Definition cube_of_cell (self : MazeGenerator) (solution_set : gset coord)
    (c : coord) : option CubeAppearance :=
  match cell (_maze self) c with
  | Some true => Some (wall_appearance self)
  | _ =>
      if bool_decide (c ∈ solution_set) then Some (solution_appearance self)
      else path_appearance self
  end.

(** ** The picture of a maze *)

(** The glyph [print_maze] prints for the cell [c]. *)
Definition glyph (m : grid) (solution_set : gset coord) (c : coord)
    : string :=
  if bool_decide (c ∈ solution_set) then "o"%string
  else match cell m c with
       | Some true => wall_glyph
       | _ => " "%string
       end.

(** The glyphs of the cells [(0, y)], ..., [(w - 1, y)], in a row. *)
Definition row_text (m : grid) (solution_set : gset coord) (w y : Z)
    : string :=
  foldr String.append EmptyString
    ((λ x, glyph m solution_set (x, y)) <$> seqZ 0 w).

(** ** The mesh generator ([mesh_generator.py]) *)

(** The numbers of a mesh. [cube_size] and the corner coordinates are
    Python or NumPy numbers, and the three arrays returned are NumPy
    arrays; neither is part of the repository. They are the class
    [MeshNumbers]: the comparison [s <= 0], the product [x * s] of a grid
    index and the cube size, the sum [x0 + s], the conversion of a
    coordinate and of a colour component to an element of an array of
    dtype [float32], and the conversion of a Python integer to an element
    of an array of dtype [int32], which returns the integer when it fits
    in 32 bits and is left open otherwise. *)
Class MeshNumbers (F : Type) : Type := {
  is_nonpositive : F → bool;
  int_mul : Z → F → F;
  num_add : F → F → F;
  float32 : F → F;
  color32 : Q → F;
  int32 : Z → result Z;
  int32_fits : ∀ i, -2 ^ 31 ≤ i < 2 ^ 31 → int32 i = Ok i
}.

Record MeshGenerator (F : Type) : Type := mkMeshGenerator {
  cube_size : F
}.
Arguments mkMeshGenerator {F} _.
Arguments cube_size {F} _.

(** The dictionary [generate_mesh] returns: an array of vertex positions,
    an array of faces (three vertex indices each), and an array of vertex
    colours, each as the list of its rows. *)
Record Mesh (F : Type) : Type := mkMesh {
  vertices : list (list F);
  faces : list (list Z);
  colors : list (list F)
}.
Arguments mkMesh {F} _ _ _.
Arguments vertices {F} _.
Arguments faces {F} _.
Arguments colors {F} _.

Section MeshGeneratorM.
Context {F : Type} `{!MeshNumbers F}.

(** [MeshGenerator.__init__(cube_size)] *)
Definition MeshGenerator_init (size : F) : result (MeshGenerator F) :=
  if is_nonpositive size then Raise (ValueError "Cube size must be positive")
  else Ok {| cube_size := size |}.

(** [_generate_cube_geometry(position)] *)
Definition _generate_cube_geometry (self : MeshGenerator F)
    (position : Z * Z * Z) : list (list F) * list (list Z) :=
  let '(x, y, z) := position in
  let s := cube_size self in
  let x0 := int_mul x s in
  let y0 := int_mul y s in
  let z0 := int_mul z s in
  let x1 := num_add x0 s in
  let y1 := num_add y0 s in
  let z1 := num_add z0 s in
  ([[x0; y0; z0]; [x1; y0; z0]; [x1; y1; z0]; [x0; y1; z0];
    [x0; y0; z1]; [x1; y0; z1]; [x1; y1; z1]; [x0; y1; z1]],
   [[0; 1; 2]; [0; 2; 3];
    [4; 6; 5]; [4; 7; 6];
    [0; 3; 7]; [0; 7; 4];
    [1; 5; 6]; [1; 6; 2];
    [0; 4; 5]; [0; 5; 1];
    [3; 2; 6]; [3; 6; 7]]).

(** The [for position in grid.get_occupied_positions()] loop of
    [generate_mesh]: the lists [vertices], [faces] and [colors] and the
    counter [vertex_offset] after it. *)
Fixpoint mesh_loop (self : MeshGenerator F) (grid : CubeGrid)
    (positions : list (Z * Z * Z))
    (acc : list (list F) * list (list Z) * list (list Q))
    (vertex_offset : Z)
    : result (list (list F) * list (list Z) * list (list Q)) :=
  match positions with
  | [] => Ok acc
  | position :: rest =>
      let '(vs, fs, cs) := acc in
      let '(cube_vertices, cube_faces) :=
        _generate_cube_geometry self position in
      let '(grid', got) := CubeGridM.get_appearance position grid in
      appearance ← got;
      let vs' := vs ++ cube_vertices in
      let fs' :=
        fs ++ ((λ face : list Z, (λ f, f + vertex_offset) <$> face)
                 <$> cube_faces) in
      let color_rgba :=
        let '(r, g, b) := color appearance in [r; g; b; alpha appearance] in
      let cs' := cs ++ replicate (length cube_vertices) color_rgba in
      mesh_loop self grid' rest (vs', fs', cs')
        (vertex_offset + Z.of_nat (length cube_vertices))
  end.

(** [generate_mesh(grid)] *)
Definition generate_mesh (self : MeshGenerator F) (grid : CubeGrid)
    : result (Mesh F) :=
  let '(grid', got) := get_occupied_positions grid in
  positions ← got;
  acc ← mesh_loop self grid' positions ([], [], []) 0;
  let '(vs, fs, cs) := acc in
  fs32 ← mapM (mapM int32) fs;
  Ok {| vertices := (λ v : list F, float32 <$> v) <$> vs;
        faces := fs32;
        colors := (λ c : list Q, color32 <$> c) <$> cs |}.

End MeshGeneratorM.

(** The colour row of a vertex of a cube of appearance [a]: red, green,
    blue, alpha. *)
Definition rgba (a : CubeAppearance) : list Q :=
  [(color a).1.1; (color a).1.2; (color a).2; alpha a].

(** Numbers for examples: exact rationals, and integers that wrap around
    to 32 bits. *)
#[global] Instance exact_numbers : MeshNumbers Q.
Proof.
  refine {| is_nonpositive := λ s, Qle_bool s 0;
            int_mul := λ x s, (inject_Z x * s)%Q;
            num_add := Qplus;
            float32 := λ x, x;
            color32 := λ x, x;
            int32 := λ i, Ok ((i + 2 ^ 31) `mod` 2 ^ 32 - 2 ^ 31) |}.
  intros i Hi. f_equal. rewrite Z.mod_small; lia.
Defined.

(** A 2 by 1 by 2 grid with cubes at two corners, one of them red. *)
Definition two_cubes : CubeGrid :=
  {| dimensions := (2, 1, 2);
     _grid := {[(0, 0, 0); (1, 0, 1)]};
     _appearances :=
       {[(1, 0, 1) := {| color := (1, 0, 0)%Q; alpha := 1%Q;
                         material := "default" |}]};
     _default_appearance :=
       {| color := (0.5, 0.5, 0.5)%Q; alpha := 1%Q; material := "default" |} |}.

(** ** Counting walls *)

(** The odd numbers below [n]. *)
Definition odds (n : Z) : list Z :=
  (λ i, 2 * i + 1) <$> seqZ 0 ((n - 1) `div` 2).

(** The rooms of a [w] by [h] maze, as a set. *)
Definition rooms (w h : Z) : gset coord :=
  list_to_set (cprod (odds w) (odds h)).

(** The number of rooms that are still walls. *)
Definition closed_rooms (w h : Z) (m : grid) : nat :=
  size (filter (λ c, cell m c = Some true) (rooms w h)).

(** The wall cells of a [w] by [h] grid, as a set. *)
Definition wall_cells (w h : Z) (m : grid) : gset coord :=
  filter (λ c, cell m c = Some true) (cells w h).

(** The walls of a grid, counted by [μ], less two for every room still
    closed: opening a room together with the wall that leads to it keeps
    this number. *)
Definition surplus (μ : grid → nat) (w h : Z) (m : grid) : Z :=
  Z.of_nat (μ m) - 2 * Z.of_nat (closed_rooms w h m).

(** A call [run x y] of the carver on a pending state opens one cell more
    than twice the rooms it opens less one: the room it starts at, and a
    wall for every other room. *)
Definition counts {G : Type} (μ : grid → nat) (w h : Z)
    (run : Z → Z → grid * G → result (grid * G)) : Prop :=
  ∀ r m g m' g', pending w h m r → run r.1 r.2 (m, g) = Ok (m', g') →
                 surplus μ w h m' = surplus μ w h m + 1.

(** ** The calls of a client that does not generate *)

(** What a client can do with an instance short of calling [generate]:
    call one of the read accessors, or write to a list object it holds. *)
Inductive idle_call : Type :=
  | CallGetSolutionPath
  | CallToCubeGrid (include_solution : bool)
  | CallPrintMaze (show_solution : bool)
  | CallWriteList (l : loc) (new : list coord).

(** One such call: the instance and the world after it. *)
Definition idle_step {G : Type} (c : idle_call) (self : MazeGenerator)
    (σ : world G) : result (MazeGenerator * world G) :=
  match c with
  | CallGetSolutionPath => r ← get_solution_path self σ; Ok (r.1.2, r.2)
  | CallToCubeGrid b => r ← to_cube_grid b self σ; Ok (r.1.2, r.2)
  | CallPrintMaze b => r ← print_maze b self σ; Ok (r.1.2, r.2)
  | CallWriteList l new => Ok (self, mutate l new σ)
  end.

(** A sequence of such calls, in order. *)
Fixpoint idle_calls {G : Type} (cs : list idle_call) (self : MazeGenerator)
    (σ : world G) : result (MazeGenerator * world G) :=
  match cs with
  | [] => Ok (self, σ)
  | c :: cs' => r ← idle_step c self σ; idle_calls cs' r.1 r.2
  end.

(** The client writes to lists of its own or lists it was handed, not to
    the list the instance keeps to itself. *)
Definition keeps_private (self : MazeGenerator) (c : idle_call) : Prop :=
  match c with
  | CallWriteList l _ => l ≠ _solution_path self
  | _ => True
  end.

(** * Verification *)


(** ** Subscripts in range, cells and updates *)

Lemma norm_index_in_range len i :
  0 ≤ i < Z.of_nat len → PyList.norm_index len i = Some (Z.to_nat i).
Proof.
  intros Hi. unfold PyList.norm_index. by rewrite bool_decide_true.
Qed.

Lemma getitem_in_range {A} (l : list A) i a :
  0 ≤ i → l !! Z.to_nat i = Some a → PyList.getitem l i = Ok a.
Proof.
  intros Hi Hl. unfold PyList.getitem.
  rewrite norm_index_in_range; [simpl; by rewrite Hl|].
  apply lookup_lt_Some in Hl. lia.
Qed.

Lemma setitem_in_range {A} (l : list A) i v :
  0 ≤ i < Z.of_nat (length l) →
  PyList.setitem l i v = Ok (<[Z.to_nat i := v]> l).
Proof.
  intros Hi. unfold PyList.setitem. by rewrite norm_index_in_range.
Qed.

Lemma in_bounds_inside w h x y : in_bounds w h x y = true ↔ inside w h (x, y).
Proof.
  unfold in_bounds, inside. rewrite andb_true_iff, !bool_decide_eq_true. done.
Qed.

Lemma shape_row w h m y :
  shape w h m → 0 ≤ y < h →
  ∃ row, m !! Z.to_nat y = Some row ∧ length row = Z.to_nat w.
Proof.
  intros [Hlen Hrows] Hy.
  destruct (lookup_lt_is_Some_2 m (Z.to_nat y)) as [row Hrow]; [lia|].
  exists row. split; [done|].
  by apply (Forall_lookup_1 _ _ _ _ Hrows Hrow).
Qed.

Lemma cell_inside w h m c : shape w h m → inside w h c → is_Some (cell m c).
Proof.
  intros Hs [Hx Hy]. destruct (shape_row _ _ _ _ Hs Hy) as (row & Hrow & Hlen).
  unfold cell. rewrite bool_decide_true by lia. rewrite Hrow. simpl.
  apply lookup_lt_is_Some_2. lia.
Qed.

Lemma cell_Some_inside w h m c b : shape w h m → cell m c = Some b → inside w h c.
Proof.
  intros [Hlen Hrows]. unfold cell. case_bool_decide as Hc; [|done].
  destruct (m !! Z.to_nat c.2) as [row|] eqn:Hrow; [simpl|done].
  intros Hb. apply lookup_lt_Some in Hb.
  pose proof (Forall_lookup_1 _ _ _ _ Hrows Hrow) as Hw. simpl in Hw.
  apply lookup_lt_Some in Hrow. unfold inside. lia.
Qed.

Lemma is_open_inside w h m c : shape w h m → is_open m c → inside w h c.
Proof. apply cell_Some_inside. Qed.

Lemma not_open_wall w h m c :
  shape w h m → inside w h c → ¬ is_open m c → is_wall m c.
Proof.
  intros Hs Hc Hn. destruct (cell_inside _ _ _ _ Hs Hc) as [[] Hb]; [done|].
  by destruct Hn.
Qed.

Lemma wall_not_open m c : is_wall m c → ¬ is_open m c.
Proof. unfold is_wall, is_open. congruence. Qed.

Lemma maze_get_inside w h m x y :
  shape w h m → inside w h (x, y) →
  ∃ b, cell m (x, y) = Some b ∧ maze_get m x y = Ok b.
Proof.
  intros Hs Hc. destruct (cell_inside _ _ _ _ Hs Hc) as [b Hb].
  exists b. split; [done|]. destruct Hc as [Hx Hy]. simpl in *.
  unfold cell in Hb. rewrite bool_decide_true in Hb by (simpl; lia).
  simpl in Hb. destruct (m !! Z.to_nat y) as [row|] eqn:Hrow; [|done].
  unfold maze_get. rewrite (getitem_in_range m y row) by (done || lia).
  simpl. apply getitem_in_range; [lia|done].
Qed.

Lemma maze_set_inside w h m x y v :
  shape w h m → inside w h (x, y) → maze_set m x y v = Ok (upd m (x, y) v).
Proof.
  intros Hs [Hx Hy]. simpl in *.
  destruct (shape_row _ _ _ _ Hs Hy) as (row & Hrow & Hlen).
  unfold maze_set, upd. simpl. rewrite Hrow.
  rewrite (getitem_in_range m y row) by (done || lia). simpl.
  rewrite setitem_in_range by lia. simpl.
  apply setitem_in_range. destruct Hs as [-> _]. lia.
Qed.

Lemma shape_upd w h m c v : shape w h m → shape w h (upd m c v).
Proof.
  intros [Hlen Hrows]. unfold upd.
  destruct (m !! Z.to_nat c.2) as [row|] eqn:Hrow; [|done].
  split; [by rewrite length_insert|].
  apply Forall_insert; [done|]. rewrite length_insert.
  by apply (Forall_lookup_1 _ _ _ _ Hrows Hrow).
Qed.

Lemma cell_upd_eq w h m c v :
  shape w h m → inside w h c → cell (upd m c v) c = Some v.
Proof.
  intros Hs [Hx Hy]. destruct (shape_row _ _ _ _ Hs Hy) as (row & Hrow & Hlen).
  unfold cell, upd. rewrite Hrow, bool_decide_true by lia.
  rewrite list_lookup_insert_eq by (by eapply lookup_lt_Some).
  simpl. apply list_lookup_insert_eq. lia.
Qed.

Lemma cell_upd_ne m c c' v :
  0 ≤ c.1 → 0 ≤ c.2 → c ≠ c' → cell (upd m c v) c' = cell m c'.
Proof.
  intros Hx Hy Hne. unfold cell, upd. case_bool_decide as Hc'; [|done].
  destruct (m !! Z.to_nat c.2) as [row|] eqn:Hrow; [|done].
  destruct (decide (Z.to_nat c.2 = Z.to_nat c'.2)) as [Heq|Hney].
  - rewrite <- Heq, Hrow. rewrite list_lookup_insert_eq by (by eapply lookup_lt_Some).
    simpl. apply list_lookup_insert_ne. intros Heqx.
    apply Hne. destruct c, c'; simpl in *. f_equal; lia.
  - by rewrite list_lookup_insert_ne.
Qed.

Lemma is_open_upd w h m c c' :
  shape w h m → inside w h c →
  is_open (upd m c false) c' ↔ c' = c ∨ is_open m c'.
Proof.
  intros Hs Hc. unfold is_open. destruct (decide (c = c')) as [<-|Hne].
  - rewrite (cell_upd_eq w h) by done. split; auto.
  - rewrite cell_upd_ne by (done || apply Hc). split; [auto|].
    intros [->|?]; [by destruct Hne|done].
Qed.

Lemma filter_true_insert_false (row : list bool) i :
  row !! i = Some true →
  S (length (filter (λ b, b = true) (<[i:=false]> row)))
  = length (filter (λ b, b = true) row).
Proof.
  intros Hi. rewrite insert_take_drop by (by eapply lookup_lt_Some).
  rewrite <- (take_drop_middle row i true Hi) at 3.
  rewrite !filter_app, !length_app.
  rewrite (filter_cons_False _ false) by done.
  rewrite (filter_cons_True _ true) by done. simpl. lia.
Qed.

Lemma count_walls_upd w h m c :
  shape w h m → is_wall m c → S (count_walls (upd m c false)) = count_walls m.
Proof.
  intros Hs Hc. unfold is_wall, cell in Hc. case_bool_decide; [|done].
  unfold upd, count_walls.
  destruct (m !! Z.to_nat c.2) as [row|] eqn:Hrow; [simpl in Hc|done].
  rewrite insert_take_drop by (by eapply lookup_lt_Some).
  rewrite <- (take_drop_middle m _ row Hrow) at 3.
  rewrite !sum_list_with_app. simpl.
  rewrite <- (filter_true_insert_false row _ Hc). lia.
Qed.

Lemma shape_all_walls w h : shape w h (all_walls w h).
Proof.
  split; [apply length_replicate|].
  apply Forall_replicate, length_replicate.
Qed.

Lemma cell_all_walls w h c : inside w h c → cell (all_walls w h) c = Some true.
Proof.
  intros [Hx Hy]. unfold cell, all_walls. rewrite bool_decide_true by lia.
  rewrite lookup_replicate_2 by lia. simpl. apply lookup_replicate_2. lia.
Qed.

Lemma all_walls_not_open w h c : ¬ is_open (all_walls w h) c.
Proof.
  intros Ho. pose proof (is_open_inside _ _ _ _ (shape_all_walls w h) Ho) as Hi.
  unfold is_open in Ho. by rewrite cell_all_walls in Ho.
Qed.

Lemma count_walls_all_walls w h :
  count_walls (all_walls w h) = (Z.to_nat h * Z.to_nat w)%nat.
Proof.
  unfold count_walls, all_walls.
  assert (length (filter (λ b, b = true) (replicate (Z.to_nat w) true))
          = Z.to_nat w) as Hrow.
  { induction (Z.to_nat w) as [|n IH]; [done|].
    change (replicate (S n) true) with (true :: replicate n true).
    rewrite filter_cons_True by done. simpl. by rewrite IH. }
  induction (Z.to_nat h) as [|n IH]; [done|]. simpl. rewrite IH, Hrow. lia.
Qed.

(** ** Walks and simple paths in the 4-connected graph of a cell set *)

Lemma adjacent_sym a b : adjacent a b → adjacent b a.
Proof. unfold adjacent. lia. Qed.

Lemma adjacent_ne a b : adjacent a b → a ≠ b.
Proof. unfold adjacent. intros H ->. lia. Qed.

Section Paths.
Variable S : coord → Prop.

Lemma walk_singleton a : S a → walk S [a].
Proof.
  intros Ha. split; [by constructor|]. intros [|i] ???; by simpl.
Qed.

Lemma walk_snoc p c n :
  walk S p → last p = Some c → S n → adjacent c n → walk S (p ++ [n]).
Proof.
  intros [HS Hadj] Hlast Hn Hcn. split.
  { apply Forall_app. split; [done|by constructor]. }
  intros i a b Ha Hb.
  destruct (decide (i + 1 < length p)%nat) as [Hlt|Hge].
  - rewrite lookup_app_l in Ha by lia. rewrite lookup_app_l in Hb by lia.
    by eapply Hadj.
  - assert (i + 1 = length p)%nat as Hi.
    { apply lookup_lt_Some in Hb. rewrite length_app in Hb. simpl in Hb. lia. }
    rewrite lookup_app_l in Ha by lia.
    rewrite lookup_app_r in Hb by lia.
    replace (i + 1 - length p)%nat with 0%nat in Hb by lia.
    rewrite last_lookup in Hlast.
    replace (Init.Nat.pred (length p)) with i in Hlast by lia.
    simpl in Hb. congruence.
Qed.

Lemma walk_tail a p : walk S (a :: p) → walk S p.
Proof.
  intros [HS Hadj]. split; [by inversion HS|].
  intros i x y Hx Hy. apply (Hadj (Datatypes.S i)); done.
Qed.

Lemma walk_cons a b p : S a → adjacent a b → walk S (b :: p) → walk S (a :: b :: p).
Proof.
  intros Ha Hab [HS Hadj]. split; [by constructor|].
  intros [|i] x y Hx Hy; simpl in *.
  - congruence.
  - by eapply Hadj.
Qed.

Lemma walk_reverse p : walk S p → walk S (reverse p).
Proof.
  intros [HS Hadj]. split; [by apply Forall_reverse|].
  intros i a b Ha Hb.
  apply reverse_lookup_Some in Ha as [Ha Hi].
  apply reverse_lookup_Some in Hb as [Hb Hi'].
  apply adjacent_sym. apply (Hadj (length p - Datatypes.S (i + 1))%nat); [done|].
  replace (length p - Datatypes.S (i + 1) + 1)%nat
    with (length p - Datatypes.S i)%nat by lia. done.
Qed.

Lemma simple_path_reverse a b p :
  simple_path S a b p → simple_path S b a (reverse p).
Proof.
  intros (Hw & Hnd & Hh & Hl). repeat split.
  - apply walk_reverse, Hw.
  - apply walk_reverse, Hw.
  - by rewrite reverse_Permutation.
  - by rewrite head_reverse.
  - by rewrite last_reverse.
Qed.

End Paths.

Lemma walk_mono (S S' : coord → Prop) p :
  (∀ c, S c → S' c) → walk S p → walk S' p.
Proof.
  intros HSS [HS Hadj]. split; [|done]. eapply Forall_impl; eauto.
Qed.

(** Attaching a new cell with at most one neighbour keeps the graph a
    forest. *)
Section Leaf.
Variables (S S' : coord → Prop) (v : coord).
Hypothesis S'_spec : ∀ c, S' c ↔ c = v ∨ S c.
Hypothesis leaf : ∀ a b, S a → S b → adjacent v a → adjacent v b → a = b.

Lemma walk_without p : walk S' p → v ∉ p → walk S p.
Proof.
  intros [HS Hadj] Hv. split; [|done].
  apply Forall_forall. intros c Hc.
  rewrite Forall_forall in HS.
  destruct (proj1 (S'_spec c) (HS c Hc)) as [->|?]; [by destruct Hv|done].
Qed.

Lemma leaf_at_end p :
  walk S' p → NoDup p → v ∈ p → head p = Some v ∨ last p = Some v.
Proof.
  intros [HS Hadj] Hnd Hv.
  apply list_elem_of_lookup in Hv as [i Hi].
  destruct i as [|i]; [left; by rewrite head_lookup|].
  destruct (p !! (Datatypes.S i + 1)%nat) as [z|] eqn:Hz.
  - destruct (lookup_lt_is_Some_2 p i) as [x Hx].
    { apply lookup_lt_Some in Hi. lia. }
    exfalso.
    assert (adjacent x v) as Hxv.
    { apply (Hadj i); [done|]. by replace (i + 1)%nat with (Datatypes.S i) by lia. }
    assert (adjacent v z) as Hvz by (by apply (Hadj (Datatypes.S i))).
    assert (x ≠ z) as Hxz.
    { intros ->. pose proof (NoDup_lookup _ _ _ _ Hnd Hx Hz). lia. }
    rewrite Forall_forall in HS.
    assert (S x) as HSx.
    { destruct (proj1 (S'_spec x)) as [->|]; [| |done].
      - apply HS. eapply list_elem_of_lookup_2, Hx.
      - by apply adjacent_ne in Hxv. }
    assert (S z) as HSz.
    { destruct (proj1 (S'_spec z)) as [->|]; [| |done].
      - apply HS. eapply list_elem_of_lookup_2, Hz.
      - by apply adjacent_ne in Hvz. }
    apply Hxz, leaf; auto using adjacent_sym.
  - right. rewrite last_lookup. apply lookup_ge_None in Hz.
    apply lookup_lt_Some in Hi as Hlt.
    by replace (Init.Nat.pred (length p)) with (Datatypes.S i) by lia.
Qed.

(** Simple paths that start at the new cell agree. *)
Lemma unique_from_leaf b p q :
  unique_paths S → simple_path S' v b p → simple_path S' v b q → p = q.
Proof.
  intros Huniq (Hwp & Hndp & Hhp & Hlp) (Hwq & Hndq & Hhq & Hlq).
  destruct p as [|v' p]; [done|]. destruct q as [|v'' q]; [done|].
  simpl in Hhp, Hhq. simplify_eq.
  apply NoDup_cons in Hndp as [Hvp Hndp]. apply NoDup_cons in Hndq as [Hvq Hndq].
  assert (∀ r, v ∉ r → walk S' (v :: r) → last (v :: r) = Some b →
               r = [] ∧ b = v ∨ ∃ u r', r = u :: r' ∧ adjacent v u ∧ S u
                 ∧ last r = Some b) as Hcase.
  { intros [|u r'] Hr Hw Hl; [left; simpl in Hl; by simplify_eq|right].
    exists u, r'. split; [done|].
    assert (adjacent v u) as Hvu by (by apply (proj2 Hw 0%nat)).
    split; [done|]. split; [|done].
    destruct (proj1 (S'_spec u)) as [->|]; [| |done].
    - pose proof (proj1 Hw) as HS. rewrite Forall_forall in HS.
      apply HS. apply list_elem_of_further, list_elem_of_here.
    - by apply adjacent_ne in Hvu. }
  destruct (Hcase p Hvp Hwp Hlp) as [[-> ->]|(u & p' & -> & Hvu & HSu & Hlp')];
    destruct (Hcase q Hvq Hwq Hlq) as [[-> Hb]|(u' & q' & -> & Hvu' & HSu' & Hlq')].
  - done.
  - exfalso. apply Hvq. rewrite last_Some in Hlq'.
    destruct Hlq' as [l' ->]. apply elem_of_app. right. apply list_elem_of_here.
  - exfalso. subst b. apply Hvp. rewrite last_Some in Hlp'.
    destruct Hlp' as [l' ->]. apply elem_of_app. right. apply list_elem_of_here.
  - f_equal. assert (u = u') as <- by (by apply leaf).
    apply (Huniq u b); repeat split;
      try (by apply walk_without; [eapply walk_tail|]);
      try done.
Qed.

Lemma unique_paths_leaf : unique_paths S → unique_paths S'.
Proof.
  intros Huniq a b p q Hp Hq.
  destruct (decide (a = v)) as [->|Ha]; [by eapply unique_from_leaf|].
  destruct (decide (b = v)) as [->|Hb].
  { apply simple_path_reverse in Hp, Hq.
    apply (inj reverse). by eapply unique_from_leaf. }
  assert (∀ r, simple_path S' a b r → simple_path S a b r) as Hdown.
  { intros r (Hw & Hnd & Hh & Hl). repeat split; try done;
      apply walk_without; try done;
      intros Hv; destruct (leaf_at_end r Hw Hnd Hv); congruence. }
  apply (Huniq a b); by apply Hdown.
Qed.

End Leaf.

(** ** The invariant of the carver *)

Ltac zlia := Z.div_mod_to_equations; lia.

Lemma odd_mod x : Z.odd x = true → x `mod` 2 = 1.
Proof. intros H. by rewrite Zmod_odd, H. Qed.

Lemma elem_of_directions d :
  d ∈ directions ↔ d = (0, -2) ∨ d = (2, 0) ∨ d = (0, 2) ∨ d = (-2, 0).
Proof.
  unfold directions. rewrite !elem_of_cons, elem_of_nil. tauto.
Qed.

Ltac case_dir Hd :=
  let H := fresh in
  pose proof (proj1 (elem_of_directions _) Hd) as H;
  destruct H as [-> | [-> | [-> | ->]]].

Ltac norm_div :=
  cbn [fst snd] in *;
  change ((-2) `div` 2) with (-1) in *;
  change (2 `div` 2) with 1 in *;
  change (0 `div` 2) with 0 in *.

Lemma adjacent_room_not_room a b : adjacent a b → room a → ¬ room b.
Proof. unfold adjacent, room. destruct a, b; simpl. intros ? ? ?. zlia. Qed.

Lemma connected_mono m m' a b :
  (∀ c, is_open m c → is_open m' c) → connected m a b → connected m' a b.
Proof.
  intros Hmono. induction 1 as [|x y z (Hx & Hy & Hxy) _ IH]; [apply rtc_refl|].
  eapply rtc_l; [|exact IH]. auto.
Qed.

Lemma connected_step m a b :
  is_open m a → is_open m b → adjacent a b → connected m a b.
Proof. intros. by apply rtc_once. Qed.

Lemma grown_refl w h r m : grown w h r m m.
Proof. split; (done || lia). Qed.

Lemma grown_trans w h r m1 m2 m3 :
  grown w h r m1 m2 → grown w h r m2 m3 → grown w h r m1 m3.
Proof.
  intros [M1 C1 K1 N1] [M2 C2 K2 N2]. split.
  - auto.
  - intros c Hc3 Hc1. destruct (decide (cell m2 c = Some false)) as [Hc2|Hc2].
    + eapply connected_mono; [exact M2|]. by apply C1.
    + by apply C2.
  - intros c d Hr Hc3 Hc1 Hd Hin.
    destruct (decide (cell m2 c = Some false)) as [Hc2|Hc2].
    + apply M2. by apply K1.
    + by apply K2.
  - lia.
Qed.

(** Opening the room a pending state waits for. *)
Lemma open_room w h m r :
  pending w h m r → carved w h (upd m r false).
Proof.
  intros [Hs Hcells Hends Hforest Hroom Hint Hwall Hleaf].
  assert (inside w h r) as Hin by (destruct Hint; split; lia).
  pose proof (is_open_upd w h m r) as Hopen.
  split.
  - by apply shape_upd.
  - intros c Hc. apply Hopen in Hc as [->|Hc]; [|auto|done..].
    split; [done|]. destruct Hroom. intros []. lia.
  - intros c r' Hc Hadj Hr'. apply Hopen; [done..|].
    destruct (decide (r' = r)) as [|Hne]; [by left|right].
    apply Hopen in Hc as [->|Hc]; [|eauto|done..].
    by destruct (adjacent_room_not_room r r').
  - apply (unique_paths_leaf (is_open m) _ r); [|done..].
    intros c. by apply Hopen.
Qed.

Lemma count_walls_open_room w h m r :
  pending w h m r → S (count_walls (upd m r false)) = count_walls m.
Proof. intros Hp. eapply count_walls_upd; apply Hp. Qed.

(** Removing the wall towards a neighbouring room that is still closed. *)
Lemma open_between w h m r d :
  w `mod` 2 = 1 → h `mod` 2 = 1 →
  carved w h m → room r → interior w h r → is_open m r →
  d ∈ directions → inside w h (move r d) → is_wall m (move r d) →
  is_wall m (between r d) ∧ inside w h (between r d)
  ∧ adjacent r (between r d) ∧ adjacent (between r d) (move r d)
  ∧ pending w h (upd m (between r d) false) (move r d).
Proof.
  intros Hw Hh [Hs Hcells Hends Hforest] Hroom Hint Hr Hd Hin Hwall.
  destruct r as [x y]. destruct Hroom as [Hx Hy], Hint as [Hix Hiy].
  destruct Hin as [Hnx Hny]. simpl in *.
  assert (room (move (x, y) d)) as Hnroom.
  { case_dir Hd;
      unfold room, move; simpl; zlia. }
  assert (interior w h (move (x, y) d)) as Hnint.
  { destruct Hnroom as [Hn1 Hn2]. unfold interior, move in *. simpl in *.
    clear - Hw Hh Hnx Hny Hn1 Hn2. zlia. }
  assert (adjacent (x, y) (between (x, y) d)) as Hadj1.
  { case_dir Hd;
      unfold adjacent, between; norm_div; lia. }
  assert (adjacent (between (x, y) d) (move (x, y) d)) as Hadj2.
  { case_dir Hd;
      unfold adjacent, between, move; norm_div; lia. }
  assert (inside w h (between (x, y) d)) as Hbin.
  { case_dir Hd;
      unfold inside, between, move in *; norm_div; lia. }
  assert (¬ is_open m (between (x, y) d)) as Hbclosed.
  { intros Hb. eapply wall_not_open; [exact Hwall|]. eauto. }
  assert (∀ c, adjacent (between (x, y) d) c →
               c = (x, y) ∨ c = move (x, y) d ∨ pillar c) as Hnbrs.
  { intros [cx cy] Hc.
    assert ((cx = x ∧ cy = y) ∨ (cx = x + d.1 ∧ cy = y + d.2)
            ∨ (cx = x - 1 ∨ cx = x + 1) ∧ (cy = y - 1 ∨ cy = y + 1)) as Hcases.
    { clear - Hd Hc. case_dir Hd; unfold adjacent, between in Hc; norm_div; lia. }
    destruct Hcases as [[-> ->]|[[-> ->]|[Hc1 Hc2]]]; [by left|by right; left|].
    right; right. clear - Hx Hy Hc1 Hc2. unfold pillar. simpl. zlia. }
  pose proof (λ c, is_open_upd w h m (between (x, y) d) c Hs Hbin) as Hopen.
  split; [by apply not_open_wall with w h|].
  do 3 (split; [done|]).
  split.
  - by apply shape_upd.
  - intros c Hc. apply Hopen in Hc as [->|Hc]; [|by apply Hcells].
    clear Hopen Hnbrs Hadj1 Hadj2 Hbin Hbclosed Hnint. destruct Hnroom as [Hn1 Hn2].
    split; [|intros [Hp1 Hp2]];
      case_dir Hd; unfold interior, between, move in *; norm_div; zlia.
  - intros c r' Hc Hadj Hr' Hne. apply Hopen. right.
    apply Hopen in Hc as [->|Hc]; [|eauto].
    destruct (Hnbrs r' Hadj) as [->|[->|[Hp1 Hp2]]]; [done|done|].
    destruct Hr'. lia.
  - apply (unique_paths_leaf (is_open m) _ (between (x, y) d)); [| |done].
    + intros c. apply Hopen.
    + intros a b Ha Hb Haa Hab.
      assert (∀ c, is_open m c → adjacent (between (x, y) d) c → c = (x, y)) as Honly.
      { intros c Hc Hadj. destruct (Hnbrs c Hadj) as [->|[->|Hp]]; [done| |].
        - by destruct (wall_not_open _ _ Hwall).
        - by destruct (Hcells c Hc). }
      rewrite (Honly a), (Honly b); done.
  - done.
  - done.
  - unfold is_wall. rewrite cell_upd_ne; [done|apply Hbin..|].
    by apply adjacent_ne.
  - intros a b Ha Hb Haa Hab.
    assert (∀ c, is_open (upd m (between (x, y) d) false) c →
                 adjacent (move (x, y) d) c → c = between (x, y) d) as Honly.
    { intros c Hc Hadj. apply Hopen in Hc as [->|Hc]; [done|].
      destruct (wall_not_open _ _ Hwall). apply (Hends c); auto using adjacent_sym. }
    rewrite (Honly a), (Honly b); done.
Qed.

(** ** The carver is total and establishes its invariant *)

Lemma bind_Ok {A B} (a : A) (f : A → result B) : (Ok a ≫= f) = f a.
Proof. done. Qed.

Lemma pending_count_pos w h m r : pending w h m r → (0 < count_walls m)%nat.
Proof. intros Hp. rewrite <- (count_walls_open_room w h m r Hp). lia. Qed.

Section CarverCorrect.
Context {G : Type} `{!RandomSource G}.
Variables w h : Z.
Hypothesis Hw : w `mod` 2 = 1.
Hypothesis Hh : h `mod` 2 = 1.

Lemma carve_loop_carves (rec : Z → Z → grid * G → result (grid * G)) bound :
  carves w h rec bound →
  ∀ ds, (∀ d, d ∈ ds → d ∈ directions) →
  ∀ r m g, carved w h m → room r → interior w h r → is_open m r →
    (∃ m' g', carve_loop rec w h r.1 r.2 ds (m, g) = Ok (m', g')
              ∧ carved w h m' ∧ grown w h r m m'
              ∧ ∀ d, d ∈ ds → inside w h (move r d) → is_open m' (move r d))
    ∨ (carve_loop rec w h r.1 r.2 ds (m, g) = OutOfFuel
       ∧ (S bound < count_walls m)%nat).
Proof.
  intros Hrec. induction ds as [|[dx dy] ds IH];
    intros Hds [x y] m g Hcarved Hroom Hint Hopen.
  { left. exists m, g. split; [done|]. split; [done|].
    split; [apply grown_refl|].
    intros d Hd. by apply elem_of_nil in Hd. }
  assert (∀ d, d ∈ ds → d ∈ directions) as Hds'.
  { intros d Hd. apply Hds. by apply list_elem_of_further. }
  assert ((dx, dy) ∈ directions) as Hdir by apply Hds, list_elem_of_here.
  pose proof (carved_shape _ _ _ Hcarved) as Hs.
  cbn [carve_loop fst snd].
  destruct (in_bounds w h (x + dx) (y + dy)) eqn:Hin.
  2:{ destruct (IH Hds' (x, y) m g)
        as [(m' & g' & Hrun & Hc' & Hg' & Hall)|Hout]; [done..| |by right].
      left. exists m', g'. split; [done|]. split; [done|]. split; [done|].
      intros d [->|Hd]%elem_of_cons Hd'; [|by apply Hall].
      apply in_bounds_inside in Hd'. unfold move in Hd'. simpl in Hd'. congruence. }
  apply in_bounds_inside in Hin.
  destruct (maze_get_inside w h m _ _ Hs Hin) as (b & Hb & ->).
  rewrite bind_Ok. destruct b.
  2:{ destruct (IH Hds' (x, y) m g)
        as [(m' & g' & Hrun & Hc' & Hg' & Hall)|Hout]; [done..| |by right].
      left. exists m', g'. split; [done|]. split; [done|]. split; [done|].
      intros d [->|Hd]%elem_of_cons Hd'; [|by apply Hall].
      by apply (grown_mono _ _ _ _ _ Hg'). }
  destruct (open_between w h m (x, y) (dx, dy))
    as (Hbw & Hbin & Hadj1 & Hadj2 & Hpend); [done..|].
  change (between (x, y) (dx, dy))
    with (x + dx `div` 2, y + dy `div` 2) in *.
  change (move (x, y) (dx, dy)) with (x + dx, y + dy) in *.
  rewrite (maze_set_inside w h) by done. rewrite bind_Ok.
  pose proof (count_walls_upd w h m _ Hs Hbw) as Hcnt.
  destruct (Hrec (x + dx, y + dy) _ g Hpend)
    as [(m2 & g2 & Hrun2 & Hc2 & Hg2 & Ho2)|[Hrun2 Hlt]];
    cbn [fst snd] in Hrun2; rewrite Hrun2.
  2:{ right. split; [done|]. lia. }
  rewrite bind_Ok.
  pose proof (λ c, is_open_upd w h m (x + dx `div` 2, y + dy `div` 2) c Hs Hbin)
    as Hopen1.
  assert (∀ c, is_open m c → is_open m2 c) as Hmono.
  { intros c Hc. apply (grown_mono _ _ _ _ _ Hg2), Hopen1. by right. }
  assert (is_open m2 (x + dx `div` 2, y + dy `div` 2)) as Hob.
  { apply (grown_mono _ _ _ _ _ Hg2), Hopen1. by left. }
  pose proof (grown_count _ _ _ _ _ Hg2) as Hcnt2.
  destruct (IH Hds' (x, y) m2 g2)
    as [(m3 & g3 & Hrun3 & Hc3 & Hg3 & Hall)|[Hrun3 Hlt]];
    [done|done|done|by apply Hmono| |];
    cbn [fst snd] in Hrun3.
  2:{ right. split; [done|]. lia. }
  left. exists m3, g3. split; [done|]. split; [done|]. split.
  - apply grown_trans with m2; [|done]. split.
    + done.
    + intros c Hc2' Hc.
      eapply rtc_l; [split; [by apply Hmono|split; [exact Hob|exact Hadj1]]|].
      destruct (decide (c = (x + dx `div` 2, y + dy `div` 2))) as [->|Hne];
        [apply rtc_refl|].
      eapply rtc_l; [split; [exact Hob|split; [exact Ho2|exact Hadj2]]|].
      apply (grown_conn _ _ _ _ _ Hg2); [done|].
      rewrite Hopen1. intros [?|?]; done.
    + intros c d Hr Hc2' Hc Hd Hin'.
      apply (grown_closed _ _ _ _ _ Hg2); try done.
      rewrite Hopen1. intros [->|?]; [|done].
      by destruct (adjacent_room_not_room (x, y) _ Hadj1 Hroom).
    + lia.
  - intros d [->|Hd]%elem_of_cons Hd'; [|by apply Hall].
    by apply (grown_mono _ _ _ _ _ Hg3).
Qed.

Lemma carve_path_carves fuel : carves w h (_carve_path fuel w h) fuel.
Proof.
  induction fuel as [|fuel IH]; intros [x y] m g Hpend.
  { right. split; [done|]. by eapply pending_count_pos. }
  pose proof (open_room _ _ _ _ Hpend) as Hcarved.
  pose proof (count_walls_open_room _ _ _ _ Hpend) as Hcnt.
  assert (inside w h (x, y)) as Hin.
  { destruct (pending_interior _ _ _ _ Hpend). split; simpl in *; lia. }
  pose proof (λ c, is_open_upd w h m (x, y) c (pending_shape _ _ _ _ Hpend) Hin)
    as Hopen1.
  cbn [_carve_path fst snd].
  rewrite (maze_set_inside w h) by (done || apply (pending_shape _ _ _ _ Hpend)).
  rewrite bind_Ok.
  destruct (carve_loop_carves _ _ IH (shuffle g directions).1
              (λ d Hd, proj1 (elem_of_Permutation_proper _ _ _ (shuffle_perm g directions)) Hd)
              (x, y) (upd m (x, y) false) (shuffle g directions).2)
    as [(m' & g' & Hrun & Hc' & Hg' & Hall)|[Hrun Hlt]].
  { done. } { apply (pending_room _ _ _ _ Hpend). }
  { apply (pending_interior _ _ _ _ Hpend). } { apply Hopen1. by left. }
  2:{ right. split; [done|]. lia. }
  cbn [fst snd] in Hrun.
  left. exists m', g'. split; [done|]. split; [done|].
  assert (is_open m' (x, y)) as Hxy.
  { apply (grown_mono _ _ _ _ _ Hg'), Hopen1. by left. }
  split; [|done]. split.
  - intros c Hc. apply (grown_mono _ _ _ _ _ Hg'), Hopen1. by right.
  - intros c Hco Hc. destruct (decide (c = (x, y))) as [->|Hne]; [apply rtc_refl|].
    apply (grown_conn _ _ _ _ _ Hg'); [done|]. rewrite Hopen1. intros [?|?]; done.
  - intros c d Hr Hco Hc Hd Hin'.
    destruct (decide (c = (x, y))) as [->|Hne].
    + apply Hall; [|done].
      by apply (elem_of_Permutation_proper _ _ _ (shuffle_perm g directions)).
    + apply (grown_closed _ _ _ _ _ Hg'); try done.
      rewrite Hopen1. intros [?|?]; done.
  - pose proof (grown_count _ _ _ _ _ Hg'). lia.
Qed.

End CarverCorrect.

(** ** The solver finds a simple path whenever the goal is reachable *)

Lemma elem_of_cells w h c : c ∈ cells w h ↔ inside w h c.
Proof.
  unfold cells, inside. rewrite elem_of_list_to_set, list_elem_of_cprod.
  rewrite !elem_of_seqZ. lia.
Qed.

Lemma size_list_to_set_le (l : list coord) :
  (size (list_to_set l : gset coord) ≤ length l)%nat.
Proof.
  induction l as [|x l IH]; [done|].
  cbn [list_to_set length]. rewrite size_union_alt, size_singleton.
  pose proof (subseteq_size (list_to_set l ∖ {[x]}) (list_to_set l : gset coord)
                ltac:(set_solver)). lia.
Qed.

Lemma length_cprod_seqZ (l k : list Z) :
  length (cprod l k) = (length l * length k)%nat.
Proof.
  induction l as [|x l IH]; [done|].
  change (cprod (x :: l) k) with (((x,.) <$> k) ++ cprod l k).
  rewrite length_app, length_fmap, IH. simpl. lia.
Qed.

Lemma size_cells w h : (size (cells w h) ≤ Z.to_nat (w * h))%nat.
Proof.
  unfold cells. etrans; [apply size_list_to_set_le|].
  rewrite length_cprod_seqZ, !length_seqZ. nia.
Qed.

Lemma elem_of_bfs_directions d :
  d ∈ bfs_directions ↔ d = (0, -1) ∨ d = (1, 0) ∨ d = (0, 1) ∨ d = (-1, 0).
Proof.
  unfold bfs_directions. rewrite !elem_of_cons, elem_of_nil. tauto.
Qed.

Lemma adjacent_move c n : adjacent c n ↔ ∃ d, d ∈ bfs_directions ∧ n = move c d.
Proof.
  destruct c as [x y], n as [nx ny]. unfold adjacent, move. simpl. split.
  - intros Hadj.
    assert ((nx = x ∧ ny = y - 1) ∨ (nx = x + 1 ∧ ny = y)
            ∨ (nx = x ∧ ny = y + 1) ∨ (nx = x - 1 ∧ ny = y))
      as [[-> ->]|[[-> ->]|[[-> ->]|[-> ->]]]] by lia.
    + exists (0, -1). rewrite elem_of_bfs_directions. split; [auto|]. f_equal; simpl; lia.
    + exists (1, 0). rewrite elem_of_bfs_directions. split; [auto|]. f_equal; simpl; lia.
    + exists (0, 1). rewrite elem_of_bfs_directions. split; [auto|]. f_equal; simpl; lia.
    + exists (-1, 0). rewrite elem_of_bfs_directions. split; [auto 6|]. f_equal; simpl; lia.
  - intros (d & Hd & Heq). apply elem_of_bfs_directions in Hd.
    destruct Hd as [-> | [-> | [-> | ->]]]; simpl in Heq; simplify_eq; lia.
Qed.

Section SolverCorrect.
Variables (w h : Z) (m : grid) (dirs : list coord) (s t : coord).
Hypothesis Hshape : shape w h m.
Hypothesis Hdirs : dirs ≡ₚ bfs_directions.

Lemma remaining_push (queue : list (coord * list coord))
    (visited : gset coord) (n : coord) (p : list coord) :
  inside w h n → n ∉ visited →
  remaining w h (queue ++ [(n, p)], {[n]} ∪ visited) = remaining w h (queue, visited).
Proof.
  intros Hin Hn. unfold remaining. simpl. rewrite length_app. simpl.
  assert (cells w h ∖ visited
          = {[n]} ∪ cells w h ∖ ({[n]} ∪ visited)) as ->.
  { apply set_eq. intros c. apply elem_of_cells in Hin.
    destruct (decide (c = n)) as [->|]; set_solver. }
  assert (({[n]} : gset coord) ## cells w h ∖ ({[n]} ∪ visited)) as Hdisj
    by set_solver.
  rewrite (size_union _ _ Hdisj), size_singleton. lia.
Qed.

Lemma bfs_expand_searching c path :
  simple_path (is_open m) s c path →
  ∀ ds, (∀ d, d ∈ ds → d ∈ bfs_directions) →
  ∀ fr, searching w h m s t (Some c) fr → (∀ a, a ∈ path → a ∈ fr.2) →
    ∃ fr', bfs_expand m w h c.1 c.2 path ds fr = Ok fr'
           ∧ searching w h m s t (Some c) fr'
           ∧ fr.2 ⊆ fr'.2
           ∧ remaining w h fr' = remaining w h fr
           ∧ ∀ d, d ∈ ds → is_open m (move c d) → move c d ∈ fr'.2.
Proof.
  intros Hpath. destruct c as [x y].
  induction ds as [|[dx dy] ds IH]; intros Hds [queue visited] Hinv Hsub.
  { exists (queue, visited). do 4 (split; [done|]).
    intros d Hd. by apply elem_of_nil in Hd. }
  assert (∀ d, d ∈ ds → d ∈ bfs_directions) as Hds'.
  { intros d Hd. apply Hds. by apply list_elem_of_further. }
  assert ((dx, dy) ∈ bfs_directions) as Hdir by apply Hds, list_elem_of_here.
  cbn [bfs_expand fst snd].
  assert (∀ fr1, searching w h m s t (Some (x, y)) fr1 →
                 (∀ a, a ∈ path → a ∈ fr1.2) → visited ⊆ fr1.2 →
                 remaining w h fr1 = remaining w h (queue, visited) →
                 (is_open m (x + dx, y + dy) → (x + dx, y + dy) ∈ fr1.2) →
            ∃ fr', bfs_expand m w h x y path ds fr1 = Ok fr'
                   ∧ searching w h m s t (Some (x, y)) fr'
                   ∧ visited ⊆ fr'.2
                   ∧ remaining w h fr' = remaining w h (queue, visited)
                   ∧ ∀ d, d ∈ (dx, dy) :: ds →
                          is_open m (move (x, y) d) → move (x, y) d ∈ fr'.2)
    as Hrest.
  { intros fr1 Hinv1 Hsub1 Hvis1 Hrem1 Hhere.
    destruct (IH Hds' fr1 Hinv1 Hsub1) as (fr' & Hrun & Hinv' & Hvis' & Hrem' & Hall).
    exists fr'. split; [done|]. split; [done|]. split; [set_solver|].
    split; [congruence|].
    intros d [->|Hd]%elem_of_cons Ho; [|by apply Hall].
    apply Hvis'. by apply Hhere. }
  destruct (in_bounds w h (x + dx) (y + dy)) eqn:Hin.
  2:{ apply Hrest; try done; intros Ho.
      apply (is_open_inside w h), in_bounds_inside in Ho; [congruence|done]. }
  apply in_bounds_inside in Hin.
  destruct (maze_get_inside w h m _ _ Hshape Hin) as (b & Hb & ->).
  rewrite bind_Ok. destruct b; simpl negb; cbn [andb].
  { apply Hrest; try done; intros Ho; unfold is_open in Ho; congruence. }
  case_bool_decide as Hnew; cbn [fst snd] in Hnew.
  2:{ apply Hrest; try done; intros _; by apply dec_stable. }
  apply Hrest; cbn [fst snd].
  - destruct Hinv as [Hpaths Hvisited Hstart]. cbn [fst snd] in *. split; cbn [fst snd].
    + intros c p [Hc|Hc]%elem_of_app.
      * destruct (Hpaths c p Hc) as [Hsp Hp]. split; [done|]. set_solver.
      * apply list_elem_of_singleton in Hc. simplify_eq.
        destruct Hpath as (Hwalk & Hnd & Hhead & Hlast). split.
        -- split; [|split; [|split]].
           ++ eapply walk_snoc; [done..|].
              apply adjacent_move. by exists (dx, dy).
           ++ apply NoDup_app. split; [done|]. split; [|apply NoDup_singleton].
              intros a Ha ->%list_elem_of_singleton. by apply Hnew, Hsub.
           ++ rewrite head_app, Hhead. done.
           ++ apply last_snoc.
        -- intros a [Ha| ->%list_elem_of_singleton]%elem_of_app; set_solver.
    + intros c [->%elem_of_singleton|Hc]%elem_of_union.
      * split; [done|]. left. rewrite fmap_app. set_solver.
      * destruct (Hvisited c Hc) as [Hcin [Hq|[Hcur|[Hne Hexp]]]].
        -- split; [done|]. left. rewrite fmap_app. set_solver.
        -- split; [done|]. by right; left.
        -- split; [done|]. right; right. split; [done|].
           intros n Hn Hadj. apply elem_of_union. right. by apply Hexp.
    + set_solver.
  - set_solver.
  - set_solver.
  - by apply remaining_push.
  - set_solver.
Qed.

Lemma expanded_closed (visited : gset coord) a b :
  connected m a b → a ∈ visited →
  (∀ c, c ∈ visited → expanded m visited c) → b ∈ visited.
Proof.
  intros Hab Ha Hclosed. induction Hab as [|a b c (Ha' & Hb & Hab) _ IH]; [done|].
  apply IH. by apply (Hclosed a).
Qed.

Hypothesis Hreach : connected m s t.

Lemma bfs_loop_searching fuel :
  ∀ fr, searching w h m s t None fr →
    (∃ p, bfs_loop fuel dirs m w h t fr = Ok p ∧ simple_path (is_open m) s t p)
    ∨ (bfs_loop fuel dirs m w h t fr = OutOfFuel ∧ (fuel ≤ remaining w h fr)%nat).
Proof.
  induction fuel as [|fuel IH]; intros [queue visited] Hinv.
  { right. split; [done|lia]. }
  cbn [bfs_loop fst snd].
  destruct queue as [|[[x y] path] queue].
  { exfalso. destruct Hinv as [_ Hvisited Hstart]. cbn [fst snd] in *.
    assert (t ∈ visited) as Ht.
    { apply (expanded_closed visited s t); [done..|]. intros c Hc.
      destruct (Hvisited c Hc) as [_ [Hq|[?|[_ ?]]]]; [|done..].
      by apply elem_of_nil in Hq. }
    destruct (Hvisited t Ht) as [_ [Hq|[?|[? _]]]]; [|done..].
    by apply elem_of_nil in Hq. }
  destruct (searching_paths _ _ _ _ _ _ _ Hinv (x, y) path) as [Hpath Hsub];
    [apply list_elem_of_here|].
  cbn [fst snd] in Hsub.
  case_bool_decide as Hgoal.
  { left. exists path. split; [done|]. by rewrite <- Hgoal. }
  destruct (bfs_expand_searching (x, y) path Hpath dirs) with (fr := (queue, visited))
    as (fr' & Hrun & Hinv' & Hvis' & Hrem' & Hall).
  { intros d Hd. by rewrite <- Hdirs. }
  { destruct Hinv as [Hpaths Hvisited Hstart]. cbn [fst snd] in *. split; cbn [fst snd].
    - intros c p Hc. apply Hpaths. by apply list_elem_of_further.
    - intros c Hc. destruct (Hvisited c Hc) as [Hcin [Hq|[?|?]]]; [|done|by auto].
      split; [done|]. rewrite fmap_cons in Hq.
      apply elem_of_cons in Hq as [->|Hq]; [by right; left|by left].
    - done. }
  { done. }
  cbn [fst snd] in Hrun. rewrite Hrun, bind_Ok.
  destruct (IH fr') as [Hok|[Hout Hle]]; [|by left|].
  { destruct Hinv' as [Hpaths Hvisited Hstart]. split; [done| |done].
    intros c Hc. destruct (Hvisited c Hc) as [Hcin [Hq|[Hcur|?]]]; [by auto| |by auto].
    split; [done|]. right; right. simplify_eq. split; [done|].
    intros n Hn Hadj. apply adjacent_move in Hadj as (d & Hd & ->).
    apply Hall; [by rewrite Hdirs|done]. }
  right. split; [done|]. unfold remaining in *. cbn [fst snd length] in *. lia.
Qed.

End SolverCorrect.

(** ** The generated maze *)

Lemma valid_dims_mod w h : valid_dims w h → w `mod` 2 = 1 ∧ h `mod` 2 = 1.
Proof. intros (_ & _ & Hw & Hh). split; by apply odd_mod. Qed.

Lemma unique_paths_empty (S : coord → Prop) : (∀ c, ¬ S c) → unique_paths S.
Proof.
  intros Hempty a b p q ((HS & _) & _ & Hh & _) _.
  destruct p as [|a' p]; [done|]. apply Forall_cons in HS as [HS _].
  by destruct (Hempty a').
Qed.

Lemma pending_all_walls w h : valid_dims w h → pending w h (all_walls w h) (1, 1).
Proof.
  intros (Hw & Hh & _). split.
  - apply shape_all_walls.
  - intros c Hc. by destruct (all_walls_not_open w h c).
  - intros c r' Hc. by destruct (all_walls_not_open w h c).
  - apply unique_paths_empty, all_walls_not_open.
  - done.
  - split; simpl; lia.
  - apply cell_all_walls. split; simpl; lia.
  - intros a b Ha. by destruct (all_walls_not_open w h a).
Qed.

(** A grid in which the room [(1, 1)] is open and every open room has its
    neighbouring rooms open has all its rooms open. *)
Lemma all_rooms_open w h m :
  is_open m (1, 1) →
  (∀ c d, room c → is_open m c → d ∈ directions → inside w h (move c d) →
          is_open m (move c d)) →
  ∀ c, room c → inside w h c → 0 < c.1 → 0 < c.2 → is_open m c.
Proof.
  intros Hstart Hclosed.
  assert (∀ i j : nat, inside w h (1 + 2 * Z.of_nat i, 1 + 2 * Z.of_nat j) →
                       is_open m (1 + 2 * Z.of_nat i, 1 + 2 * Z.of_nat j)) as Hlattice.
  { assert (∀ i j : nat, room (1 + 2 * Z.of_nat i, 1 + 2 * Z.of_nat j)) as Hroom.
    { intros i j. split; simpl; zlia. }
    induction i as [|i IHi].
    - induction j as [|j IHj]; intros Hin; [done|].
      replace (1 + 2 * Z.of_nat 0, 1 + 2 * Z.of_nat (S j))
        with (move (1 + 2 * Z.of_nat 0, 1 + 2 * Z.of_nat j) (0, 2))
        by (unfold move; simpl; f_equal; lia).
      apply Hclosed.
      + apply Hroom.
      + apply IHj. destruct Hin as [H1 H2]. split; simpl in *; lia.
      + apply elem_of_directions. auto.
      + destruct Hin as [H1 H2]. unfold move. split; simpl in *; lia.
    - intros j Hin.
      replace (1 + 2 * Z.of_nat (S i), 1 + 2 * Z.of_nat j)
        with (move (1 + 2 * Z.of_nat i, 1 + 2 * Z.of_nat j) (2, 0))
        by (unfold move; simpl; f_equal; lia).
      apply Hclosed.
      + apply Hroom.
      + apply IHi. destruct Hin as [H1 H2]. split; simpl in *; lia.
      + apply elem_of_directions. auto.
      + destruct Hin as [H1 H2]. unfold move. split; simpl in *; lia. }
  intros [x y] [Hx Hy] Hin Hpx Hpy. simpl in *.
  replace x with (1 + 2 * Z.of_nat (Z.to_nat ((x - 1) `div` 2))) in * by zlia.
  replace y with (1 + 2 * Z.of_nat (Z.to_nat ((y - 1) `div` 2))) in * by zlia.
  by apply Hlattice.
Qed.

Lemma generated_of_carved w h m :
  valid_dims w h →
  carved w h m → grown w h (1, 1) (all_walls w h) m → is_open m (1, 1) →
  generated w h (upd (upd m entry false) (exit_cell w h) false).
Proof.
  intros Hdims [Hs Hcells Hends Hforest] [Hmono Hconn Hclosed Hcnt] Hstart.
  destruct (valid_dims_mod _ _ Hdims) as [Hwm Hhm].
  destruct Hdims as (Hw & Hh & _).
  assert (inside w h entry) as Hentry by (split; simpl; lia).
  assert (inside w h (exit_cell w h)) as Hexit by (split; simpl; lia).
  pose proof (shape_upd w h m entry false Hs) as Hs2.
  pose proof (λ c, is_open_upd w h m entry c Hs Hentry) as Hopen2.
  pose proof (λ c, is_open_upd w h _ (exit_cell w h) c Hs2 Hexit) as Hopen3.
  set (m2 := upd m entry false) in *.
  set (m3 := upd m2 (exit_cell w h) false) in *.
  assert (∀ c, is_open m3 c ↔ c = exit_cell w h ∨ c = entry ∨ is_open m c) as Hopen.
  { intros c. rewrite Hopen3, Hopen2. done. }
  assert (∀ c, room c → interior w h c → is_open m c) as Hrooms.
  { intros c Hroom [Hi1 Hi2].
    apply (all_rooms_open w h); [done| |done|split; lia|lia|lia].
    intros c' d Hr' Hc' Hd Hin. apply Hclosed; try done. apply all_walls_not_open. }
  assert (∀ c, is_open m c → adjacent entry c → c = (1, 1)) as Hnear_entry.
  { intros [x y] Hc Hadj. destruct (Hcells _ Hc) as [[Hi1 Hi2] _].
    unfold adjacent, entry in Hadj. simpl in *. f_equal; lia. }
  assert (∀ c, is_open m2 c → adjacent (exit_cell w h) c → c = (w - 2, h - 2))
    as Hnear_exit.
  { intros [x y] Hc Hadj. unfold adjacent, exit_cell in Hadj. simpl in Hadj.
    apply Hopen2 in Hc as [Hc|Hc].
    - unfold entry in Hc. simplify_eq. lia.
    - destruct (Hcells _ Hc) as [[Hi1 Hi2] _]. simpl in *. f_equal; lia. }
  assert (is_open m (w - 2, h - 2)) as Hlast.
  { apply Hrooms; [split; simpl; zlia|split; simpl; lia]. }
  assert (∀ c, is_open m c → connected m3 entry c) as Hconn'.
  { intros c Hc. eapply rtc_l.
    - split; [|split]; [apply Hopen; auto|apply Hopen; right; right; exact Hstart|].
      unfold adjacent, entry. simpl. lia.
    - eapply connected_mono; [|apply Hconn; [done|apply all_walls_not_open]].
      intros c' Hc'. apply Hopen. auto. }
  split.
  - by apply shape_upd.
  - apply Hopen. auto.
  - apply Hopen. auto.
  - intros c [->|[->|Hc]]%Hopen; auto.
  - intros c r Hc Hint Hadj Hr. apply Hopen. right; right.
    apply Hopen in Hc as [->|[->|Hc]].
    + destruct Hint as [_ Hi2]. unfold exit_cell in Hi2. simpl in Hi2. lia.
    + destruct Hint as [_ Hi2]. unfold entry in Hi2. simpl in Hi2. lia.
    + by apply (Hends c).
  - intros c Hr Hint. apply Hopen. auto.
  - intros c [->|[->|Hc]]%Hopen.
    + eapply rtc_r; [apply (Hconn' _ Hlast)|].
      split; [|split]; [apply Hopen; auto|apply Hopen; auto|].
      unfold adjacent, exit_cell. simpl. lia.
    + apply rtc_refl.
    + by apply Hconn'.
  - apply (unique_paths_leaf (is_open m2) _ (exit_cell w h)); [done| |].
    { intros a b Ha Hb Haa Hab. by rewrite (Hnear_exit a), (Hnear_exit b). }
    apply (unique_paths_leaf (is_open m) _ entry); [done| |done].
    intros a b Ha Hb Haa Hab. by rewrite (Hnear_entry a), (Hnear_entry b).
Qed.

Lemma find_solution_with_spec dirs fuel w h m :
  valid_dims w h → generated w h m → dirs ≡ₚ bfs_directions →
  (∃ p, find_solution_with dirs fuel m w h = Ok p
        ∧ simple_path (is_open m) entry (exit_cell w h) p)
  ∨ (find_solution_with dirs fuel m w h = OutOfFuel
     ∧ (fuel ≤ Z.to_nat (w * h))%nat).
Proof.
  intros Hdims Hgen Hdirs. unfold find_solution_with.
  assert (inside w h entry) as Hentry.
  { destruct Hdims as (? & ? & _). split; simpl; lia. }
  destruct (bfs_loop_searching w h m dirs entry (exit_cell w h)
              (gen_shape _ _ _ Hgen) Hdirs
              (gen_connected _ _ _ Hgen _ (gen_exit _ _ _ Hgen)) fuel
              ([(entry, [entry])], {[entry]})) as [Hok|[Hout Hle]].
  - split; cbn [fst snd].
    + intros c p Hcp%list_elem_of_singleton. simplify_eq. split.
      * split; [apply walk_singleton, Hgen|]. split; [apply NoDup_singleton|done].
      * intros a ->%list_elem_of_singleton. by apply elem_of_singleton.
    + intros c ->%elem_of_singleton. split; [done|]. left.
      apply list_elem_of_here.
    + by apply elem_of_singleton.
  - by left.
  - right. split; [done|]. etrans; [exact Hle|].
    unfold remaining. cbn [fst snd length].
    assert (({[entry]} : gset coord) ⊆ cells w h) as Hsub.
    { intros c ->%elem_of_singleton. by apply elem_of_cells. }
    rewrite (size_difference _ _ Hsub), size_singleton.
    apply subseteq_size in Hsub. rewrite size_singleton in Hsub.
    pose proof (size_cells w h). lia.
Qed.

Section GenerateCorrect.
Context {G : Type} `{!RandomSource G}.

(** The carve of [generate], followed by the two forced openings. *)
Lemma carve_from_start fuel w h (g : G) :
  valid_dims w h →
  (∃ m1 g1, _carve_path fuel w h 1 1 (all_walls w h, g) = Ok (m1, g1)
            ∧ carved w h m1 ∧ grown w h (1, 1) (all_walls w h) m1
            ∧ is_open m1 (1, 1))
  ∨ (_carve_path fuel w h 1 1 (all_walls w h, g) = OutOfFuel
     ∧ (fuel < Z.to_nat (w * h))%nat).
Proof.
  intros Hdims. destruct (valid_dims_mod _ _ Hdims) as [Hw Hh].
  destruct (carve_path_carves w h Hw Hh fuel (1, 1) (all_walls w h) g
              (pending_all_walls w h Hdims)) as [Hok|[Hout Hlt]]; [by left|].
  right. split; [done|]. rewrite count_walls_all_walls in Hlt.
  destruct Hdims as (? & ? & _). nia.
Qed.

(** [generate] on an instance of valid dimensions: it returns, leaving a
    generated maze and a new list object that holds a simple path from
    the entry to the exit; or the fuel was at most [width * height]. *)
Lemma generate_spec fuel seed self (σ : world G) :
  valid_dims (width self) (height self) →
  (∃ self' σ' path,
      generate fuel seed self σ = Ok ((), self', σ')
      ∧ width self' = width self ∧ height self' = height self
      ∧ generated (width self) (height self) (_maze self')
      ∧ heap σ !! _solution_path self' = None
      ∧ heap σ' = <[_solution_path self' := path]> (heap σ)
      ∧ simple_path (is_open (_maze self')) entry
          (exit_cell (width self) (height self)) path)
  ∨ (generate fuel seed self σ = OutOfFuel
     ∧ (fuel ≤ Z.to_nat (width self * height self))%nat).
Proof.
  intros Hdims. unfold generate.
  set (w := width self) in *. set (h := height self) in *.
  set (g0 := match seed with Some s => seed_state s | None => rng σ end).
  destruct (carve_from_start fuel w h g0 Hdims)
    as [(m1 & g1 & -> & Hcarved & Hgrown & Hstart)|[-> Hlt]].
  2:{ right. split; [done|lia]. }
  rewrite bind_Ok. cbn [fst snd].
  pose proof (generated_of_carved w h m1 Hdims Hcarved Hgrown Hstart) as Hgen.
  pose proof (carved_shape _ _ _ Hcarved) as Hs.
  destruct Hdims as (Hw & Hh & Hwo & Hho).
  rewrite (maze_set_inside w h); [|done|split; simpl; lia].
  rewrite bind_Ok.
  rewrite (maze_set_inside w h); [|by apply shape_upd|split; simpl; lia].
  rewrite bind_Ok.
  change (upd (upd m1 (1, 0) false) (w - 2, h - 1) false)
    with (upd (upd m1 entry false) (exit_cell w h) false).
  set (m3 := upd (upd m1 entry false) (exit_cell w h) false) in *.
  destruct (find_solution_with_spec bfs_directions fuel w h m3)
    as [(p & Hrun & Hpath)|[Hrun Hle]]; [done..| |].
  - left. unfold _find_solution. rewrite Hrun, bind_Ok. unfold alloc. cbn [heap].
    eexists _, _, p. split; [reflexivity|]. cbn.
    do 3 (split; [done|]). split; [|done].
    apply not_elem_of_dom, is_fresh.
  - right. unfold _find_solution. rewrite Hrun. done.
Qed.

End GenerateCorrect.

(** ** The claims *)

Section Claims.
Context {G : Type} `{!RandomSource G}.

Lemma get_solution_path_spec self (σ : world G) :
  ∃ l σ', get_solution_path self σ = Ok (l, self, σ')
          ∧ heap σ !! l = None
          ∧ heap σ' = <[l := deref σ (_solution_path self)]> (heap σ)
          ∧ rng σ' = rng σ ∧ stdout σ' = stdout σ
          ∧ deref σ' l = deref σ (_solution_path self).
Proof.
  unfold get_solution_path, alloc. eexists _, _. split; [reflexivity|].
  cbn. split; [apply not_elem_of_dom, is_fresh|]. do 3 (split; [done|]).
  unfold deref at 1. cbn. by rewrite lookup_insert_eq.
Qed.

Lemma returned_path_spec self (σ : world G) :
  returned_path self σ = Ok (deref σ (_solution_path self)).
Proof.
  unfold returned_path.
  destruct (get_solution_path_spec self σ) as (l & σ' & -> & _ & _ & _ & _ & Hd).
  rewrite bind_Ok. cbn. by rewrite Hd.
Qed.

Lemma generate_path_stored (σ σ' : world G) self' path :
  heap σ' = <[_solution_path self' := path]> (heap σ) →
  deref σ' (_solution_path self') = path.
Proof. intros Hheap. unfold deref. by rewrite Hheap, lookup_insert_eq. Qed.

Lemma generate_and_read_pure fuel seed self (σ : world G) :
  generate_and_read fuel seed self σ
  = maze_of_state fuel (width self) (height self)
      (match seed with Some s => seed_state s | None => rng σ end).
Proof.
  unfold generate_and_read, maze_of_state, generate.
  destruct (_carve_path _ _ _ _ _ _) as [st| |]; [|done..].
  rewrite !bind_Ok.
  destruct (maze_set st.1 1 0 false) as [m2| |]; [|done..].
  rewrite !bind_Ok.
  destruct (maze_set m2 _ _ false) as [m3| |]; [|done..].
  rewrite !bind_Ok.
  destruct (_find_solution _ _ _ _) as [path| |]; [|done..].
  rewrite !bind_Ok. unfold alloc. cbn [fst snd].
  rewrite bind_Ok. cbn [fst snd].
  rewrite returned_path_spec, bind_Ok. cbn.
  unfold deref. cbn. by rewrite lookup_insert_eq.
Qed.

(** C1: for odd dimensions of at least 3 and every seed (also none),
    [generate] returns once the fuel exceeds [width * height], the search
    of [_find_solution] on the generated wall field returns a path that
    ends at the exit, and with no amount of fuel does [generate] raise an
    exception: the branch that raises the generation failure is never
    taken. *)
Theorem generate_never_fails seed self (σ : world G) :
  valid_dims (width self) (height self) →
  (∀ fuel, (Z.to_nat (width self * height self) < fuel)%nat →
     ∃ self' σ' p,
       generate fuel seed self σ = Ok ((), self', σ')
       ∧ _find_solution fuel (_maze self') (width self) (height self) = Ok p
       ∧ last p = Some (exit_cell (width self) (height self)))
  ∧ (∀ fuel e, generate fuel seed self σ ≠ Raise e).
Proof.
  intros Hdims. split.
  - intros fuel Hfuel.
    destruct (generate_spec fuel seed self σ Hdims)
      as [(self' & σ' & path & Hrun & _ & _ & Hgen & _ & _ & _)|[_ Hle]]; [|lia].
    destruct (find_solution_with_spec bfs_directions fuel _ _ _ Hdims Hgen)
      as [(p & Hp & Hsp)|[_ Hle]]; [done| |lia].
    exists self', σ', p. split; [done|]. split; [done|]. apply Hsp.
  - intros fuel e.
    destruct (generate_spec fuel seed self σ Hdims)
      as [(self' & σ' & path & -> & _)|[-> _]]; done.
Qed.

(** C2: after [generate] the stored path is the one and only simple path
    from the entry to the exit through open cells; between any two open
    cells there is at most one simple path (no cycles); every room is open
    and connected to the entry; and the search returns that same path for
    every order of the four neighbour directions. *)
Theorem unique_solution_path seed self (σ : world G) fuel :
  valid_dims (width self) (height self) →
  (Z.to_nat (width self * height self) < fuel)%nat →
  ∃ self' σ',
    generate fuel seed self σ = Ok ((), self', σ')
    ∧ let m := _maze self' in
      let w := width self in
      let h := height self in
      let p := deref σ' (_solution_path self') in
      simple_path (is_open m) entry (exit_cell w h) p
      ∧ (∀ q, simple_path (is_open m) entry (exit_cell w h) q → q = p)
      ∧ unique_paths (is_open m)
      ∧ (∀ c, room c → interior w h c → is_open m c ∧ connected m entry c)
      ∧ (∀ dirs fuel', dirs ≡ₚ bfs_directions →
           (Z.to_nat (w * h) < fuel')%nat →
           find_solution_with dirs fuel' m w h = Ok p).
Proof.
  intros Hdims Hfuel.
  destruct (generate_spec fuel seed self σ Hdims)
    as [(self' & σ' & path & Hrun & _ & _ & Hgen & _ & Hheap & Hpath)|[_ Hle]];
    [|lia].
  exists self', σ'. split; [done|]. cbn zeta.
  rewrite (generate_path_stored σ σ' self' path Hheap).
  split; [done|]. split; [|split; [|split]].
  - intros q Hq. by apply (gen_forest _ _ _ Hgen _ _ q path Hq Hpath).
  - apply Hgen.
  - intros c Hr Hi. pose proof (gen_rooms _ _ _ Hgen c Hr Hi) as Hc.
    split; [done|]. by apply (gen_connected _ _ _ Hgen).
  - intros dirs fuel' Hdirs Hfuel'.
    destruct (find_solution_with_spec dirs fuel' _ _ _ Hdims Hgen Hdirs)
      as [(p & -> & Hsp)|[_ Hle]]; [|lia].
    f_equal. by apply (gen_forest _ _ _ Hgen _ _ p path Hsp Hpath).
Qed.


(** C4: [generate] with a seed, followed by [get_solution_path], yields a
    wall field and a path that depend only on the dimensions and the seed:
    two instances of equal dimensions, in any two worlds, give equal wall
    fields and equal paths; for valid dimensions and enough fuel they do
    give them. *)
Theorem same_seed_same_maze fuel (s : Z) self1 self2 (σ1 σ2 : world G) :
  width self1 = width self2 → height self1 = height self2 →
  generate_and_read fuel (Some s) self1 σ1
  = generate_and_read fuel (Some s) self2 σ2
  ∧ (valid_dims (width self1) (height self1) →
     (Z.to_nat (width self1 * height self1) < fuel)%nat →
     ∃ m p, generate_and_read fuel (Some s) self1 σ1 = Ok (m, p)).
Proof.
  intros Hw Hh. split.
  - rewrite !generate_and_read_pure. by rewrite Hw, Hh.
  - intros Hdims Hfuel. unfold generate_and_read.
    destruct (generate_spec fuel (Some s) self1 σ1 Hdims)
      as [(self' & σ' & path & -> & _)|[_ Hle]]; [|lia].
    rewrite bind_Ok, returned_path_spec, bind_Ok. eauto.
Qed.

Lemma default_wall_init :
  CubeAppearance_init (0.8, 0.8, 0.8)%Q 1%Q None = Ok default_wall.
Proof. reflexivity. Qed.

Lemma default_solution_init :
  CubeAppearance_init (1.0, 1.0, 0.0)%Q 1%Q None = Ok default_solution.
Proof. reflexivity. Qed.

(** What [__init__] returns on dimensions that pass its two checks. *)
Lemma init_accepts w h wa pa sa (σ : world G) :
  3 ≤ w → 3 ≤ h → w `mod` 2 ≠ 0 → h `mod` 2 ≠ 0 →
  MazeGenerator_init w h wa pa sa σ
  = Ok ({| width := w; height := h;
           wall_appearance := default default_wall wa;
           path_appearance := pa;
           solution_appearance := default default_solution sa;
           _maze := all_walls w h;
           _solution_path := fresh (dom (heap σ)) |},
        {| heap := <[fresh (dom (heap σ)) := []]> (heap σ);
           rng := rng σ; stdout := stdout σ |}).
Proof.
  intros Hw Hh Hwo Hho. unfold MazeGenerator_init.
  rewrite !bool_decide_false by lia. cbn [orb].
  destruct wa, sa; rewrite ?default_wall_init, ?default_solution_init; done.
Qed.

(** C5: [__init__] raises a [ValueError] exactly when a dimension is below
    3 or even; the message is the 3x3 one when a dimension is below 3 and
    the odd-numbers one when both are at least 3 and one is even, so the
    message always names a constraint that is violated; [__init__] either
    returns an instance or raises one of these two errors, and a raise
    yields no instance; an instance that was constructed has valid
    dimensions and [generate] on it never raises a [ValueError]; widths 1,
    2 and 4 and height 2 are rejected. *)
Theorem init_rejects_bad_dims w h wa pa sa (σ : world G) :
  let r := MazeGenerator_init w h wa pa sa σ in
  ((∃ msg, r = Raise (ValueError msg))
   ↔ w < 3 ∨ h < 3 ∨ w `mod` 2 = 0 ∨ h `mod` 2 = 0)
  ∧ (w < 3 ∨ h < 3 → r = Raise (ValueError too_small_msg))
  ∧ (3 ≤ w → 3 ≤ h → w `mod` 2 = 0 ∨ h `mod` 2 = 0 →
     r = Raise (ValueError not_odd_msg))
  ∧ (∀ self σ', r = Ok (self, σ') →
       width self = w ∧ height self = h ∧ valid_dims w h
       ∧ ∀ fuel seed (τ : world G) msg,
           generate fuel seed self τ ≠ Raise (ValueError msg))
  ∧ ((∃ self σ', r = Ok (self, σ'))
     ∨ (r = Raise (ValueError too_small_msg) ∧ (w < 3 ∨ h < 3))
     ∨ (r = Raise (ValueError not_odd_msg)
        ∧ (w `mod` 2 = 0 ∨ h `mod` 2 = 0)))
  ∧ (w = 1 ∨ w = 2 ∨ w = 4 ∨ h = 2 → ∃ msg, r = Raise (ValueError msg)).
Proof.
  cbn zeta.
  assert (w < 3 ∨ h < 3 →
          MazeGenerator_init w h wa pa sa σ = Raise (ValueError too_small_msg))
    as Hsmall.
  { intros Hlt. unfold MazeGenerator_init.
    destruct (bool_decide (w < 3)) eqn:H1; [done|].
    destruct (bool_decide (h < 3)) eqn:H2; [done|].
    apply bool_decide_eq_false in H1, H2. lia. }
  assert (3 ≤ w → 3 ≤ h → w `mod` 2 = 0 ∨ h `mod` 2 = 0 →
          MazeGenerator_init w h wa pa sa σ = Raise (ValueError not_odd_msg))
    as Heven.
  { intros Hw Hh Hev. unfold MazeGenerator_init.
    rewrite !bool_decide_false by lia. cbn [orb].
    destruct (bool_decide (w `mod` 2 = 0)) eqn:H1; [done|].
    destruct (bool_decide (h `mod` 2 = 0)) eqn:H2; [done|].
    apply bool_decide_eq_false in H1, H2. tauto. }
  assert (w < 3 ∨ h < 3 ∨ w `mod` 2 = 0 ∨ h `mod` 2 = 0 →
          ∃ msg, MazeGenerator_init w h wa pa sa σ = Raise (ValueError msg))
    as Hbad.
  { intros Hb. destruct (decide (w < 3 ∨ h < 3)) as [Hlt|Hge].
    - eexists. by apply Hsmall.
    - eexists. apply Heven; lia. }
  split; [split; [|done]|].
  { intros [msg Hr].
    destruct (decide (w < 3 ∨ h < 3 ∨ w `mod` 2 = 0 ∨ h `mod` 2 = 0))
      as [|Hok]; [done|].
    rewrite init_accepts in Hr by lia. done. }
  split; [done|]. split; [done|]. split; [|split].
  - intros self σ' Hr.
    destruct (decide (w < 3 ∨ h < 3 ∨ w `mod` 2 = 0 ∨ h `mod` 2 = 0))
      as [Hb|Hok].
    { destruct (Hbad Hb) as [msg Hmsg]. congruence. }
    rewrite init_accepts in Hr by lia. simplify_eq. cbn.
    assert (valid_dims w h) as Hdims.
    { unfold valid_dims. rewrite <- !Z.negb_even, !Zeven_mod.
      repeat split; lia. }
    do 3 (split; [done|]).
    intros fuel seed τ msg.
    destruct (generate_spec fuel seed
                {| width := w; height := h;
                   wall_appearance := default default_wall wa;
                   path_appearance := pa;
                   solution_appearance := default default_solution sa;
                   _maze := all_walls w h;
                   _solution_path := fresh (dom (heap σ)) |} τ Hdims)
      as [(self' & σ' & path & -> & _)|[-> _]]; done.
  - destruct (decide (w < 3 ∨ h < 3)) as [Hlt|Hge];
      [right; left; split; [by apply Hsmall|done]|].
    destruct (decide (w `mod` 2 = 0 ∨ h `mod` 2 = 0)) as [Hev|Hodd];
      [right; right; split; [apply Heven; lia|done]|].
    left. rewrite init_accepts by lia. eauto.
  - intros Hw. apply Hbad.
    destruct Hw as [-> | [-> | [-> | ->]]]; [lia|lia|right; right; left; done|lia].
Qed.

(** A wall field with the three rows of a 3 by 3 maze is determined by its
    nine cells. *)
Lemma grid_3x3 (m : grid) b00 b10 b20 b01 b11 b21 b02 b12 b22 :
  shape 3 3 m →
  cell m (0, 0) = Some b00 → cell m (1, 0) = Some b10 → cell m (2, 0) = Some b20 →
  cell m (0, 1) = Some b01 → cell m (1, 1) = Some b11 → cell m (2, 1) = Some b21 →
  cell m (0, 2) = Some b02 → cell m (1, 2) = Some b12 → cell m (2, 2) = Some b22 →
  m = [[b00; b10; b20]; [b01; b11; b21]; [b02; b12; b22]].
Proof.
  intros [Hlen Hrows].
  destruct m as [|r0 [|r1 [|r2 [|]]]]; try done.
  apply Forall_cons in Hrows as [H0 Hrows].
  apply Forall_cons in Hrows as [H1 Hrows].
  apply Forall_cons in Hrows as [H2 _].
  destruct r0 as [|? [|? [|? [|]]]]; try done.
  destruct r1 as [|? [|? [|? [|]]]]; try done.
  destruct r2 as [|? [|? [|? [|]]]]; try done.
  unfold cell. intros.
  repeat match goal with
         | H : context [bool_decide _] |- _ =>
             rewrite bool_decide_true in H by (simpl; lia); vm_compute in H
         end.
  by simplify_eq.
Qed.

(** C7: in the smallest maze, 3 by 3, whatever the seed, the only room is
    [(1, 1)], the entry is [(1, 0)], the exit is [(1, 2)], these three
    cells are the only open ones, and the solution path is
    [[(1, 0); (1, 1); (1, 2)]]. *)
Theorem smallest_maze seed self (σ : world G) fuel :
  width self = 3 → height self = 3 → (9 < fuel)%nat →
  ∃ self' σ',
    generate fuel seed self σ = Ok ((), self', σ')
    ∧ _maze self' = [[true; false; true]; [true; false; true]; [true; false; true]]
    ∧ (∀ c, is_open (_maze self') c ↔ c = (1, 0) ∨ c = (1, 1) ∨ c = (1, 2))
    ∧ (∀ c, room c ∧ interior 3 3 c ↔ c = (1, 1))
    ∧ entry = (1, 0) ∧ exit_cell 3 3 = (1, 2)
    ∧ returned_path self' σ' = Ok [(1, 0); (1, 1); (1, 2)].
Proof.
  intros Hw Hh Hfuel.
  assert (valid_dims (width self) (height self)) as Hdims.
  { rewrite Hw, Hh. repeat split; lia. }
  destruct (generate_spec fuel seed self σ Hdims)
    as [(self' & σ' & path & Hrun & _ & _ & Hgen & _ & Hheap & Hpath)|[_ Hle]].
  2:{ rewrite Hw, Hh in Hle. simpl in Hle. lia. }
  rewrite Hw, Hh in *.
  exists self', σ'. split; [done|].
  assert (∀ c, room c ∧ interior 3 3 c ↔ c = (1, 1)) as Hroom.
  { intros [x y]. unfold room, interior. simpl. split.
    - intros [_ [Hx Hy]]. f_equal; lia.
    - intros [= -> ->]. repeat split; lia. }
  assert (∀ c, is_open (_maze self') c ↔ c = (1, 0) ∨ c = (1, 1) ∨ c = (1, 2))
    as Hopen.
  { intros c. split.
    - intros Hc. destruct (gen_cells _ _ _ Hgen c Hc) as [->|[->|[Hi Hp]]];
        [auto|auto|].
      right; left. destruct c as [x y], Hi as [Hx Hy]. simpl in *. f_equal; lia.
    - intros [-> | [-> | ->]].
      + apply (gen_entry _ _ _ Hgen).
      + apply (gen_rooms _ _ _ Hgen); by apply (Hroom (1, 1)).
      + apply (gen_exit _ _ _ Hgen). }
  assert (∀ c, inside 3 3 c → c ≠ (1, 0) → c ≠ (1, 1) → c ≠ (1, 2) →
               cell (_maze self') c = Some true) as Hwall.
  { intros c Hin H0 H1 H2.
    apply (not_open_wall 3 3); [apply Hgen|done|]. rewrite Hopen. tauto. }
  split.
  { apply grid_3x3; [apply Hgen|..];
      try (apply Hwall; [split; simpl; lia|done..]); by apply Hopen; auto. }
  do 4 (split; [done|]).
  rewrite returned_path_spec, (generate_path_stored σ σ' self' path Hheap).
  f_equal. apply (gen_forest _ _ _ Hgen _ _ _ _ Hpath).
  split; [|split; [|done]].
  - split.
    + repeat constructor; apply Hopen; auto.
    + intros [|[|[|i]]] a b Ha Hb; simpl in *; simplify_eq;
        unfold adjacent; simpl; lia.
  - repeat constructor; set_solver.
Qed.

Lemma carved_odd_lattice w h m : carved w h m → odd_lattice m.
Proof.
  intros [Hs Hcells Hends Hforest] [x y] Hc.
  destruct (Hcells _ Hc) as [_ Hnp].
  destruct (decide (x `mod` 2 = 1)) as [Hx|Hx];
    destruct (decide (y `mod` 2 = 1)) as [Hy|Hy].
  - by left.
  - right. exists (x, y - 1), (0, 2).
    assert (room (x, y - 1)) as Hr1 by (split; simpl; zlia).
    assert (room (move (x, y - 1) (0, 2))) as Hr2 by (split; simpl; zlia).
    split; [apply elem_of_directions; auto|].
    split; [unfold between; norm_div; f_equal; lia|].
    do 2 (split; [done|]). split.
    + apply (Hends (x, y)); [done| |done]. unfold adjacent. simpl. lia.
    + apply (Hends (x, y)); [done| |done]. unfold adjacent, move. simpl. lia.
  - right. exists (x - 1, y), (2, 0).
    assert (room (x - 1, y)) as Hr1 by (split; simpl; zlia).
    assert (room (move (x - 1, y) (2, 0))) as Hr2 by (split; simpl; zlia).
    split; [apply elem_of_directions; auto|].
    split; [unfold between; norm_div; f_equal; lia|].
    do 2 (split; [done|]). split.
    + apply (Hends (x, y)); [done| |done]. unfold adjacent. simpl. lia.
    + apply (Hends (x, y)); [done| |done]. unfold adjacent, move. simpl. lia.
  - destruct Hnp. split; simpl; zlia.
Qed.

(** C6, amended: the cells the recursive carve opens are the rooms, which
    have both coordinates odd (the first one is [(1, 1)]), and the single
    wall cells between two open rooms; every open cell lies off the outer
    boundary and no cell with both coordinates even is opened. *)
Theorem carve_opens_odd_lattice w h (g : G) fuel :
  valid_dims w h → (Z.to_nat (w * h) ≤ fuel)%nat →
  ∃ m g',
    _carve_path fuel w h 1 1 (all_walls w h, g) = Ok (m, g')
    ∧ odd_lattice m
    ∧ is_open m (1, 1)
    ∧ (∀ c, is_open m c → interior w h c ∧ ¬ pillar c)
    ∧ (∀ c, room c → interior w h c → is_open m c).
Proof.
  intros Hdims Hfuel.
  destruct (carve_from_start fuel w h g Hdims)
    as [(m & g' & Hrun & Hcarved & Hgrown & Hstart)|[_ Hlt]]; [|lia].
  exists m, g'. split; [done|]. split; [by eapply carved_odd_lattice|].
  split; [done|]. split; [apply Hcarved|].
  intros c Hr [Hi1 Hi2].
  apply (all_rooms_open w h); [done| |done|split; lia|lia|lia].
  intros c' d Hr' Hc' Hd Hin.
  apply (grown_closed _ _ _ _ _ Hgrown); try done. apply all_walls_not_open.
Qed.

Lemma set_cube_outside occupied appearance : 
  rejects_outside (λ p, CubeGridM.set_cube p occupied appearance).
Proof.
  intros g p Hp. unfold CubeGridM.set_cube. rewrite Hp. cbn. eauto.
Qed.

Lemma get_cube_outside : rejects_outside CubeGridM.get_cube.
Proof.
  intros g p Hp. unfold CubeGridM.get_cube. rewrite Hp. cbn. eauto.
Qed.

(** The bounds checks of the cube grid: [set_cube] and [get_cube] reject
    every position outside the grid with a [ValueError] that names the
    position and the bounds, and leave the grid unchanged;
    [get_appearance] calls no [_is_valid_position]: for every position it
    returns the appearance stored for it, or the default appearance, and
    leaves the grid unchanged. *)
Lemma grid_bounds_checks :
  (∀ occupied appearance,
     rejects_outside (λ p, CubeGridM.set_cube p occupied appearance))
  ∧ rejects_outside CubeGridM.get_cube
  ∧ (∀ g p occupied appearance,
       CubeGridM._is_valid_position g p = false →
       CubeGridM.set_cube p occupied appearance g
       = (g, Raise (ValueError (outside_msg p (dimensions g))))
       ∧ CubeGridM.get_cube p g
         = (g, Raise (ValueError (outside_msg p (dimensions g)))))
  ∧ (∀ g p,
       CubeGridM.get_appearance p g
       = (g, Ok (default (_default_appearance g) (_appearances g !! p)))).
Proof.
  split; [apply set_cube_outside|]. split; [apply get_cube_outside|].
  split; [|done].
  intros g p occupied appearance Hp.
  unfold CubeGridM.set_cube, CubeGridM.get_cube. by rewrite Hp.
Qed.

Lemma set_cube_inside g x y w h appearance :
  dimensions g = (w, 1, h) → 0 ≤ x < w → 0 ≤ y < h →
  ∃ g', CubeGridM.returned (CubeGridM.set_cube (x, 0, y) true appearance g) = Ok g'
        ∧ dimensions g' = (w, 1, h).
Proof.
  intros Hdim Hx Hy. unfold CubeGridM.set_cube, CubeGridM._is_valid_position.
  rewrite Hdim. rewrite !bool_decide_true by lia. cbn. eauto.
Qed.

Lemma cube_row_total self solution_set y w h :
  shape w h (_maze self) → 0 ≤ y < h →
  ∀ xs, (∀ x, x ∈ xs → 0 ≤ x < w) →
  ∀ g, dimensions g = (w, 1, h) →
       ∃ g', cube_row self solution_set y xs g = Ok g'
             ∧ dimensions g' = (w, 1, h).
Proof.
  intros Hs Hy. induction xs as [|x xs IH]; intros Hxs g Hdim; [by eexists|].
  assert (0 ≤ x < w) as Hx by apply Hxs, list_elem_of_here.
  assert (∀ x', x' ∈ xs → 0 ≤ x' < w) as Hxs'.
  { intros x' Hx'. by apply Hxs, list_elem_of_further. }
  cbn [cube_row].
  destruct (maze_get_inside w h (_maze self) x y Hs) as (b & _ & ->); [done|].
  rewrite bind_Ok.
  assert (∀ a, ∃ g', CubeGridM.returned
                       (CubeGridM.set_cube (x, 0, y) true (Some a) g) = Ok g'
                     ∧ dimensions g' = (w, 1, h)) as Hset.
  { intros a. by apply set_cube_inside. }
  destruct b.
  { destruct (Hset (wall_appearance self)) as (g' & -> & Hdim'). rewrite bind_Ok.
    by apply IH. }
  case_bool_decide.
  { destruct (Hset (solution_appearance self)) as (g' & -> & Hdim').
    rewrite bind_Ok. by apply IH. }
  destruct (path_appearance self) as [a|].
  { destruct (Hset a) as (g' & -> & Hdim'). rewrite bind_Ok. by apply IH. }
  rewrite bind_Ok. by apply IH.
Qed.

Lemma cube_rows_total self solution_set w h :
  width self = w → shape w h (_maze self) →
  ∀ ys, (∀ y, y ∈ ys → 0 ≤ y < h) →
  ∀ g, dimensions g = (w, 1, h) →
       ∃ g', cube_rows self solution_set ys g = Ok g'.
Proof.
  intros Hw Hs. induction ys as [|y ys IH]; intros Hys g Hdim; [by eexists|].
  cbn [cube_rows].
  destruct (cube_row_total self solution_set y w h Hs) with (xs := seqZ 0 w) (g := g)
    as (g' & Hrow & Hdim').
  { apply Hys, list_elem_of_here. }
  { intros x Hx%elem_of_seqZ. lia. }
  { done. }
  rewrite Hw, Hrow, bind_Ok. apply IH; [|done].
  intros y' Hy'. by apply Hys, list_elem_of_further.
Qed.

(** [to_cube_grid] returns on every instance whose wall field has the
    shape of its dimensions, and changes neither the instance nor the
    world. *)
Lemma to_cube_grid_total include_solution self (σ : world G) :
  0 < width self → 0 < height self →
  shape (width self) (height self) (_maze self) →
  ∃ g, to_cube_grid include_solution self σ = Ok (g, self, σ).
Proof.
  intros Hw Hh Hs. unfold to_cube_grid, CubeGridM.init. cbn [forallb].
  rewrite !bool_decide_true by lia. cbn [andb negb].
  change (CubeAppearance_init (0.5, 0.5, 0.5)%Q 1%Q None)
    with (Ok {| color := (0.5, 0.5, 0.5)%Q; alpha := 1%Q; material := "default" |}).
  rewrite !bind_Ok.
  destruct (cube_rows_total self
              (if include_solution
               then list_to_set (deref σ (_solution_path self)) else ∅)
              (width self) (height self) eq_refl Hs (seqZ 0 (height self)))
    with (g := {| dimensions := (width self, 1, height self); _grid := ∅;
                  _appearances := ∅;
                  _default_appearance :=
                    {| color := (0.5, 0.5, 0.5)%Q; alpha := 1%Q;
                       material := "default" |} |})
    as (g & ->).
  { intros y Hy%elem_of_seqZ. lia. }
  { done. }
  rewrite bind_Ok. eauto.
Qed.

Lemma print_row_total (m : grid) solution_set y w h :
  shape w h m → 0 ≤ y < h →
  ∀ xs, (∀ x, x ∈ xs → 0 ≤ x < w) →
  ∀ row, ∃ row', print_row m solution_set y xs row = Ok row'.
Proof.
  intros Hs Hy. induction xs as [|x xs IH]; intros Hxs row; [by eexists|].
  assert (∀ x', x' ∈ xs → 0 ≤ x' < w) as Hxs'.
  { intros x' Hx'. by apply Hxs, list_elem_of_further. }
  cbn [print_row]. case_bool_decide; [by apply IH|].
  destruct (maze_get_inside w h m x y Hs) as (b & _ & ->).
  { split; [apply Hxs, list_elem_of_here|done]. }
  rewrite bind_Ok. by apply IH.
Qed.

Lemma print_rows_total (m : grid) solution_set w h :
  shape w h m →
  ∀ ys, (∀ y, y ∈ ys → 0 ≤ y < h) →
  ∀ out, ∃ out', print_rows m w solution_set ys out = Ok out'.
Proof.
  intros Hs. induction ys as [|y ys IH]; intros Hys out; [by eexists|].
  cbn [print_rows].
  destruct (print_row_total m solution_set y w h Hs) with (xs := seqZ 0 w)
    (row := EmptyString) as (row & ->).
  { apply Hys, list_elem_of_here. }
  { intros x Hx%elem_of_seqZ. lia. }
  rewrite bind_Ok. apply IH. intros y' Hy'. by apply Hys, list_elem_of_further.
Qed.

(** [print_maze] returns on every instance whose wall field has the shape
    of its dimensions; it changes the printed output only. *)
Lemma print_maze_total show_solution self (σ : world G) :
  shape (width self) (height self) (_maze self) →
  ∃ out, print_maze show_solution self σ
         = Ok ((), self, {| heap := heap σ; rng := rng σ; stdout := out |}).
Proof.
  intros Hs. unfold print_maze.
  destruct (print_rows_total (_maze self)
              (if show_solution
               then list_to_set (deref σ (_solution_path self)) else ∅)
              (width self) (height self) Hs (seqZ 0 (height self)))
    with (out := stdout σ) as (out & ->).
  { intros y Hy%elem_of_seqZ. lia. }
  rewrite bind_Ok. eauto.
Qed.



(** The calls of a client that does not generate return, and keep the
    instance, the shape of its wall field and the contents of the list it
    keeps to itself. *)
Lemma idle_calls_keep calls :
  ∀ self (σ : world G) path,
    0 < width self → 0 < height self →
    shape (width self) (height self) (_maze self) →
    heap σ !! _solution_path self = Some path →
    Forall (keeps_private self) calls →
    ∃ σ', idle_calls calls self σ = Ok (self, σ')
          ∧ heap σ' !! _solution_path self = Some path.
Proof.
  induction calls as [|c calls IH]; intros self σ path Hw Hh Hs Hp Hcalls.
  { exists σ. by split. }
  apply Forall_cons in Hcalls as [Hc Hcalls]. cbn [idle_calls].
  assert (∃ σ1, idle_step c self σ = Ok (self, σ1)
                ∧ heap σ1 !! _solution_path self = Some path)
    as (σ1 & -> & Hp1).
  { destruct c as [|b|b|l new]; cbn [idle_step].
    - destruct (get_solution_path_spec self σ)
        as (l & σ1 & -> & Hfresh & Hheap & _).
      rewrite bind_Ok. exists σ1. split; [done|].
      rewrite Hheap, lookup_insert_ne; [done|]. intros ->. congruence.
    - destruct (to_cube_grid_total b self σ Hw Hh Hs) as (g & ->).
      rewrite bind_Ok. by exists σ.
    - destruct (print_maze_total b self σ Hs) as (out & ->).
      rewrite bind_Ok. by eexists.
    - eexists. split; [done|]. cbn. by rewrite lookup_insert_ne. }
  rewrite bind_Ok. by apply IH.
Qed.

(** C10: before [generate] is called, [get_solution_path] returns the
    empty list. [__init__] stores a new list object that holds the empty
    list; and after any calls of [get_solution_path], [to_cube_grid] and
    [print_maze], and any writes of the client to other lists (the ones
    handed out among them), [get_solution_path] returns a new list object
    that holds the empty list, the stored list being still empty. *)
Theorem fresh_instance_has_empty_path w h wa pa sa (σ : world G) :
  valid_dims w h →
  ∃ self σ0,
    MazeGenerator_init w h wa pa sa σ = Ok (self, σ0)
    ∧ heap σ !! _solution_path self = None
    ∧ heap σ0 !! _solution_path self = Some []
    ∧ ∀ calls, Forall (keeps_private self) calls →
        ∃ σ1 l σ2,
          idle_calls calls self σ0 = Ok (self, σ1)
          ∧ get_solution_path self σ1 = Ok (l, self, σ2)
          ∧ heap σ1 !! l = None
          ∧ heap σ2 !! l = Some []
          ∧ heap σ2 !! _solution_path self = Some []
          ∧ returned_path self σ1 = Ok [].
Proof.
  intros Hdims. destruct (valid_dims_mod _ _ Hdims) as [Hwm Hhm].
  destruct Hdims as (Hw & Hh & _).
  pose proof (init_accepts w h wa pa sa σ Hw Hh ltac:(lia) ltac:(lia)) as Hinit.
  set (self := {| width := w; height := h;
                  wall_appearance := default default_wall wa;
                  path_appearance := pa;
                  solution_appearance := default default_solution sa;
                  _maze := all_walls w h;
                  _solution_path := fresh (dom (heap σ)) |}) in Hinit.
  set (σ0 := {| heap := <[fresh (dom (heap σ)) := []]> (heap σ);
                rng := rng σ; stdout := stdout σ |}) in Hinit.
  exists self, σ0. split; [done|].
  split; [apply not_elem_of_dom, is_fresh|].
  assert (heap σ0 !! _solution_path self = Some []) as Hlive
    by apply lookup_insert_eq.
  split; [done|]. intros calls Hcalls.
  destruct (idle_calls_keep calls self σ0 []) as (σ1 & Hrun & Hp);
    [cbn; lia|cbn; lia|apply shape_all_walls|done|done|].
  destruct (get_solution_path_spec self σ1)
    as (l & σ2 & Hget & Hfresh & Hheap & _).
  assert (deref σ1 (_solution_path self) = []) as Hd
    by (unfold deref; by rewrite Hp).
  rewrite Hd in Hheap.
  exists σ1, l, σ2. split; [done|]. split; [done|]. split; [done|].
  split; [by rewrite Hheap, lookup_insert_eq|]. split.
  - rewrite Hheap, lookup_insert_ne; [done|]. intros ->. congruence.
  - by rewrite returned_path_spec, Hd.
Qed.

End Claims.

(** ** The claims on concrete inputs *)

Ltac discharge := cbn; repeat split; first [lia | reflexivity | done].

Lemma generate_never_fails_witness :
  (∀ fuel, (25 < fuel)%nat →
     ∃ self' σ' p,
       generate fuel (Some 42) (example_maze 5 5) example_world
       = Ok ((), self', σ')
       ∧ _find_solution fuel (_maze self') 5 5 = Ok p
       ∧ last p = Some (3, 4))
  ∧ (∀ fuel e,
       generate fuel (Some 42) (example_maze 5 5) example_world ≠ Raise e).
Proof.
  apply (generate_never_fails (Some 42) (example_maze 5 5) example_world).
  discharge.
Defined.

Lemma unique_solution_path_witness :
  ∃ self' σ',
    generate 26 None (example_maze 5 5) example_world = Ok ((), self', σ')
    ∧ unique_paths (is_open (_maze self')).
Proof.
  destruct (unique_solution_path None (example_maze 5 5) example_world 26)
    as (self' & σ' & Hrun & _ & _ & Hforest & _); [discharge..|].
  exists self', σ'. split; [exact Hrun|exact Hforest].
Defined.


Lemma same_seed_same_maze_witness :
  generate_and_read 30 (Some 123) (example_maze 5 5) example_world
  = generate_and_read 30 (Some 123) (example_maze 5 5)
      {| heap := ∅; rng := 99; stdout := [] |}.
Proof.
  apply (same_seed_same_maze 30 123 (example_maze 5 5) (example_maze 5 5));
    reflexivity.
Defined.

Lemma carve_opens_odd_lattice_witness :
  ∃ m g',
    _carve_path 25 5 5 1 1 (all_walls 5 5, 42) = Ok (m, g')
    ∧ odd_lattice m ∧ is_open m (1, 1).
Proof.
  destruct (carve_opens_odd_lattice 5 5 42 25)
    as (m & g' & Hrun & Hodd & Hstart & _); [discharge..|].
  exists m, g'. repeat split; assumption.
Defined.

(** C6 as stated fails on the 3 by 3 maze: the carve opens the cell
    [(1, 1)], whose coordinates are odd, and no open cell with both
    coordinates even is next to it. *)
Lemma even_lattice_counterexample :
  _carve_path 10 3 3 1 1 (all_walls 3 3, 42)
  = Ok ([[true; true; true]; [true; false; true]; [true; true; true]],
        lcg_next 42)
  ∧ ¬ even_lattice [[true; true; true]; [true; false; true]; [true; true; true]].
Proof.
  split; [by vm_compute|].
  intros Hclaim. destruct (Hclaim (1, 1)) as [[H1 _]|(a & b & _ & Ha & _ & _ & _ & Hadj & _)].
  - by vm_compute.
  - by vm_compute in H1.
  - destruct a as [x y], Ha as [Hx Hy]. unfold adjacent in Hadj. simpl in *. zlia.
Qed.

Lemma smallest_maze_witness :
  ∃ self' σ',
    generate 10 (Some 1) (example_maze 3 3) example_world = Ok ((), self', σ')
    ∧ returned_path self' σ' = Ok [(1, 0); (1, 1); (1, 2)].
Proof.
  destruct (smallest_maze (Some 1) (example_maze 3 3) example_world 10)
    as (self' & σ' & Hrun & _ & _ & _ & _ & _ & Hpath); [discharge..|].
  exists self', σ'. split; assumption.
Defined.

(** C8: every accessor that takes a coordinate is to reject a position
    outside the grid with a [ValueError]. [set_cube] and [get_cube] do
    (see [grid_bounds_checks]); [get_appearance] does not: on the position
    [(5, 0, 0)], outside a 3 by 3 by 3 grid, it returns the default
    appearance and raises nothing. *)
Theorem get_appearance_unchecked :
  CubeGridM._is_valid_position example_grid (5, 0, 0) = false
  ∧ CubeGridM.get_appearance (5, 0, 0) example_grid
    = (example_grid, Ok (_default_appearance example_grid))
  ∧ ¬ rejects_outside CubeGridM.get_appearance.
Proof.
  split; [reflexivity|]. split; [reflexivity|].
  intros Hclaim. destruct (Hclaim example_grid (5, 0, 0) eq_refl) as [msg Hmsg].
  discriminate Hmsg.
Qed.


Lemma fresh_instance_has_empty_path_witness :
  ∃ self σ0 σ1 l σ2,
    MazeGenerator_init 5 7 None None None example_world = Ok (self, σ0)
    ∧ heap σ0 !! _solution_path self = Some []
    ∧ idle_calls [CallGetSolutionPath; CallWriteList 1 [(0, 0)];
                  CallPrintMaze true; CallToCubeGrid true] self σ0
      = Ok (self, σ1)
    ∧ get_solution_path self σ1 = Ok (l, self, σ2)
    ∧ heap σ2 !! l = Some [].
Proof.
  destruct (fresh_instance_has_empty_path 5 7 None None None example_world)
    as (self & σ0 & Hinit & Hnew & Hlive & Hcalls); [discharge..|].
  destruct (Hcalls [CallGetSolutionPath; CallWriteList 1 [(0, 0)];
                    CallPrintMaze true; CallToCubeGrid true])
    as (σ1 & l & σ2 & Hrun & Hget & _ & Hempty & _).
  { repeat constructor. intros Heq. rewrite <- Heq in Hnew. discriminate. }
  exists self, σ0, σ1, l, σ2. split; [exact Hinit|]. split; [exact Hlive|].
  split; [exact Hrun|]. split; [exact Hget|exact Hempty].
Defined.

(** The rejected dimensions of C5, and an accepted one. *)
Example init_rejects_examples :
  MazeGenerator_init 1 5 None None None example_world
  = Raise (ValueError "Maze dimensions must be at least 3x3")
  ∧ MazeGenerator_init 2 5 None None None example_world
    = Raise (ValueError "Maze dimensions must be at least 3x3")
  ∧ MazeGenerator_init 4 5 None None None example_world
    = Raise (ValueError "Maze dimensions must be odd numbers")
  ∧ MazeGenerator_init 5 2 None None None example_world
    = Raise (ValueError "Maze dimensions must be at least 3x3")
  ∧ MazeGenerator_init 5 6 None None None example_world
    = Raise (ValueError "Maze dimensions must be odd numbers").
Proof. repeat split; reflexivity. Qed.

(** A 7 by 7 maze from seed 42 with the example generator: the wall field
    and the path the search finds. *)
Example generate_7x7 :
  generate_and_read 50 (Some 42) (example_maze 7 7) example_world
  = Ok ([[true; false; true; true; true; true; true];
         [true; false; false; false; false; false; true];
         [true; true; true; true; true; false; true];
         [true; false; false; false; true; false; true];
         [true; false; true; false; true; false; true];
         [true; false; true; false; false; false; true];
         [true; true; true; true; true; false; true]],
        [(1, 0); (1, 1); (2, 1); (3, 1); (4, 1); (5, 1); (5, 2); (5, 3);
         (5, 4); (5, 5); (5, 6)]).
Proof. by vm_compute. Qed.

(** Out of range subscripts, as Python has them. *)
Example getitem_examples :
  PyList.getitem [10; 20; 30] 0 = Ok 10
  ∧ PyList.getitem [10; 20; 30] (-1) = Ok 30
  ∧ PyList.getitem [10; 20; 30] 3 = Raise IndexError
  ∧ PyList.getitem [10; 20; 30] (-4) = Raise IndexError
  ∧ PyList.setitem [10; 20; 30] (-3) 7 = Ok [7; 20; 30].
Proof. repeat split; reflexivity. Qed.

(** [set_cube] and [get_cube] outside a 3 by 3 by 3 grid. *)
Example set_cube_outside_example :
  CubeGridM.set_cube (5, 0, 0) true None example_grid
  = (example_grid,
     Raise (ValueError "Position (5, 0, 0) is outside grid bounds (3, 3, 3)"))
  ∧ CubeGridM.get_cube (0, 0, 5) example_grid
    = (example_grid,
       Raise (ValueError "Position (0, 0, 5) is outside grid bounds (3, 3, 3)")).
Proof. split; by vm_compute. Qed.

(** * Further properties of the code *)

(** ** The cube grid *)

Lemma valid_position_spec g x y z :
  CubeGridM._is_valid_position g (x, y, z) = true
  ↔ 0 ≤ x < (dimensions g).1.1 ∧ 0 ≤ y < (dimensions g).1.2
    ∧ 0 ≤ z < (dimensions g).2.
Proof.
  unfold CubeGridM._is_valid_position. destruct (dimensions g) as [[dx dy] dz].
  cbn [fst snd]. rewrite !andb_true_iff, !bool_decide_eq_true. tauto.
Qed.

Lemma elem_of_all_positions dims p :
  p ∈ all_positions dims
  ↔ 0 ≤ p.1.1 < dims.1.1 ∧ 0 ≤ p.1.2 < dims.1.2 ∧ 0 ≤ p.2 < dims.2.
Proof.
  destruct dims as [[dx dy] dz], p as [[x y] z]. unfold all_positions.
  cbn [fst snd]. rewrite list_elem_of_bind. split.
  - intros (x' & Hy & Hx%elem_of_seqZ).
    apply list_elem_of_bind in Hy as (y' & Hz & Hy%elem_of_seqZ).
    apply list_elem_of_bind in Hz as (z' & Hp & Hz%elem_of_seqZ).
    apply list_elem_of_singleton in Hp. simplify_eq. lia.
  - intros (Hx & Hy & Hz). exists x. split; [|apply elem_of_seqZ; lia].
    apply list_elem_of_bind. exists y. split; [|apply elem_of_seqZ; lia].
    apply list_elem_of_bind. exists z. split; [|apply elem_of_seqZ; lia].
    by apply list_elem_of_singleton.
Qed.

Lemma NoDup_all_positions dims : NoDup (all_positions dims).
Proof.
  destruct dims as [[dx dy] dz]. unfold all_positions.
  apply NoDup_bind; [| |apply NoDup_seqZ].
  - intros x1 x2 p _ _ H1 H2.
    apply list_elem_of_bind in H1 as (y1 & H1 & _).
    apply list_elem_of_bind in H1 as (z1 & H1 & _).
    apply list_elem_of_bind in H2 as (y2 & H2 & _).
    apply list_elem_of_bind in H2 as (z2 & H2 & _).
    apply list_elem_of_singleton in H1, H2. by simplify_eq.
  - intros x _. apply NoDup_bind; [| |apply NoDup_seqZ].
    + intros y1 y2 p _ _ H1 H2.
      apply list_elem_of_bind in H1 as (z1 & H1 & _).
      apply list_elem_of_bind in H2 as (z2 & H2 & _).
      apply list_elem_of_singleton in H1, H2. by simplify_eq.
    + intros y _. apply NoDup_bind; [| |apply NoDup_seqZ].
      * intros z1 z2 p _ _ H1 H2.
        apply list_elem_of_singleton in H1, H2. by simplify_eq.
      * intros z _. apply NoDup_singleton.
Qed.

Lemma valid_position_all_positions g p :
  CubeGridM._is_valid_position g p = true ↔ p ∈ all_positions (dimensions g).
Proof.
  destruct p as [[x y] z]. by rewrite valid_position_spec, elem_of_all_positions.
Qed.

(** X1: writing a cell inside the grid and reading it back. [set_cube]
    returns, [get_cube] at the same position then returns the occupancy
    that was written, and [get_cube] at every other position returns what
    it returned before. *)
Theorem set_cube_then_get_cube g p q occupied appearance :
  CubeGridM._is_valid_position g p = true →
  let g' := (CubeGridM.set_cube p occupied appearance g).1 in
  (CubeGridM.set_cube p occupied appearance g).2 = Ok ()
  ∧ dimensions g' = dimensions g
  ∧ CubeGridM.get_cube p g' = (g', Ok occupied)
  ∧ (q ≠ p → (CubeGridM.get_cube q g').2 = (CubeGridM.get_cube q g).2).
Proof.
  intros Hp. cbn zeta. unfold CubeGridM.set_cube. rewrite Hp. cbn [negb fst snd].
  split; [done|]. split; [done|].
  unfold CubeGridM.get_cube, CubeGridM._is_valid_position in *.
  cbn [dimensions _grid]. split.
  - rewrite Hp. cbn [negb]. f_equal. f_equal.
    destruct occupied; [apply bool_decide_true|apply bool_decide_false]; set_solver.
  - intros Hne. destruct q as [[qx qy] qz], (dimensions g) as [[dx dy] dz].
    destruct (negb _); [done|]. cbn [snd]. f_equal.
    apply bool_decide_ext. destruct occupied; set_solver.
Qed.

(** X2: the appearance of a cell after [set_cube] on a position inside the
    grid. Occupying it with an appearance makes [get_appearance] return
    that appearance; occupying it without one leaves what
    [get_appearance] returned before; vacating it makes [get_appearance]
    return the default appearance; and the appearance of every other
    position is unchanged. *)
Theorem set_cube_then_get_appearance g p q occupied appearance a :
  CubeGridM._is_valid_position g p = true →
  (CubeGridM.get_appearance p (CubeGridM.set_cube p true (Some a) g).1).2 = Ok a
  ∧ (CubeGridM.get_appearance p (CubeGridM.set_cube p true None g).1).2
    = (CubeGridM.get_appearance p g).2
  ∧ (CubeGridM.get_appearance p (CubeGridM.set_cube p false appearance g).1).2
    = Ok (_default_appearance g)
  ∧ (q ≠ p →
     (CubeGridM.get_appearance q (CubeGridM.set_cube p occupied appearance g).1).2
     = (CubeGridM.get_appearance q g).2).
Proof.
  intros Hp. unfold CubeGridM.set_cube, CubeGridM.get_appearance.
  rewrite Hp. cbn [negb fst snd _appearances _default_appearance].
  split; [by rewrite lookup_insert_eq|]. split; [done|].
  split; [by rewrite lookup_delete_eq|].
  intros Hne. destruct occupied, appearance; cbn;
    by rewrite ?lookup_insert_ne, ?lookup_delete_ne.
Qed.

Lemma grid_wf_after_call c g :
  grid_wf g →
  grid_wf (after_call c g) ∧ dimensions (after_call c g) = dimensions g.
Proof.
  intros [Hocc Happ]. destruct c as [p occupied appearance|a|]; cbn.
  - unfold CubeGridM.set_cube.
    destruct (CubeGridM._is_valid_position g p) eqn:Hp; cbn [negb fst];
      [|done].
    split; [|done]. unfold grid_wf, CubeGridM._is_valid_position in *.
    cbn [dimensions _grid _appearances]. split.
    + intros q Hq. destruct (decide (q = p)) as [->|Hne]; [done|].
      apply Hocc. destruct occupied; set_solver.
    + intros q Hq. destruct (decide (q = p)) as [->|Hne].
      * destruct occupied; [set_solver|]. rewrite lookup_delete_eq in Hq.
        by destruct Hq.
      * assert (is_Some (_appearances g !! q)) as Hq'.
        { destruct occupied, appearance;
            by rewrite ?lookup_insert_ne, ?lookup_delete_ne in Hq. }
        apply Happ in Hq'. destruct occupied; set_solver.
  - done.
  - split; [|done]. split; cbn.
    + intros p Hp. set_solver.
    + intros p Hp. rewrite lookup_empty in Hp. by destruct Hp.
Qed.

Lemma grid_wf_after_calls cs g :
  grid_wf g →
  grid_wf (after_calls cs g) ∧ dimensions (after_calls cs g) = dimensions g.
Proof.
  revert g. induction cs as [|c cs IH]; intros g Hwf; [done|].
  change (after_calls (c :: cs) g) with (after_calls cs (after_call c g)).
  destruct (grid_wf_after_call c g Hwf) as [Hwf' Hdim].
  destruct (IH _ Hwf') as [Hwf'' Hdim']. split; [done|congruence].
Qed.

Lemma init_grid dims g :
  CubeGridM.init dims = Ok g →
  dimensions g = dims ∧ _grid g = ∅ ∧ _appearances g = ∅
  ∧ 0 < dims.1.1 ∧ 0 < dims.1.2 ∧ 0 < dims.2.
Proof.
  destruct dims as [[dx dy] dz]. unfold CubeGridM.init. cbn [forallb].
  destruct (bool_decide (0 < dx)) eqn:Hx; [|done].
  destruct (bool_decide (0 < dy)) eqn:Hy; [|done].
  destruct (bool_decide (0 < dz)) eqn:Hz; [|done].
  apply bool_decide_eq_true in Hx, Hy, Hz. cbn.
  intros [= <-]. done.
Qed.

(** X3: the invariant of a cube grid. Whatever calls of [set_cube] (also
    ones that raise), [set_default_appearance] and [clear] follow
    [__init__], the dimensions stay the same, every occupied cell lies
    inside the grid, only occupied cells carry an appearance of their own,
    and so [get_appearance] returns the default appearance wherever
    [get_cube] does not return [True]. *)
Theorem grid_invariant dims g0 cs :
  CubeGridM.init dims = Ok g0 →
  let g := after_calls cs g0 in
  dimensions g = dims
  ∧ grid_wf g
  ∧ ∀ p, (CubeGridM.get_cube p g).2 ≠ Ok true →
         (CubeGridM.get_appearance p g).2 = Ok (_default_appearance g).
Proof.
  intros Hinit. cbn zeta.
  destruct (init_grid _ _ Hinit) as (Hdim & Hgrid & Happ & _).
  assert (grid_wf g0) as Hwf0.
  { split; intros p; rewrite ?Hgrid, ?Happ, ?lookup_empty; [set_solver|].
    intros []; done. }
  destruct (grid_wf_after_calls cs g0 Hwf0) as [[Hocc Happs] Hdims].
  split; [congruence|]. split; [done|].
  intros p Hp. unfold CubeGridM.get_appearance. cbn [snd].
  destruct (_appearances (after_calls cs g0) !! p) as [a|] eqn:Ha; [|done].
  destruct Hp. unfold CubeGridM.get_cube.
  assert (p ∈ _grid (after_calls cs g0)) as Hin by (apply Happs; eauto).
  rewrite (Hocc p Hin). cbn. by rewrite bool_decide_true.
Qed.

(** X4: [get_occupied_positions] lists, without repetition, exactly the
    positions at which [get_cube] returns [True]. *)
Theorem occupied_positions_spec g :
  ∃ l, get_occupied_positions g = (g, Ok l)
       ∧ NoDup l
       ∧ ∀ p, p ∈ l ↔ CubeGridM.get_cube p g = (g, Ok true).
Proof.
  eexists. split; [reflexivity|]. split.
  - apply NoDup_filter, NoDup_all_positions.
  - intros p. rewrite list_elem_of_filter, <- valid_position_all_positions.
    unfold CubeGridM.get_cube.
    destruct (CubeGridM._is_valid_position g p); cbn [negb].
    + split.
      * intros [Hp _]. by rewrite bool_decide_true.
      * intros [= Hp]. by apply bool_decide_eq_true in Hp.
    + split; [by intros [_ ?]|done].
Qed.

(** X5: [__init__] raises a [ValueError] exactly when a dimension is not
    positive; a grid it returns has the dimensions given and no occupied
    position. [clear] leaves no occupied position and no appearance other
    than the default, and keeps the dimensions and the default
    appearance. *)
Theorem init_and_clear_give_empty_grid dims g :
  (CubeGridM.init dims = Raise (ValueError "All dimensions must be positive")
   ↔ ¬ (0 < dims.1.1 ∧ 0 < dims.1.2 ∧ 0 < dims.2))
  ∧ (0 < dims.1.1 ∧ 0 < dims.1.2 ∧ 0 < dims.2 →
     ∃ g0, CubeGridM.init dims = Ok g0 ∧ dimensions g0 = dims
           ∧ get_occupied_positions g0 = (g0, Ok []))
  ∧ (let g' := (CubeGridM.clear g).1 in
     (CubeGridM.clear g).2 = Ok ()
     ∧ get_occupied_positions g' = (g', Ok [])
     ∧ dimensions g' = dimensions g
     ∧ ∀ p, CubeGridM.get_appearance p g' = (g', Ok (_default_appearance g))).
Proof.
  assert (∀ (P : position → Prop) `{!∀ p, Decision (P p)} l,
            (∀ p, ¬ P p) → filter P l = []) as Hnone.
  { intros P ? l HP. induction l as [|p l IH]; [done|].
    by rewrite filter_cons_False. }
  destruct dims as [[dx dy] dz]. cbn [fst snd]. split; [|split].
  - unfold CubeGridM.init. cbn [forallb]. split.
    + intros Hr (Hx & Hy & Hz). by rewrite !bool_decide_true in Hr.
    + intros Hn.
      destruct (bool_decide (0 < dx)) eqn:Hx; [|done].
      destruct (bool_decide (0 < dy)) eqn:Hy; [|done].
      destruct (bool_decide (0 < dz)) eqn:Hz; [|done].
      apply bool_decide_eq_true in Hx, Hy, Hz. tauto.
  - intros (Hx & Hy & Hz). unfold CubeGridM.init. cbn [forallb].
    rewrite !bool_decide_true by done. cbn.
    eexists. split; [reflexivity|]. split; [done|].
    unfold get_occupied_positions. cbn [_grid]. f_equal. f_equal.
    apply Hnone. set_solver.
  - cbn. split; [done|]. split; [|done].
    unfold get_occupied_positions. cbn [_grid]. f_equal. f_equal.
    apply Hnone. set_solver.
Qed.

(** ** The generated maze *)

Lemma walk_connected m a b p :
  simple_path (is_open m) a b p → connected m a b.
Proof.
  intros ((Hopen & Hadj) & _ & Hhead & Hlast). apply rtc_list.
  exists p. do 2 (split; [done|]). intros i x y Hx Hy.
  rewrite Forall_forall in Hopen. split; [|split].
  - eapply Hopen, list_elem_of_lookup_2, Hx.
  - eapply Hopen, list_elem_of_lookup_2, Hy.
  - apply (Hadj i); [done|]. by replace (i + 1)%nat with (S i) by lia.
Qed.

Lemma connected_sym m a b : connected m a b → connected m b a.
Proof.
  induction 1 as [|x y z (Hx & Hy & Hxy) _ IH]; [apply rtc_refl|].
  eapply rtc_r; [exact IH|]. auto using adjacent_sym.
Qed.

(** From an open cell every cell connected to it is reached by a simple
    path: the search from it finds one. *)
Lemma connected_simple_path w h m a b :
  shape w h m → is_open m a → connected m a b →
  ∃ p, simple_path (is_open m) a b p.
Proof.
  intros Hs Ha Hab.
  set (fr := ([(a, [a])], {[a]}) : frontier).
  destruct (bfs_loop_searching w h m bfs_directions a b Hs
              (reflexivity _) Hab (S (remaining w h fr)) fr)
    as [(p & _ & Hp)|[_ Hle]]; [|by eauto|lia].
  subst fr. split; cbn [fst snd].
  - intros c p Hcp%list_elem_of_singleton. simplify_eq. split.
    + split; [by apply walk_singleton|]. split; [apply NoDup_singleton|done].
    + intros x ->%list_elem_of_singleton. by apply elem_of_singleton.
  - intros c ->%elem_of_singleton. split; [by eapply is_open_inside|].
    left. apply list_elem_of_here.
  - by apply elem_of_singleton.
Qed.

Section GeneratedMaze.
Context {G : Type} `{!RandomSource G}.

(** X6: the outer boundary of a generated maze has exactly two openings.
    A cell on the boundary is open exactly when it is the entry or the
    exit, and every cell with two even coordinates is a wall. *)
Theorem boundary_has_two_openings seed self (σ : world G) fuel :
  valid_dims (width self) (height self) →
  (Z.to_nat (width self * height self) < fuel)%nat →
  ∃ self' σ',
    generate fuel seed self σ = Ok ((), self', σ')
    ∧ let w := width self in
      let h := height self in
      (∀ c, inside w h c → ¬ interior w h c →
            (is_open (_maze self') c ↔ c = (1, 0) ∨ c = (w - 2, h - 1))
            ∧ (c ≠ (1, 0) → c ≠ (w - 2, h - 1) → is_wall (_maze self') c))
      ∧ (∀ c, inside w h c → pillar c → is_wall (_maze self') c).
Proof.
  intros Hdims Hfuel.
  destruct (generate_spec fuel seed self σ Hdims)
    as [(self' & σ' & path & Hrun & _ & _ & Hgen & _)|[_ Hle]]; [|lia].
  exists self', σ'. split; [done|]. cbn zeta.
  assert (∀ c, inside (width self) (height self) c →
               ¬ interior (width self) (height self) c →
               is_open (_maze self') c ↔ c = (1, 0)
                 ∨ c = (width self - 2, height self - 1)) as Hiff.
  { intros c Hin Hni. split.
    - intros Hc. destruct (gen_cells _ _ _ Hgen c Hc) as [->|[->|[Hi _]]];
        [by left|by right|done].
    - intros [-> | ->]; [apply (gen_entry _ _ _ Hgen)|apply (gen_exit _ _ _ Hgen)]. }
  split.
  - intros c Hin Hni. split; [by apply Hiff|].
    intros H1 H2. apply (not_open_wall (width self) (height self));
      [apply Hgen|done|]. rewrite Hiff by done. tauto.
  - intros c Hin Hp.
    apply (not_open_wall (width self) (height self)); [apply Hgen|done|].
    intros Hc. destruct (valid_dims_mod _ _ Hdims) as [Hw Hh].
    destruct (gen_cells _ _ _ Hgen c Hc) as [->|[->|[_ Hnp]]]; [| |done].
    + destruct Hp as [Hp _]. simpl in Hp. zlia.
    + destruct Hp as [Hp _]. unfold exit_cell in Hp. simpl in Hp. zlia.
Qed.

(** X7: a generated maze is perfect. Between any two open cells there is
    exactly one simple path through open cells. *)
Theorem generated_maze_is_perfect seed self (σ : world G) fuel :
  valid_dims (width self) (height self) →
  (Z.to_nat (width self * height self) < fuel)%nat →
  ∃ self' σ',
    generate fuel seed self σ = Ok ((), self', σ')
    ∧ ∀ a b, is_open (_maze self') a → is_open (_maze self') b →
        ∃ p, simple_path (is_open (_maze self')) a b p
             ∧ ∀ q, simple_path (is_open (_maze self')) a b q → q = p.
Proof.
  intros Hdims Hfuel.
  destruct (generate_spec fuel seed self σ Hdims)
    as [(self' & σ' & path & Hrun & _ & _ & Hgen & _)|[_ Hle]]; [|lia].
  exists self', σ'. split; [done|]. intros a b Ha Hb.
  destruct (connected_simple_path _ _ _ a b (gen_shape _ _ _ Hgen) Ha)
    as [p Hp].
  { etrans; [apply connected_sym|]; by apply (gen_connected _ _ _ Hgen). }
  exists p. split; [done|]. intros q Hq.
  by apply (gen_forest _ _ _ Hgen a b).
Qed.

End GeneratedMaze.

(** A walk is at least as long as its ends are apart. *)
Lemma walk_length (S : coord → Prop) p a b :
  walk S p → head p = Some a → last p = Some b →
  Z.abs (b.1 - a.1) + Z.abs (b.2 - a.2) + 1 ≤ Z.of_nat (length p).
Proof.
  revert a. induction p as [|x p IH]; intros a Hw Hh Hl; [done|].
  cbn in Hh. simplify_eq. destruct p as [|c p].
  { cbn in Hl. simplify_eq. cbn. lia. }
  assert (adjacent a c) as Hac by (by apply (proj2 Hw 0%nat)).
  specialize (IH c (walk_tail S a _ Hw) eq_refl Hl).
  unfold adjacent in Hac. cbn [length] in *. lia.
Qed.

Section SolutionPath.
Context {G : Type} `{!RandomSource G}.

(** X8: the solution path of a generated maze has at least
    [width + height - 3] cells, its second cell is [(1, 1)] and its last
    but one is [(width - 2, height - 2)]. *)
Theorem solution_path_length seed self (σ : world G) fuel :
  valid_dims (width self) (height self) →
  (Z.to_nat (width self * height self) < fuel)%nat →
  ∃ self' σ' p,
    generate fuel seed self σ = Ok ((), self', σ')
    ∧ returned_path self' σ' = Ok p
    ∧ width self + height self - 3 ≤ Z.of_nat (length p)
    ∧ p !! 1%nat = Some (1, 1)
    ∧ p !! (length p - 2)%nat = Some (width self - 2, height self - 2).
Proof.
  intros Hdims Hfuel.
  destruct (generate_spec fuel seed self σ Hdims)
    as [(self' & σ' & path & Hrun & _ & _ & Hgen & _ & Hheap & Hpath)|[_ Hle]];
    [|lia].
  exists self', σ', path. split; [done|].
  rewrite returned_path_spec, (generate_path_stored σ σ' self' path Hheap).
  split; [done|].
  destruct Hdims as (Hw & Hh & _).
  destruct Hpath as (Hwalk & Hnd & Hhead & Hlast).
  pose proof (walk_length _ _ _ _ Hwalk Hhead Hlast) as Hlen.
  unfold entry, exit_cell in Hlen. cbn [fst snd] in Hlen.
  split; [lia|].
  destruct Hwalk as [Hopen Hadj]. rewrite Forall_forall in Hopen.
  assert (∀ c, is_open (_maze self') c →
               c = entry ∨ c = exit_cell (width self) (height self)
               ∨ interior (width self) (height self) c) as Hcells.
  { intros c Hc. destruct (gen_cells _ _ _ Hgen c Hc) as [?|[?|[? _]]]; auto. }
  split.
  - destruct (lookup_lt_is_Some_2 path 1) as [[x y] Hc]; [lia|].
    rewrite Hc. f_equal.
    assert (adjacent entry (x, y)) as Hadj1.
    { apply (Hadj 0%nat); [by rewrite <- head_lookup|done]. }
    unfold adjacent, entry in Hadj1. cbn [fst snd] in Hadj1.
    assert (is_open (_maze self') (x, y)) as Hxy
      by (eapply Hopen, list_elem_of_lookup_2, Hc).
    destruct (Hcells (x, y) Hxy) as [Heq|[Heq|[Hi1 Hi2]]].
    + unfold entry in Heq; simplify_eq; lia.
    + unfold exit_cell in Heq; simplify_eq; lia.
    + cbn [fst snd] in *. f_equal; lia.
  - destruct (lookup_lt_is_Some_2 path (length path - 2)) as [[x y] Hc]; [lia|].
    rewrite Hc. f_equal.
    assert (adjacent (x, y) (exit_cell (width self) (height self))) as Hadj1.
    { apply (Hadj (length path - 2)%nat); [done|].
      rewrite last_lookup in Hlast.
      by replace (length path - 2 + 1)%nat with (Init.Nat.pred (length path))
        by lia. }
    unfold adjacent, exit_cell in Hadj1. cbn [fst snd] in Hadj1.
    assert (is_open (_maze self') (x, y)) as Hxy
      by (eapply Hopen, list_elem_of_lookup_2, Hc).
    destruct (Hcells (x, y) Hxy) as [Heq|[Heq|[Hi1 Hi2]]].
    + unfold entry in Heq; simplify_eq; lia.
    + unfold exit_cell in Heq; simplify_eq; lia.
    + cbn [fst snd] in *. f_equal; lia.
Qed.

(** What a call of [generate] that returns leaves alone: the dimensions
    and appearances of the instance, the printed output, and every list
    object that existed before the call. *)
Lemma generate_frame fuel seed self (σ : world G) self' σ' :
  generate fuel seed self σ = Ok ((), self', σ') →
  width self' = width self ∧ height self' = height self
  ∧ wall_appearance self' = wall_appearance self
  ∧ path_appearance self' = path_appearance self
  ∧ solution_appearance self' = solution_appearance self
  ∧ stdout σ' = stdout σ
  ∧ heap σ !! _solution_path self' = None
  ∧ ∀ l, l ≠ _solution_path self' → heap σ' !! l = heap σ !! l.
Proof.
  unfold generate.
  destruct (_carve_path _ _ _ _ _ _) as [st| |]; [|done..].
  rewrite bind_Ok.
  destruct (maze_set st.1 1 0 false) as [m2| |]; [|done..].
  rewrite bind_Ok.
  destruct (maze_set m2 _ _ false) as [m3| |]; [|done..].
  rewrite bind_Ok.
  destruct (_find_solution _ _ _ _) as [path| |]; [|done..].
  rewrite bind_Ok. unfold alloc. cbn [heap rng stdout].
  intros [= <- <-]. cbn. do 6 (split; [done|]).
  split; [apply not_elem_of_dom, is_fresh|].
  intros l Hl. by rewrite lookup_insert_ne.
Qed.

(** X9: a path handed out survives a regeneration. After [generate],
    [get_solution_path] and a second [generate] (with any seed), the list
    handed out in between still holds the first solution path; the second
    [generate] stores its path in a new list object and keeps the
    dimensions of the instance. *)
Theorem handed_out_path_survives_regeneration seed1 seed2 self (σ : world G)
    fuel :
  valid_dims (width self) (height self) →
  (Z.to_nat (width self * height self) < fuel)%nat →
  ∃ self1 σ1 l σ2 self3 σ3,
    generate fuel seed1 self σ = Ok ((), self1, σ1)
    ∧ get_solution_path self1 σ1 = Ok (l, self1, σ2)
    ∧ generate fuel seed2 self1 σ2 = Ok ((), self3, σ3)
    ∧ deref σ3 l = deref σ1 (_solution_path self1)
    ∧ deref σ3 (_solution_path self1) = deref σ1 (_solution_path self1)
    ∧ _solution_path self3 ≠ l
    ∧ _solution_path self3 ≠ _solution_path self1
    ∧ width self3 = width self ∧ height self3 = height self.
Proof.
  intros Hdims Hfuel.
  destruct (generate_spec fuel seed1 self σ Hdims)
    as [(self1 & σ1 & path & Hrun1 & Hw1 & Hh1 & _ & _ & Hheap1 & _)|[_ Hle]];
    [|lia].
  destruct (get_solution_path_spec self1 σ1)
    as (l & σ2 & Hget & Hfresh & Hheap2 & _ & _ & Hd).
  assert (valid_dims (width self1) (height self1)) as Hdims1
    by (by rewrite Hw1, Hh1).
  destruct (generate_spec fuel seed2 self1 σ2 Hdims1)
    as [(self3 & σ3 & path3 & Hrun3 & Hw3 & Hh3 & _ & Hfresh3 & Hheap3 & _)|[_ Hle]];
    [|rewrite Hw1, Hh1 in Hle; lia].
  exists self1, σ1, l, σ2, self3, σ3. do 3 (split; [done|]).
  assert (l ≠ _solution_path self1) as Hne1.
  { intros ->. by rewrite Hheap1, lookup_insert_eq in Hfresh. }
  assert (_solution_path self3 ≠ l) as Hne3.
  { intros Heq. by rewrite Heq, Hheap2, lookup_insert_eq in Hfresh3. }
  assert (_solution_path self3 ≠ _solution_path self1) as Hne31.
  { intros Heq.
    rewrite Heq, Hheap2, lookup_insert_ne, Hheap1, lookup_insert_eq in Hfresh3;
      done. }
  split; [|split; [|split; [done|split; [done|split; congruence]]]].
  - rewrite <- Hd. unfold deref. by rewrite Hheap3, lookup_insert_ne.
  - unfold deref. by rewrite Hheap3, lookup_insert_ne, Hheap2, lookup_insert_ne.
Qed.

End SolutionPath.

(** ** The solver on an arbitrary wall field *)

Section SolverLevels.
Variables (w h : Z) (m : grid) (dirs : list coord) (s t : coord).
Hypothesis Hshape : shape w h m.
Hypothesis Hdirs : dirs ≡ₚ bfs_directions.

Lemma bfs_expand_levelled c path L :
  length path = L →
  ∀ ds, (∀ d, d ∈ ds → d ∈ bfs_directions) →
  ∀ fr lev, levelled m s (Some c) L lev fr →
    ∃ fr' lev',
      bfs_expand m w h c.1 c.2 path ds fr = Ok fr'
      ∧ levelled m s (Some c) L lev' fr'
      ∧ (∀ x, x ∈ fr.2 → x ∈ fr'.2 ∧ lev' x = lev x)
      ∧ ∀ d, d ∈ ds → is_open m (move c d) → move c d ∈ fr'.2.
Proof.
  intros Hlen. destruct c as [x y].
  induction ds as [|[dx dy] ds IH]; intros Hds [queue visited] lev Hinv.
  { exists (queue, visited), lev. do 3 (split; [done|]).
    intros d Hd. by apply elem_of_nil in Hd. }
  assert (∀ d, d ∈ ds → d ∈ bfs_directions) as Hds'.
  { intros d Hd. apply Hds. by apply list_elem_of_further. }
  assert ((dx, dy) ∈ bfs_directions) as Hdir by apply Hds, list_elem_of_here.
  cbn [bfs_expand fst snd].
  assert (∀ fr1 lev1, levelled m s (Some (x, y)) L lev1 fr1 →
            (∀ a, a ∈ visited → a ∈ fr1.2 ∧ lev1 a = lev a) →
            (is_open m (x + dx, y + dy) → (x + dx, y + dy) ∈ fr1.2) →
            ∃ fr' lev',
              bfs_expand m w h x y path ds fr1 = Ok fr'
              ∧ levelled m s (Some (x, y)) L lev' fr'
              ∧ (∀ a, a ∈ visited → a ∈ fr'.2 ∧ lev' a = lev a)
              ∧ ∀ d, d ∈ (dx, dy) :: ds →
                     is_open m (move (x, y) d) → move (x, y) d ∈ fr'.2)
    as Hrest.
  { intros fr1 lev1 Hinv1 Hkeep Hhere.
    destruct (IH Hds' fr1 lev1 Hinv1) as (fr' & lev' & Hrun & Hinv' & Hkeep' & Hall).
    exists fr', lev'. split; [done|]. split; [done|]. split.
    - intros a Ha. destruct (Hkeep a Ha) as [Ha1 Hl1].
      destruct (Hkeep' a Ha1) as [Ha2 Hl2]. split; [done|congruence].
    - intros d [->|Hd]%elem_of_cons Ho; [|by apply Hall].
      by apply Hkeep', Hhere. }
  destruct (in_bounds w h (x + dx) (y + dy)) eqn:Hin.
  2:{ apply (Hrest _ lev); try done; intros Ho.
      apply (is_open_inside w h), in_bounds_inside in Ho; [congruence|done]. }
  apply in_bounds_inside in Hin.
  destruct (maze_get_inside w h m _ _ Hshape Hin) as (b & Hb & ->).
  rewrite bind_Ok. destruct b; simpl negb; cbn [andb].
  { apply (Hrest _ lev); try done; intros Ho; unfold is_open in Ho; congruence. }
  case_bool_decide as Hnew; cbn [fst snd] in Hnew.
  2:{ apply (Hrest _ lev); try done; intros _; by apply dec_stable. }
  set (n := (x + dx, y + dy)) in *.
  assert (adjacent (x, y) n) as Hadj.
  { apply adjacent_move. by exists (dx, dy). }
  destruct Hinv as [(A & B & Hq & HA & HB) Hvis Hbound Hdone Hstart Hcur].
  cbn [fst snd] in *.
  assert (∀ a, a ∈ visited → a ≠ n) as Hold by (intros a Ha ->; done).
  apply (Hrest _ (λ a, if decide (a = n) then S L else lev a)); cbn [fst snd].
  - split; cbn [fst snd].
    + exists A, (B ++ [(n, path ++ [n])]). split; [by rewrite Hq, (assoc_L (++))|].
      split.
      * rewrite Forall_forall in HA |- *. intros [a p] Hap. cbn [fst snd].
        rewrite decide_False; [by apply (HA (a, p))|].
        apply Hold, (Hvis a p). rewrite Hq. apply elem_of_app. by left.
      * apply Forall_app. split.
        -- rewrite Forall_forall in HB |- *. intros [a p] Hap. cbn [fst snd].
           rewrite decide_False; [by apply (HB (a, p))|].
           apply Hold, (Hvis a p). rewrite Hq. apply elem_of_app. by right.
        -- apply Forall_singleton. cbn [fst snd]. rewrite decide_True by done.
           rewrite length_app. simpl. split; [done|lia].
    + intros a p [Hap|Hap]%elem_of_app.
      * apply elem_of_union. right. by apply (Hvis a p).
      * apply list_elem_of_singleton in Hap. simplify_eq. set_solver.
    + intros a Ha. case_decide; [lia|]. apply Hbound. set_solver.
    + intros a [->%elem_of_singleton|Ha]%elem_of_union.
      * left. rewrite fmap_app. set_solver.
      * destruct (Hdone a Ha) as [Hq'|[Hc'|Hexp]].
        -- left. rewrite fmap_app. set_solver.
        -- by right; left.
        -- right; right. intros nb Ho Hanb.
           destruct (Hexp nb Ho Hanb) as [Hnb Hle].
           split; [set_solver|].
           rewrite !decide_False by (by apply Hold). done.
    + destruct Hstart as [Hs Hl]. split; [set_solver|].
      rewrite decide_False by (by apply Hold). done.
    + intros a [= <-]. rewrite decide_False; [by apply Hcur|].
      by apply adjacent_ne.
  - intros a Ha. split; [set_solver|]. by rewrite decide_False by (by apply Hold).
  - set_solver.
Qed.

(** Popping the head of the queue. *)
Lemma levelled_pop (L : nat) (lev : coord → nat) (c : coord) (p : list coord)
    (queue : list (coord * list coord)) (visited : gset coord) :
  levelled m s None L lev ((c, p) :: queue, visited) →
  ∃ L', length p = L' ∧ lev c = L'
        ∧ levelled m s (Some c) L' lev (queue, visited)
        ∧ ∀ c' p', (c', p') ∈ queue → (L' ≤ lev c')%nat.
Proof.
  intros [(A & B & Hq & HA & HB) Hvis Hbound Hdone Hstart Hcur].
  cbn [fst snd] in *.
  assert (∀ L' A' B',
            queue = A' ++ B' →
            Forall (λ cp, lev cp.1 = L' ∧ length cp.2 = L') A' →
            Forall (λ cp, lev cp.1 = S L' ∧ length cp.2 = S L') B' →
            length p = L' → lev c = L' → (L ≤ L')%nat →
            (∀ a, a ∈ visited → (lev a ≤ S L)%nat) →
            levelled m s (Some c) L' lev (queue, visited)
            ∧ ∀ c' p', (c', p') ∈ queue → (L' ≤ lev c')%nat) as Hmk.
  { intros L' A' B' -> HA' HB' Hp Hc HL Hb. split.
    - split; cbn [fst snd].
      + by exists A', B'.
      + intros a q Haq. apply (Hvis a q). by apply list_elem_of_further.
      + intros a Ha. specialize (Hb a Ha). lia.
      + intros a Ha. destruct (Hdone a Ha) as [Hq'|[?|?]]; [|done|by auto].
        rewrite fmap_cons in Hq'. apply elem_of_cons in Hq' as [->|Hq'];
          [by right; left|by left].
      + done.
      + by intros a [= <-].
    - intros c' p' [Hin|Hin]%elem_of_app.
      + rewrite Forall_forall in HA'. destruct (HA' _ Hin) as [Hl _].
        cbn in Hl. lia.
      + rewrite Forall_forall in HB'. destruct (HB' _ Hin) as [Hl _].
        cbn in Hl. lia. }
  destruct A as [|[c0 p0] A].
  - destruct B as [|[c0 p0] B]; [done|]. cbn in Hq.
    assert (c0 = c ∧ p0 = p ∧ B = queue) as (-> & -> & ->) by (by simplify_eq).
    apply Forall_cons in HB as [[Hc Hp] HB]. cbn [fst snd] in *.
    exists (S L). do 2 (split; [done|]).
    apply (Hmk (S L) queue []); try done; [by rewrite app_nil_r|lia].
  - cbn in Hq.
    assert (c0 = c ∧ p0 = p ∧ queue = A ++ B) as (-> & -> & ->)
      by (by simplify_eq).
    apply Forall_cons in HA as [[Hc Hp] HA]. cbn [fst snd] in *.
    exists L. do 2 (split; [done|]).
    by apply (Hmk L A B).
Qed.

(** No walk from [s] to the cell at the head of the queue is shorter than
    the path queued with it. *)
Lemma levelled_minimal_at (c : coord) (L : nat) (lev : coord → nat)
    (p : list coord) (queue : list (coord * list coord))
    (visited : gset coord) (q : list coord) :
  levelled m s None L lev ((c, p) :: queue, visited) →
  walk (is_open m) q → head q = Some s → last q = Some c →
  (length p ≤ length q)%nat.
Proof.
  intros Hinv [Hopen Hadj] Hhead Hlast.
  destruct (levelled_pop _ _ _ _ _ _ Hinv) as (L' & Hp & Ht & _ & Hqueue).
  destruct Hinv as [_ Hvis Hbound Hdone [Hs Hs1] _]. cbn [fst snd] in *.
  destruct (decide (length p ≤ length q)%nat) as [|Hlt]; [done|exfalso].
  assert (∀ i a, q !! i = Some a → a ∈ visited ∧ (lev a ≤ S i)%nat) as Hlev.
  { induction i as [|i IH]; intros a Ha.
    - rewrite <- head_lookup, Hhead in Ha. simplify_eq. split; [done|lia].
    - destruct (lookup_lt_is_Some_2 q i) as [a' Ha'].
      { apply lookup_lt_Some in Ha. lia. }
      destruct (IH a' Ha') as [Hin Hle].
      assert (S i < length q)%nat as Hi by (by eapply lookup_lt_Some).
      destruct (Hdone a' Hin) as [Hq|[?|Hexp]]; [|done|].
      + exfalso. rewrite fmap_cons in Hq. apply elem_of_cons in Hq as [->|Hq].
        * cbn [fst] in *. lia.
        * apply list_elem_of_fmap in Hq as ([c' p'] & -> & Hcp).
          specialize (Hqueue c' p' Hcp). cbn [fst] in *. lia.
      + destruct (Hexp a) as [Hain Hale].
        * rewrite Forall_forall in Hopen.
          eapply Hopen, list_elem_of_lookup_2, Ha.
        * apply (Hadj i); [done|]. by replace (i + 1)%nat with (S i) by lia.
        * split; [done|lia]. }
  rewrite last_lookup in Hlast. destruct (Hlev _ _ Hlast) as [_ Hle].
  destruct q as [|? q]; [done|]. cbn in *. lia.
Qed.

(** The three outcomes of the search loop: a shortest simple path, the
    failure when the goal cannot be reached, or out of fuel. *)
Lemma bfs_loop_outcome fuel :
  ∀ fr L lev, searching w h m s t None fr → levelled m s None L lev fr →
    (∃ p, bfs_loop fuel dirs m w h t fr = Ok p
          ∧ simple_path (is_open m) s t p
          ∧ ∀ q, walk (is_open m) q → head q = Some s → last q = Some t →
                 (length p ≤ length q)%nat)
    ∨ (bfs_loop fuel dirs m w h t fr = Raise (RuntimeError no_solution_msg)
       ∧ ¬ connected m s t)
    ∨ (bfs_loop fuel dirs m w h t fr = OutOfFuel
       ∧ (fuel ≤ remaining w h fr)%nat).
Proof.
  induction fuel as [|fuel IH]; intros [queue visited] L lev Hinv Hlv.
  { right; right. split; [done|lia]. }
  cbn [bfs_loop fst snd].
  destruct queue as [|[[x y] path] queue].
  { right; left. split; [done|]. intros Hreach.
    destruct Hinv as [_ Hvisited Hstart]. cbn [fst snd] in *.
    assert (t ∈ visited) as Ht.
    { apply (expanded_closed m visited s t); [done..|]. intros c Hc.
      destruct (Hvisited c Hc) as [_ [Hq|[?|[_ ?]]]]; [|done..].
      by apply elem_of_nil in Hq. }
    destruct (Hvisited t Ht) as [_ [Hq|[?|[? _]]]]; [|done..].
    by apply elem_of_nil in Hq. }
  destruct (searching_paths _ _ _ _ _ _ _ Hinv (x, y) path) as [Hpath Hsub];
    [apply list_elem_of_here|].
  cbn [fst snd] in Hsub.
  case_bool_decide as Hgoal.
  { left. exists path. split; [done|]. rewrite <- Hgoal. split; [done|].
    intros q Hq Hh Hl.
    eapply (levelled_minimal_at (x, y)); eauto. }
  destruct (levelled_pop _ _ _ _ _ _ Hlv) as (L' & Hlen & Hlevc & Hlv' & _).
  destruct (bfs_expand_searching w h m dirs s t Hshape Hdirs (x, y) path
              Hpath dirs)
    with (fr := (queue, visited))
    as (fr' & Hrun & Hinv' & Hvis' & Hrem' & Hall).
  { intros d Hd. by rewrite <- Hdirs. }
  { destruct Hinv as [Hpaths Hvisited Hstart]. cbn [fst snd] in *. split; cbn [fst snd].
    - intros c p Hc. apply Hpaths. by apply list_elem_of_further.
    - intros c Hc. destruct (Hvisited c Hc) as [Hcin [Hq|[?|?]]]; [|done|by auto].
      split; [done|]. rewrite fmap_cons in Hq.
      apply elem_of_cons in Hq as [->|Hq]; [by right; left|by left].
    - done. }
  { done. }
  destruct (bfs_expand_levelled (x, y) path L' Hlen dirs)
    with (fr := (queue, visited)) (lev := lev)
    as (fr2 & lev' & Hrun2 & Hlv2 & Hkeep & _).
  { intros d Hd. by rewrite <- Hdirs. }
  { done. }
  cbn [fst snd] in Hrun, Hrun2.
  assert (fr2 = fr') as -> by congruence.
  rewrite Hrun, bind_Ok.
  assert (∀ n, is_open m n → adjacent (x, y) n → n ∈ fr'.2) as Hexp.
  { intros n Hn Hadj. apply adjacent_move in Hadj as (d & Hd & ->).
    apply Hall; [by rewrite Hdirs|done]. }
  destruct (IH fr' L' lev') as [Hok|[Hfail|[Hout Hle]]].
  { destruct Hinv' as [Hpaths Hvisited Hstart]. split; [done| |done].
    intros c Hc. destruct (Hvisited c Hc) as [Hcin [Hq|[Hcur|?]]]; [by auto| |by auto].
    split; [done|]. right; right. simplify_eq. split; [done|].
    intros n Hn Hadj. by apply Hexp. }
  { destruct Hlv2 as [Hq2 Hvis2 Hbound2 Hdone2 Hstart2 Hcur2].
    split; try done.
    intros c Hc. destruct (Hdone2 c Hc) as [?|[[= <-]|?]]; [by auto| |by auto].
    right; right. intros n Hn Hadj. split; [by apply Hexp|].
    rewrite (Hcur2 (x, y) eq_refl). apply Hbound2. by apply Hexp. }
  - by left.
  - by right; left.
  - right; right. split; [done|]. unfold remaining in *.
    cbn [fst snd length] in *. lia.
Qed.

End SolverLevels.

(** [_find_solution] on a wall field of the right shape whose entry is
    open, with fuel above [width * height]: it returns a shortest simple
    path, or raises the failure, and that only when no path exists. *)
Lemma find_solution_outcome w h m fuel :
  shape w h m → is_open m entry → (Z.to_nat (w * h) < fuel)%nat →
  (∃ p, _find_solution fuel m w h = Ok p
        ∧ simple_path (is_open m) entry (exit_cell w h) p
        ∧ ∀ q, walk (is_open m) q → head q = Some entry →
               last q = Some (exit_cell w h) → (length p ≤ length q)%nat)
  ∨ (_find_solution fuel m w h = Raise (RuntimeError no_solution_msg)
     ∧ ¬ connected m entry (exit_cell w h)).
Proof.
  intros Hs Hentry Hfuel. unfold _find_solution, find_solution_with.
  pose proof (is_open_inside _ _ _ _ Hs Hentry) as Hin.
  destruct (bfs_loop_outcome w h m bfs_directions entry (exit_cell w h) Hs
              (reflexivity _) fuel ([(entry, [entry])], {[entry]}) 1
              (λ _, 1%nat)) as [Hok|[Hfail|[_ Hle]]].
  - split; cbn [fst snd].
    + intros c p Hcp%list_elem_of_singleton. simplify_eq. split.
      * split; [by apply walk_singleton|]. split; [apply NoDup_singleton|done].
      * intros a ->%list_elem_of_singleton. by apply elem_of_singleton.
    + intros c ->%elem_of_singleton. split; [done|]. left.
      apply list_elem_of_here.
    + by apply elem_of_singleton.
  - split; cbn [fst snd].
    + exists [(entry, [entry])], []. split; [done|].
      split; [by apply Forall_singleton|apply Forall_nil_2].
    + intros c p Hcp%list_elem_of_singleton. simplify_eq.
      by apply elem_of_singleton.
    + intros c _. lia.
    + intros c ->%elem_of_singleton. left. apply list_elem_of_here.
    + split; [by apply elem_of_singleton|done].
    + done.
  - by left.
  - by right.
  - exfalso. unfold remaining in Hle. cbn [fst snd length] in Hle.
    assert (({[entry]} : gset coord) ⊆ cells w h) as Hsub.
    { intros c ->%elem_of_singleton. by apply elem_of_cells. }
    rewrite (size_difference _ _ Hsub), size_singleton in Hle.
    apply subseteq_size in Hsub. rewrite size_singleton in Hsub.
    pose proof (size_cells w h). lia.
Qed.

(** X10: [_find_solution] reports a failure exactly when there is no path.
    On a wall field of the right shape whose entry is open it returns a
    path exactly when the exit can be reached from the entry through open
    cells, and raises the [RuntimeError] exactly when it cannot. *)
Theorem find_solution_fails_iff_unreachable w h m fuel :
  shape w h m → is_open m entry → (Z.to_nat (w * h) < fuel)%nat →
  ((∃ p, _find_solution fuel m w h = Ok p)
   ↔ connected m entry (exit_cell w h))
  ∧ (_find_solution fuel m w h = Raise (RuntimeError no_solution_msg)
     ↔ ¬ connected m entry (exit_cell w h)).
Proof.
  intros Hs Hentry Hfuel.
  destruct (find_solution_outcome w h m fuel Hs Hentry Hfuel)
    as [(p & Hrun & Hp & _)|[Hrun Hno]].
  - pose proof (walk_connected _ _ _ _ Hp) as Hc. split.
    + split; [done|eauto].
    + split; [by rewrite Hrun|done].
  - split.
    + split; [intros [p Hp]; by rewrite Hrun in Hp|done].
    + done.
Qed.

(** X11: the path [_find_solution] returns is a shortest one. On a wall
    field of the right shape whose entry is open, whatever it returns is a
    simple path of open cells from the entry to the exit, and no walk
    through open cells from the entry to the exit has fewer cells. *)
Theorem find_solution_is_shortest w h m fuel p :
  shape w h m → is_open m entry → (Z.to_nat (w * h) < fuel)%nat →
  _find_solution fuel m w h = Ok p →
  simple_path (is_open m) entry (exit_cell w h) p
  ∧ ∀ q, walk (is_open m) q → head q = Some entry →
         last q = Some (exit_cell w h) → (length p ≤ length q)%nat.
Proof.
  intros Hs Hentry Hfuel Hrun.
  destruct (find_solution_outcome w h m fuel Hs Hentry Hfuel)
    as [(p' & Hrun' & Hp & Hmin)|[Hrun' _]]; [|congruence].
  assert (p' = p) as -> by congruence. done.
Qed.

(** ** The cube grid of a maze *)

Lemma set_cube_some g p a :
  CubeGridM._is_valid_position g p = true →
  CubeGridM.returned (CubeGridM.set_cube p true (Some a) g)
  = Ok {| dimensions := dimensions g; _grid := {[p]} ∪ _grid g;
          _appearances := <[p:=a]> (_appearances g);
          _default_appearance := _default_appearance g |}.
Proof. intros Hp. unfold CubeGridM.set_cube. by rewrite Hp. Qed.

(** One pass of the inner loop of [to_cube_grid] over the columns [xs] of
    row [y]: positions of other cells keep what they had, and a position
    that had no cube gets the cube of its cell. *)
Lemma cube_row_content self solution_set y w h :
  shape w h (_maze self) → 0 ≤ y < h →
  ∀ xs, NoDup xs → (∀ x, x ∈ xs → 0 ≤ x < w) →
  ∀ g, dimensions g = (w, 1, h) →
       (∀ p, p ∈ _grid g ↔ is_Some (_appearances g !! p)) →
       ∃ g', cube_row self solution_set y xs g = Ok g'
             ∧ dimensions g' = (w, 1, h)
             ∧ _default_appearance g' = _default_appearance g
             ∧ (∀ p, p ∈ _grid g' ↔ is_Some (_appearances g' !! p))
             ∧ (∀ p, (∀ x, x ∈ xs → p ≠ (x, 0, y)) →
                     _appearances g' !! p = _appearances g !! p)
             ∧ (∀ x, x ∈ xs → _appearances g !! (x, 0, y) = None →
                     _appearances g' !! (x, 0, y)
                     = cube_of_cell self solution_set (x, y)).
Proof.
  intros Hs Hy. induction xs as [|x xs IH]; intros Hnd Hxs g Hdim Hwf.
  { exists g. do 4 (split; [done|]). split; [done|].
    by intros x Hx%elem_of_nil. }
  apply NoDup_cons in Hnd as [Hx_fresh Hnd].
  assert (0 ≤ x < w) as Hx by apply Hxs, list_elem_of_here.
  assert (∀ x', x' ∈ xs → 0 ≤ x' < w) as Hxs'.
  { intros x' Hx'. by apply Hxs, list_elem_of_further. }
  cbn [cube_row].
  destruct (maze_get_inside w h (_maze self) x y Hs) as (b & Hb & ->); [done|].
  rewrite bind_Ok.
  assert (CubeGridM._is_valid_position g (x, 0, y) = true) as Hvalid.
  { apply valid_position_spec. rewrite Hdim. cbn. lia. }
  set (step := if b then _ else _).
  assert (∃ g1, step = Ok g1
                ∧ dimensions g1 = (w, 1, h)
                ∧ _default_appearance g1 = _default_appearance g
                ∧ (∀ p, p ∈ _grid g1 ↔ is_Some (_appearances g1 !! p))
                ∧ (∀ p, p ≠ (x, 0, y) →
                        _appearances g1 !! p = _appearances g !! p)
                ∧ (_appearances g !! (x, 0, y) = None →
                   _appearances g1 !! (x, 0, y)
                   = cube_of_cell self solution_set (x, y)))
    as (g1 & -> & Hdim1 & Hdef1 & Hwf1 & Hother1 & Hhere1).
  { assert (∀ a, ∃ g1,
              CubeGridM.returned
                (CubeGridM.set_cube (x, 0, y) true (Some a) g) = Ok g1
              ∧ dimensions g1 = (w, 1, h)
              ∧ _default_appearance g1 = _default_appearance g
              ∧ (∀ p, p ∈ _grid g1 ↔ is_Some (_appearances g1 !! p))
              ∧ (∀ p, p ≠ (x, 0, y) →
                      _appearances g1 !! p = _appearances g !! p)
              ∧ _appearances g1 !! (x, 0, y) = Some a) as Hset.
    { intros a. rewrite (set_cube_some _ _ _ Hvalid). eexists.
      split; [done|]. cbn. do 2 (split; [done|]). split; [|split].
      - intros p. rewrite elem_of_union, elem_of_singleton, Hwf.
        destruct (decide (p = (x, 0, y))) as [-> | Hp].
        + rewrite lookup_insert_eq. split; [eauto|by left].
        + rewrite lookup_insert_ne by done. split; [by intros [?|?]|by right].
      - intros p Hp. by rewrite lookup_insert_ne.
      - by rewrite lookup_insert_eq. }
    subst step. unfold cube_of_cell. rewrite Hb. destruct b.
    { destruct (Hset (wall_appearance self))
        as (g1 & -> & ? & ? & ? & ? & ?). exists g1. do 5 (split; [done|]). done. }
    case_bool_decide.
    { destruct (Hset (solution_appearance self))
        as (g1 & -> & ? & ? & ? & ? & ?). exists g1. do 5 (split; [done|]). done. }
    destruct (path_appearance self) as [a|].
    { destruct (Hset a) as (g1 & -> & ? & ? & ? & ? & ?).
      exists g1. do 5 (split; [done|]). done. }
    exists g. do 5 (split; [done|]). done. }
  rewrite bind_Ok.
  destruct (IH Hnd Hxs' g1 Hdim1 Hwf1)
    as (g' & Hrun & Hdim' & Hdef' & Hwf' & Hother' & Hhere').
  exists g'. split; [done|]. split; [done|]. split; [congruence|].
  split; [done|]. split.
  - intros p Hp. rewrite Hother', Hother1; [done|..].
    + apply Hp, list_elem_of_here.
    + intros x' Hx'. by apply Hp, list_elem_of_further.
  - intros x' [-> | Hx']%elem_of_cons Hnone.
    + rewrite Hother'; [by apply Hhere1|]. intros x' Hx' [= ->]. done.
    + apply Hhere'; [done|]. rewrite Hother1; [done|]. intros [= ->]. done.
Qed.

(** The outer loop of [to_cube_grid] over the rows [ys]. *)
Lemma cube_rows_content self solution_set w h :
  width self = w → shape w h (_maze self) →
  ∀ ys, NoDup ys → (∀ y, y ∈ ys → 0 ≤ y < h) →
  ∀ g, dimensions g = (w, 1, h) →
       (∀ p, p ∈ _grid g ↔ is_Some (_appearances g !! p)) →
       ∃ g', cube_rows self solution_set ys g = Ok g'
             ∧ dimensions g' = (w, 1, h)
             ∧ _default_appearance g' = _default_appearance g
             ∧ (∀ p, p ∈ _grid g' ↔ is_Some (_appearances g' !! p))
             ∧ (∀ p, (∀ x y, 0 ≤ x < w → y ∈ ys → p ≠ (x, 0, y)) →
                     _appearances g' !! p = _appearances g !! p)
             ∧ (∀ x y, 0 ≤ x < w → y ∈ ys →
                       _appearances g !! (x, 0, y) = None →
                       _appearances g' !! (x, 0, y)
                       = cube_of_cell self solution_set (x, y)).
Proof.
  intros Hw Hs. induction ys as [|y ys IH]; intros Hnd Hys g Hdim Hwf.
  { exists g. do 4 (split; [done|]). split; [done|].
    by intros x y _ Hy%elem_of_nil. }
  apply NoDup_cons in Hnd as [Hy_fresh Hnd].
  assert (0 ≤ y < h) as Hy by apply Hys, list_elem_of_here.
  assert (∀ y', y' ∈ ys → 0 ≤ y' < h) as Hys'.
  { intros y' Hy'. by apply Hys, list_elem_of_further. }
  cbn [cube_rows]. rewrite Hw.
  destruct (cube_row_content self solution_set y w h Hs Hy (seqZ 0 w))
    with (g := g) as (g1 & -> & Hdim1 & Hdef1 & Hwf1 & Hother1 & Hhere1).
  { apply NoDup_seqZ. }
  { intros x Hx%elem_of_seqZ. lia. }
  { done. }
  { done. }
  rewrite bind_Ok.
  destruct (IH Hnd Hys' g1 Hdim1 Hwf1)
    as (g' & Hrun & Hdim' & Hdef' & Hwf' & Hother' & Hhere').
  exists g'. split; [done|]. split; [done|]. split; [congruence|].
  split; [done|]. split.
  - intros p Hp. rewrite Hother', Hother1; [done|..].
    + intros x Hx%elem_of_seqZ. apply Hp; [lia|apply list_elem_of_here].
    + intros x y' Hx Hy'. by apply Hp, list_elem_of_further.
  - intros x y' Hx [-> | Hy']%elem_of_cons Hnone.
    + rewrite Hother'.
      * apply Hhere1; [|done]. apply elem_of_seqZ. lia.
      * intros x' y' _ Hy' [= -> ->]. done.
    + apply Hhere'; [done..|]. rewrite Hother1; [done|].
      intros x' _ [= -> ->]. done.
Qed.

Section CubeGridOfMaze.
Context {G : Type} `{!RandomSource G}.

(** [to_cube_grid] on an instance whose wall field has the shape of its
    dimensions: the grid returned, with the cube it holds at every cell. *)
Lemma to_cube_grid_cubes include_solution self (σ : world G) :
  0 < width self → 0 < height self →
  shape (width self) (height self) (_maze self) →
  ∃ g, to_cube_grid include_solution self σ = Ok (g, self, σ)
       ∧ dimensions g = (width self, 1, height self)
       ∧ (∀ p, p ∈ _grid g ↔ is_Some (_appearances g !! p))
       ∧ (∀ p, (∀ x y, 0 ≤ x < width self → 0 ≤ y < height self →
                       p ≠ (x, 0, y)) → _appearances g !! p = None)
       ∧ ∀ x y, 0 ≤ x < width self → 0 ≤ y < height self →
           _appearances g !! (x, 0, y)
           = cube_of_cell self
               (if include_solution
                then list_to_set (deref σ (_solution_path self)) else ∅)
               (x, y).
Proof.
  intros Hw Hh Hs. unfold to_cube_grid, CubeGridM.init. cbn [forallb].
  rewrite !bool_decide_true by lia. cbn [andb negb].
  change (CubeAppearance_init (0.5, 0.5, 0.5)%Q 1%Q None)
    with (Ok {| color := (0.5, 0.5, 0.5)%Q; alpha := 1%Q; material := "default" |}).
  rewrite !bind_Ok.
  destruct (cube_rows_content self
              (if include_solution
               then list_to_set (deref σ (_solution_path self)) else ∅)
              (width self) (height self) eq_refl Hs (seqZ 0 (height self)))
    with (g := {| dimensions := (width self, 1, height self); _grid := ∅;
                  _appearances := ∅;
                  _default_appearance :=
                    {| color := (0.5, 0.5, 0.5)%Q; alpha := 1%Q;
                       material := "default" |} |})
    as (g & -> & Hdim & _ & Hwf & Hother & Hhere).
  { apply NoDup_seqZ. }
  { intros y Hy%elem_of_seqZ. lia. }
  { done. }
  { intros p. cbn. rewrite lookup_empty. split; [set_solver|by intros [? ?]]. }
  rewrite bind_Ok. exists g. do 3 (split; [done|]). split.
  - intros p Hp. rewrite Hother; [done|].
    intros x y Hx Hy%elem_of_seqZ. apply Hp; lia.
  - intros x y Hx Hy. apply Hhere; [done| |done]. apply elem_of_seqZ. lia.
Qed.

(** X12: what [to_cube_grid] builds. On an instance whose wall field has
    the shape of its dimensions it returns a [width] by 1 by [height] grid
    and changes neither the instance nor the world. In that grid every
    wall cell [(x, y)] is a cube at [(x, 0, y)] with the wall appearance;
    an open cell on the solution path, when the solution is asked for, is
    a cube with the solution appearance; any other open cell is a cube
    with the path appearance when there is one, and no cube otherwise. *)
Theorem to_cube_grid_content include_solution self (σ : world G) :
  0 < width self → 0 < height self →
  shape (width self) (height self) (_maze self) →
  ∃ g, to_cube_grid include_solution self σ = Ok (g, self, σ)
       ∧ dimensions g = (width self, 1, height self)
       ∧ ∀ x y, 0 ≤ x < width self → 0 ≤ y < height self →
           let on_path :=
             include_solution = true
             ∧ (x, y) ∈ deref σ (_solution_path self) in
           let cube a :=
             CubeGridM.get_cube (x, 0, y) g = (g, Ok true)
             ∧ CubeGridM.get_appearance (x, 0, y) g = (g, Ok a) in
           (is_wall (_maze self) (x, y) → cube (wall_appearance self))
           ∧ (is_open (_maze self) (x, y) → on_path →
              cube (solution_appearance self))
           ∧ (is_open (_maze self) (x, y) → ¬ on_path →
              ∀ a, path_appearance self = Some a → cube a)
           ∧ (is_open (_maze self) (x, y) → ¬ on_path →
              path_appearance self = None →
              CubeGridM.get_cube (x, 0, y) g = (g, Ok false)).
Proof.
  intros Hw Hh Hs.
  destruct (to_cube_grid_cubes include_solution self σ Hw Hh Hs)
    as (g & Hrun & Hdim & Hwf & _ & Hcube).
  exists g. split; [done|]. split; [done|]. intros x y Hx Hy on_path cube.
  specialize (Hcube x y Hx Hy).
  assert (CubeGridM._is_valid_position g (x, 0, y) = true) as Hvalid.
  { apply valid_position_spec. rewrite Hdim. cbn. lia. }
  assert (∀ a, _appearances g !! (x, 0, y) = Some a → cube a) as Hsome.
  { intros a Ha. unfold cube, CubeGridM.get_cube, CubeGridM.get_appearance.
    rewrite Hvalid, Ha. cbn. rewrite bool_decide_true; [done|].
    apply Hwf. by rewrite Ha. }
  assert (on_path
          ↔ (x, y) ∈ (if include_solution
                      then list_to_set (deref σ (_solution_path self))
                      else (∅ : gset coord))) as Hon.
  { unfold on_path. destruct include_solution.
    - rewrite elem_of_list_to_set. tauto.
    - rewrite elem_of_empty. split; [by intros [? _]|done]. }
  unfold cube_of_cell in Hcube. split; [|split; [|split]].
  - intros Hwall. rewrite Hwall in Hcube. by apply Hsome.
  - intros Hopen Hp. rewrite Hopen, bool_decide_true in Hcube by by apply Hon.
    by apply Hsome.
  - intros Hopen Hp a Ha.
    rewrite Hopen, bool_decide_false, Ha in Hcube by by rewrite <- Hon.
    by apply Hsome.
  - intros Hopen Hp Ha.
    rewrite Hopen, bool_decide_false, Ha in Hcube by by rewrite <- Hon.
    unfold CubeGridM.get_cube. rewrite Hvalid. cbn.
    rewrite bool_decide_false; [done|]. rewrite Hwf, Hcube. by intros [? ?].
Qed.

End CubeGridOfMaze.

(** ** The picture of a maze *)

Lemma string_app_assoc (s1 s2 s3 : string) :
  ((s1 ++ s2) ++ s3 = s1 ++ (s2 ++ s3))%string.
Proof.
  induction s1 as [|a s1 IH]; [done|].
  change (String a ((s1 ++ s2) ++ s3) = String a (s1 ++ (s2 ++ s3)))%string.
  by rewrite IH.
Qed.

Lemma string_app_nil_r (s : string) : (s ++ EmptyString)%string = s.
Proof.
  induction s as [|a s IH]; [done|].
  change (String a (s ++ EmptyString) = String a s)%string. by rewrite IH.
Qed.

Lemma print_row_text (m : grid) solution_set y w h :
  shape w h m → 0 ≤ y < h →
  ∀ xs, (∀ x, x ∈ xs → 0 ≤ x < w) →
  ∀ row, print_row m solution_set y xs row
         = Ok (row ++ foldr String.append EmptyString
                        ((λ x, glyph m solution_set (x, y)) <$> xs))%string.
Proof.
  intros Hs Hy. induction xs as [|x xs IH]; intros Hxs row.
  { cbn. by rewrite string_app_nil_r. }
  assert (∀ x', x' ∈ xs → 0 ≤ x' < w) as Hxs'.
  { intros x' Hx'. by apply Hxs, list_elem_of_further. }
  cbn [print_row fmap list_fmap foldr]. unfold glyph at 1.
  case_bool_decide.
  { rewrite (IH Hxs'). by rewrite string_app_assoc. }
  destruct (maze_get_inside w h m x y Hs) as (b & -> & ->).
  { split; [apply Hxs, list_elem_of_here|done]. }
  rewrite bind_Ok, (IH Hxs'), string_app_assoc. by destruct b.
Qed.

Lemma print_rows_text (m : grid) solution_set w h :
  shape w h m →
  ∀ ys, (∀ y, y ∈ ys → 0 ≤ y < h) →
  ∀ out, print_rows m w solution_set ys out
         = Ok (out ++ (row_text m solution_set w <$> ys)).
Proof.
  intros Hs. induction ys as [|y ys IH]; intros Hys out.
  { cbn. by rewrite app_nil_r. }
  cbn [print_rows].
  rewrite (print_row_text m solution_set y w h Hs).
  - rewrite bind_Ok, IH.
    + cbn [fmap list_fmap]. by rewrite <- app_assoc.
    + intros y' Hy'. by apply Hys, list_elem_of_further.
  - apply Hys, list_elem_of_here.
  - intros x Hx%elem_of_seqZ. lia.
Qed.

Section Picture.
Context {G : Type} `{!RandomSource G}.

(** X13: what [print_maze] prints. On an instance whose wall field has the
    shape of its dimensions it returns, changes neither the instance, nor
    the list objects, nor the random generator, keeps what was printed
    before, and prints one line per row, top row first. Column [x] of the
    line of row [y] is [o] when the solution is asked for and [(x, y)] is
    on it, the wall glyph of the source (its three characters U+00E2,
    U+2013 and U+02C6) when the cell is a wall, and a blank otherwise. *)
Theorem print_maze_output show_solution self (σ : world G) :
  shape (width self) (height self) (_maze self) →
  ∃ lines,
    print_maze show_solution self σ
    = Ok ((), self,
          {| heap := heap σ; rng := rng σ; stdout := stdout σ ++ lines |})
    ∧ length lines = Z.to_nat (height self)
    ∧ ∀ y, 0 ≤ y < height self →
        lines !! Z.to_nat y
        = Some (row_text (_maze self)
                  (if show_solution
                   then list_to_set (deref σ (_solution_path self)) else ∅)
                  (width self) y).
Proof.
  intros Hs. unfold print_maze.
  rewrite (print_rows_text _ _ _ _ Hs).
  - rewrite bind_Ok. eexists. split; [done|]. split.
    + by rewrite length_fmap, length_seqZ.
    + intros y Hy. rewrite list_lookup_fmap, lookup_seqZ_lt by lia. cbn.
      do 2 f_equal. lia.
  - intros y Hy%elem_of_seqZ. lia.
Qed.

End Picture.

(** ** The mesh of a cube grid *)

Lemma mapM_int32_fits {F : Type} `{!MeshNumbers F} (l : list Z) :
  Forall (λ i, -2 ^ 31 ≤ i < 2 ^ 31) l → mapM int32 l = Ok l.
Proof.
  induction 1 as [|i l Hi _ IH]; [done|].
  cbn [mapM]. rewrite (int32_fits i Hi), bind_Ok, IH. done.
Qed.

Lemma mapM_mapM_int32_fits {F : Type} `{!MeshNumbers F} (fs : list (list Z)) :
  Forall (Forall (λ i, -2 ^ 31 ≤ i < 2 ^ 31)) fs →
  mapM (mapM int32) fs = Ok fs.
Proof.
  induction 1 as [|f fs Hf _ IH]; [done|].
  cbn [mapM]. rewrite (mapM_int32_fits f Hf), bind_Ok, IH. done.
Qed.

Section MeshCorrect.
Context {F : Type} `{!MeshNumbers F}.

Lemma cube_geometry_sizes (self : MeshGenerator F) p :
  length (_generate_cube_geometry self p).1 = 8%nat
  ∧ length (_generate_cube_geometry self p).2 = 12%nat
  ∧ Forall (λ v, length v = 3%nat) (_generate_cube_geometry self p).1
  ∧ Forall (λ f, length f = 3%nat ∧ Forall (λ i, 0 ≤ i < 8) f)
      (_generate_cube_geometry self p).2.
Proof.
  destruct p as [[x y] z]. cbn. split; [done|]. split; [done|]. split.
  - repeat (apply Forall_cons; split; [done|]). apply Forall_nil_2.
  - repeat (apply Forall_cons; split;
            [split; [done|];
             repeat (apply Forall_cons; split; [lia|]); apply Forall_nil_2|]).
    apply Forall_nil_2.
Qed.

(** The loop of [generate_mesh] over the positions [ps], started with the
    counter at [off]: it returns, and adds eight vertices, twelve faces
    and eight colour rows per position. *)
Lemma mesh_loop_spec (self : MeshGenerator F) g :
  ∀ ps vs fs cs off,
    ∃ nv nf nc,
      mesh_loop self g ps (vs, fs, cs) off = Ok (vs ++ nv, fs ++ nf, cs ++ nc)
      ∧ length nv = (8 * length ps)%nat
      ∧ length nf = (12 * length ps)%nat
      ∧ length nc = (8 * length ps)%nat
      ∧ Forall (λ v, length v = 3%nat) nv
      ∧ Forall (λ f, length f = 3%nat) nf
      ∧ Forall (λ c, length c = 4%nat) nc
      ∧ (∀ k face i, nf !! k = Some face → i ∈ face →
           off + 8 * (Z.of_nat k `div` 12) ≤ i
           < off + 8 * (Z.of_nat k `div` 12) + 8)
      ∧ (∀ k p j, ps !! k = Some p → (j < 8)%nat →
           nv !! (8 * k + j)%nat = (_generate_cube_geometry self p).1 !! j
           ∧ ∀ a, CubeGridM.get_appearance p g = (g, Ok a) →
                  nc !! (8 * k + j)%nat = Some (rgba a)).
Proof.
  induction ps as [|p ps IH]; intros vs fs cs off.
  { exists [], [], []. rewrite !app_nil_r. split; [done|].
    do 6 (split; [done|]). split; [by intros k face i ?|].
    by intros k p j ?. }
  cbn [mesh_loop].
  destruct (cube_geometry_sizes self p) as (Hlv & Hlf & Hv3 & Hf3).
  destruct (_generate_cube_geometry self p) as [cv cf] eqn:Hgeom.
  cbn [fst snd] in Hlv, Hlf, Hv3, Hf3.
  unfold CubeGridM.get_appearance at 1. rewrite bind_Ok.
  set (a := default (_default_appearance g) (_appearances g !! p)).
  set (blk := (λ face : list Z, (λ f, f + off) <$> face) <$> cf).
  set (row := let '(r, g0, b) := color a in [r; g0; b; alpha a]).
  assert (row = rgba a) as Hrow.
  { unfold row, rgba. by destruct (color a) as [[r g0] b]. }
  destruct (IH (vs ++ cv) (fs ++ blk)
              (cs ++ replicate (length cv) row) (off + Z.of_nat (length cv)))
    as (nv & nf & nc & -> & Hnv & Hnf & Hnc & Hv & Hf & Hc & Hfaces & Hcubes).
  rewrite Hlv in *.
  assert (length blk = 12%nat) as Hblk by (unfold blk; by rewrite length_fmap).
  exists (cv ++ nv), (blk ++ nf), (replicate 8 row ++ nc).
  rewrite <- !app_assoc. split; [done|].
  split; [rewrite length_app; cbn [length]; lia|].
  split; [rewrite length_app; cbn [length]; lia|].
  split; [rewrite length_app, length_replicate; cbn [length]; lia|].
  split; [by apply Forall_app|].
  split.
  { apply Forall_app. split; [|done]. unfold blk. apply Forall_fmap.
    eapply Forall_impl; [exact Hf3|]. intros f [Hlen _]. cbn.
    by rewrite length_fmap. }
  split.
  { apply Forall_app. split; [|done]. apply Forall_replicate.
    rewrite Hrow. done. }
  split.
  - intros k face i Hk Hi. destruct (decide (k < 12)%nat) as [Hlt|Hge].
    + rewrite lookup_app_l in Hk by lia. unfold blk in Hk.
      rewrite list_lookup_fmap in Hk.
      destruct (cf !! k) as [f|] eqn:Hcf; [|done]. cbn in Hk. simplify_eq.
      apply list_elem_of_fmap in Hi as (i0 & -> & Hi0).
      rewrite Forall_lookup in Hf3. destruct (Hf3 k f Hcf) as [_ Hrange].
      rewrite Forall_forall in Hrange. specialize (Hrange i0 Hi0).
      rewrite Z.div_small by lia. lia.
    + rewrite lookup_app_r in Hk by lia. rewrite Hblk in Hk.
      specialize (Hfaces _ _ _ Hk Hi).
      replace (Z.of_nat k `div` 12)
        with (Z.of_nat (k - 12) `div` 12 + 1); [lia|].
      replace (Z.of_nat k) with (Z.of_nat (k - 12) + 1 * 12) by lia.
      by rewrite Z.div_add.
  - intros k q j Hk Hj. destruct k as [|k].
    + cbn in Hk. simplify_eq. rewrite !lookup_app_l
        by (rewrite ?length_replicate; lia).
      rewrite Hgeom, Hrow. change (8 * 0 + j)%nat with j. split; [done|].
      intros a' Ha'. unfold CubeGridM.get_appearance in Ha'.
      rewrite lookup_replicate_2 by lia. by simplify_eq.
    + cbn in Hk. destruct (Hcubes k q j Hk Hj) as [Hvq Hcq].
      replace (8 * S k + j)%nat with (8 + (8 * k + j))%nat by lia.
      rewrite !lookup_app_r by (rewrite ?length_replicate; lia).
      rewrite length_replicate, Hlv.
      replace (8 + (8 * k + j) - 8)%nat with (8 * k + j)%nat by lia. done.
Qed.

(** [generate_mesh] on a grid with at most [2^28] cubes: the mesh it
    returns. *)
Lemma generate_mesh_spec (self : MeshGenerator F) g ps :
  get_occupied_positions g = (g, Ok ps) →
  8 * Z.of_nat (length ps) ≤ 2 ^ 31 →
  ∃ nv nf nc,
    generate_mesh self g
    = Ok {| vertices := (λ v : list F, float32 <$> v) <$> nv;
            faces := nf;
            colors := (λ c : list Q, color32 <$> c) <$> nc |}
    ∧ length nv = (8 * length ps)%nat
    ∧ length nf = (12 * length ps)%nat
    ∧ length nc = (8 * length ps)%nat
    ∧ Forall (λ v, length v = 3%nat) nv
    ∧ Forall (λ f, length f = 3%nat) nf
    ∧ Forall (λ c, length c = 4%nat) nc
    ∧ (∀ k face i, nf !! k = Some face → i ∈ face →
         8 * (Z.of_nat k `div` 12) ≤ i < 8 * (Z.of_nat k `div` 12) + 8)
    ∧ (∀ k p j, ps !! k = Some p → (j < 8)%nat →
         nv !! (8 * k + j)%nat = (_generate_cube_geometry self p).1 !! j
         ∧ ∀ a, CubeGridM.get_appearance p g = (g, Ok a) →
                nc !! (8 * k + j)%nat = Some (rgba a)).
Proof.
  intros Hps Hsize. unfold generate_mesh. rewrite Hps, bind_Ok.
  destruct (mesh_loop_spec self g ps [] [] [] 0)
    as (nv & nf & nc & -> & Hnv & Hnf & Hnc & Hv & Hf & Hc & Hfaces & Hcubes).
  rewrite bind_Ok. cbn [app].
  rewrite mapM_mapM_int32_fits.
  - rewrite bind_Ok. exists nv, nf, nc. split; [done|].
    do 6 (split; [done|]). split; [|done].
    intros k face i Hk Hi. specialize (Hfaces k face i Hk Hi). lia.
  - apply Forall_lookup. intros k face Hk. apply Forall_forall. intros i Hi.
    specialize (Hfaces k face i Hk Hi).
    apply lookup_lt_Some in Hk. rewrite Hnf in Hk.
    assert (Z.of_nat k `div` 12 < Z.of_nat (length ps)).
    { apply Z.div_lt_upper_bound; lia. }
    assert (0 ≤ Z.of_nat k `div` 12) by (apply Z.div_pos; lia).
    lia.
Qed.

End MeshCorrect.

Section MeshProperties.
Context {F : Type} `{!MeshNumbers F}.

(** X14: the size of a mesh. On a grid with at most [2^28] cubes
    [generate_mesh] returns a mesh with eight vertices, twelve faces and
    eight colour rows per cube, in which a vertex has three coordinates,
    a face three indices and a colour four components; an empty grid
    gives an empty mesh. *)
Theorem generate_mesh_sizes (self : MeshGenerator F) g ps :
  get_occupied_positions g = (g, Ok ps) →
  8 * Z.of_nat (length ps) ≤ 2 ^ 31 →
  ∃ mesh,
    generate_mesh self g = Ok mesh
    ∧ length (vertices mesh) = (8 * length ps)%nat
    ∧ length (faces mesh) = (12 * length ps)%nat
    ∧ length (colors mesh) = length (vertices mesh)
    ∧ Forall (λ v, length v = 3%nat) (vertices mesh)
    ∧ Forall (λ f, length f = 3%nat) (faces mesh)
    ∧ Forall (λ c, length c = 4%nat) (colors mesh)
    ∧ (ps = [] → mesh = {| vertices := []; faces := []; colors := [] |}).
Proof.
  intros Hps Hsize.
  destruct (generate_mesh_spec self g ps Hps Hsize)
    as (nv & nf & nc & -> & Hnv & Hnf & Hnc & Hv & Hf & Hc & _ & _).
  eexists. split; [done|]. cbn [vertices faces colors].
  rewrite !length_fmap. split; [done|]. split; [done|].
  split; [congruence|]. split; [|split; [done|split]].
  - apply Forall_fmap. eapply Forall_impl; [exact Hv|].
    intros v Hlen. cbn. by rewrite length_fmap.
  - apply Forall_fmap. eapply Forall_impl; [exact Hc|].
    intros c Hlen. cbn. by rewrite length_fmap.
  - intros ->. cbn in Hnv, Hnf, Hnc.
    apply nil_length_inv in Hnv, Hnf, Hnc. by subst.
Qed.

(** X15: the faces of a mesh index its vertices, cube by cube. On a grid
    with at most [2^28] cubes, every index in face number [k] of the mesh
    is a valid row of the vertex array, and it is one of the eight
    vertices of the cube the face belongs to, cube number [k // 12]. *)
Theorem mesh_faces_index_own_cube (self : MeshGenerator F) g ps :
  get_occupied_positions g = (g, Ok ps) →
  8 * Z.of_nat (length ps) ≤ 2 ^ 31 →
  ∃ mesh,
    generate_mesh self g = Ok mesh
    ∧ ∀ k face i,
        faces mesh !! k = Some face → i ∈ face →
        0 ≤ i < Z.of_nat (length (vertices mesh))
        ∧ 8 * (Z.of_nat k `div` 12) ≤ i < 8 * (Z.of_nat k `div` 12) + 8.
Proof.
  intros Hps Hsize.
  destruct (generate_mesh_spec self g ps Hps Hsize)
    as (nv & nf & nc & -> & Hnv & Hnf & _ & _ & _ & _ & Hfaces & _).
  eexists. split; [done|]. cbn [vertices faces]. intros k face i Hk Hi.
  specialize (Hfaces k face i Hk Hi). split; [|done].
  rewrite length_fmap, Hnv.
  apply lookup_lt_Some in Hk. rewrite Hnf in Hk.
  assert (Z.of_nat k `div` 12 < Z.of_nat (length ps)).
  { apply Z.div_lt_upper_bound; lia. }
  assert (0 ≤ Z.of_nat k `div` 12) by (apply Z.div_pos; lia).
  lia.
Qed.

(** X16: where a cube lands in the mesh. On a grid with at most [2^28]
    cubes, the cube at the [k]-th occupied position [(x, y, z)] owns the
    rows [8 k] to [8 k + 7] of the vertex and colour arrays: each of those
    colour rows is the colour and alpha that [get_appearance] gives for
    the position, row [8 k] is the corner [(x s, y s, z s)] and row
    [8 k + 6] the opposite corner [(x s + s, y s + s, z s + s)], for the
    cube size [s]. *)
Theorem mesh_rows_of_cube (self : MeshGenerator F) g ps :
  get_occupied_positions g = (g, Ok ps) →
  8 * Z.of_nat (length ps) ≤ 2 ^ 31 →
  ∃ mesh,
    generate_mesh self g = Ok mesh
    ∧ ∀ k x y z a,
        ps !! k = Some (x, y, z) →
        CubeGridM.get_appearance (x, y, z) g = (g, Ok a) →
        let s := cube_size self in
        (∀ j, (j < 8)%nat →
              colors mesh !! (8 * k + j)%nat = Some (color32 <$> rgba a))
        ∧ vertices mesh !! (8 * k)%nat
          = Some (float32 <$> [int_mul x s; int_mul y s; int_mul z s])
        ∧ vertices mesh !! (8 * k + 6)%nat
          = Some (float32 <$> [num_add (int_mul x s) s;
                               num_add (int_mul y s) s;
                               num_add (int_mul z s) s]).
Proof.
  intros Hps Hsize.
  destruct (generate_mesh_spec self g ps Hps Hsize)
    as (nv & nf & nc & -> & _ & _ & _ & _ & _ & _ & _ & Hcubes).
  eexists. split; [done|]. cbn [vertices colors].
  intros k x y z a Hk Ha. split; [|split].
  - intros j Hj. destruct (Hcubes k _ j Hk Hj) as [_ Hc].
    by rewrite list_lookup_fmap, (Hc a Ha).
  - destruct (Hcubes k _ 0%nat Hk) as [Hv _]; [lia|].
    rewrite Nat.add_0_r in Hv. by rewrite list_lookup_fmap, Hv.
  - destruct (Hcubes k _ 6%nat Hk) as [Hv _]; [lia|].
    by rewrite list_lookup_fmap, Hv.
Qed.

End MeshProperties.

(** ** The cubes of a generated maze *)

Lemma cube_at g p a :
  (∀ q, q ∈ _grid g ↔ is_Some (_appearances g !! q)) →
  CubeGridM._is_valid_position g p = true →
  _appearances g !! p = Some a →
  CubeGridM.get_cube p g = (g, Ok true)
  ∧ CubeGridM.get_appearance p g = (g, Ok a).
Proof.
  intros Hwf Hvalid Ha. unfold CubeGridM.get_cube, CubeGridM.get_appearance.
  rewrite Hvalid, Ha. cbn. rewrite bool_decide_true; [done|].
  apply Hwf. by rewrite Ha.
Qed.

Section DrawnMaze.
Context {G : Type} `{!RandomSource G}.

(** X17: the solution is drawn. After [generate] with fuel above
    [width * height], [to_cube_grid(include_solution=True)] returns a grid
    in which every cell of the solution path is a cube with the solution
    appearance; and when the instance has no path appearance, a cell off
    the solution path is a cube exactly when it is a wall. *)
Theorem solution_is_drawn seed self (σ : world G) fuel :
  valid_dims (width self) (height self) →
  (Z.to_nat (width self * height self) < fuel)%nat →
  ∃ self' σ' p g,
    generate fuel seed self σ = Ok ((), self', σ')
    ∧ returned_path self' σ' = Ok p
    ∧ to_cube_grid true self' σ' = Ok (g, self', σ')
    ∧ (∀ x y, (x, y) ∈ p →
         CubeGridM.get_cube (x, 0, y) g = (g, Ok true)
         ∧ CubeGridM.get_appearance (x, 0, y) g
           = (g, Ok (solution_appearance self)))
    ∧ (path_appearance self = None →
       ∀ x y, 0 ≤ x < width self → 0 ≤ y < height self → (x, y) ∉ p →
         (CubeGridM.get_cube (x, 0, y) g = (g, Ok true)
          ↔ is_wall (_maze self') (x, y))).
Proof.
  intros Hdims Hfuel.
  destruct (generate_spec fuel seed self σ Hdims)
    as [(self' & σ' & path & Hrun & Hw & Hh & Hgen & _ & Hheap & Hpath)|[_ Hle]];
    [|lia].
  destruct (generate_frame _ _ _ _ _ _ Hrun)
    as (_ & _ & _ & Hpa & Hsa & _).
  pose proof (generate_path_stored σ σ' self' path Hheap) as Hstored.
  pose proof (gen_shape _ _ _ Hgen) as Hs.
  destruct Hdims as (Hw3 & Hh3 & _).
  destruct (to_cube_grid_cubes true self' σ')
    as (g & Hgrid & Hdim & Hwf & _ & Hcube); [lia|lia|congruence|].
  rewrite Hstored, Hw, Hh in Hcube. rewrite Hw, Hh in Hdim.
  exists self', σ', path, g. split; [done|].
  split; [by rewrite returned_path_spec, Hstored|]. split; [done|].
  assert (∀ x y, 0 ≤ x < width self → 0 ≤ y < height self →
                 CubeGridM._is_valid_position g (x, 0, y) = true) as Hvalid.
  { intros x y Hx Hy. apply valid_position_spec. rewrite Hdim. cbn. lia. }
  split.
  - intros x y Hxy.
    destruct Hpath as ([Hopen _] & _). rewrite Forall_forall in Hopen.
    pose proof (Hopen _ Hxy) as Ho.
    destruct (is_open_inside _ _ _ _ Hs Ho) as [Hx Hy]. cbn [fst snd] in Hx, Hy.
    rewrite <- Hsa. apply cube_at; [done|by apply Hvalid|].
    rewrite (Hcube x y Hx Hy). unfold cube_of_cell. rewrite Ho.
    rewrite bool_decide_true; [done|]. by apply elem_of_list_to_set.
  - intros Hnone x y Hx Hy Hxy. specialize (Hcube x y Hx Hy).
    unfold cube_of_cell in Hcube.
    rewrite (bool_decide_false ((x, y) ∈ _))
      in Hcube by by rewrite elem_of_list_to_set.
    rewrite Hpa, Hnone in Hcube.
    unfold CubeGridM.get_cube. rewrite (Hvalid x y Hx Hy). cbn.
    destruct (cell_inside _ _ _ (x, y) Hs) as [b Hb]; [done|].
    unfold is_wall. rewrite Hb in Hcube |- *. destruct b.
    + split; [done|]. intros _. rewrite bool_decide_true; [done|].
      apply Hwf. by rewrite Hcube.
    + split; [|done]. intros [= Hin%bool_decide_eq_true].
      apply Hwf in Hin. rewrite Hcube in Hin. by destruct Hin.
Qed.

End DrawnMaze.

(** ** The further properties on concrete inputs *)

Ltac concrete_shape := split; [reflexivity|repeat constructor].

Lemma set_cube_then_get_cube_witness :
  let g' := (CubeGridM.set_cube (1, 2, 0) true None example_grid).1 in
  CubeGridM.get_cube (1, 2, 0) g' = (g', Ok true)
  ∧ (CubeGridM.get_cube (0, 0, 0) g').2 = Ok false.
Proof.
  destruct (set_cube_then_get_cube example_grid (1, 2, 0) (0, 0, 0) true None
              eq_refl) as (_ & _ & Hsame & Hother).
  split; [exact Hsame|]. rewrite Hother; [reflexivity|discriminate].
Defined.

Lemma set_cube_then_get_appearance_witness :
  (CubeGridM.get_appearance (1, 2, 0)
     (CubeGridM.set_cube (1, 2, 0) true (Some default_wall) example_grid).1).2
  = Ok default_wall.
Proof.
  destruct (set_cube_then_get_appearance example_grid (1, 2, 0) (0, 0, 0) true
              None default_wall eq_refl) as (Hset & _).
  exact Hset.
Defined.

Lemma grid_invariant_witness :
  grid_wf
    (after_calls
       [CallSetCube (0, 0, 0) true (Some default_wall);
        CallSetCube (7, 0, 0) true None;
        CallSetCube (0, 0, 0) false None;
        CallSetDefault default_solution]
       example_grid).
Proof.
  destruct (grid_invariant (3, 3, 3) example_grid
              [CallSetCube (0, 0, 0) true (Some default_wall);
               CallSetCube (7, 0, 0) true None;
               CallSetCube (0, 0, 0) false None;
               CallSetDefault default_solution] eq_refl) as (_ & Hwf & _).
  exact Hwf.
Defined.

Lemma boundary_has_two_openings_witness :
  ∃ self' σ',
    generate 26 (Some 42) (example_maze 5 5) example_world = Ok ((), self', σ')
    ∧ is_wall (_maze self') (0, 0) ∧ is_wall (_maze self') (4, 4)
    ∧ is_open (_maze self') (3, 4).
Proof.
  destruct (boundary_has_two_openings (Some 42) (example_maze 5 5)
              example_world 26)
    as (self' & σ' & Hrun & Hedge & Hpillar); [discharge..|].
  exists self', σ'. split; [exact Hrun|]. split; [|split].
  - apply Hpillar; [split; cbn; lia|split; reflexivity].
  - apply Hpillar; [split; cbn; lia|split; reflexivity].
  - apply (Hedge (3, 4)); [split; cbn; lia|unfold interior; cbn; lia|].
    right. reflexivity.
Defined.

Lemma generated_maze_is_perfect_witness :
  ∃ self' σ',
    generate 26 (Some 42) (example_maze 5 5) example_world = Ok ((), self', σ')
    ∧ ∀ a b, is_open (_maze self') a → is_open (_maze self') b →
        ∃ p, simple_path (is_open (_maze self')) a b p
             ∧ ∀ q, simple_path (is_open (_maze self')) a b q → q = p.
Proof.
  apply (generated_maze_is_perfect (Some 42) (example_maze 5 5)
           example_world 26); discharge.
Defined.

Lemma solution_path_length_witness :
  ∃ self' σ' p,
    generate 50 (Some 7) (example_maze 7 7) example_world = Ok ((), self', σ')
    ∧ returned_path self' σ' = Ok p
    ∧ 11 ≤ Z.of_nat (length p)
    ∧ p !! 1%nat = Some (1, 1).
Proof.
  destruct (solution_path_length (Some 7) (example_maze 7 7) example_world 50)
    as (self' & σ' & p & Hrun & Hpath & Hlen & Hsecond & _); [discharge..|].
  exists self', σ', p. split; [exact Hrun|]. split; [exact Hpath|].
  split; [exact Hlen|exact Hsecond].
Defined.

Lemma handed_out_path_survives_regeneration_witness :
  ∃ self1 σ1 l σ2 self3 σ3,
    generate 26 (Some 1) (example_maze 5 5) example_world = Ok ((), self1, σ1)
    ∧ get_solution_path self1 σ1 = Ok (l, self1, σ2)
    ∧ generate 26 (Some 2) self1 σ2 = Ok ((), self3, σ3)
    ∧ deref σ3 l = deref σ1 (_solution_path self1).
Proof.
  destruct (handed_out_path_survives_regeneration (Some 1) (Some 2)
              (example_maze 5 5) example_world 26)
    as (self1 & σ1 & l & σ2 & self3 & σ3 & H1 & H2 & H3 & H4 & _);
    [discharge..|].
  exists self1, σ1, l, σ2, self3, σ3.
  split; [exact H1|]. split; [exact H2|]. split; [exact H3|exact H4].
Defined.

Lemma find_solution_fails_iff_unreachable_witness :
  ¬ connected blocked_grid entry (exit_cell 3 3)
  ∧ connected ring_grid entry (exit_cell 5 5).
Proof.
  split.
  - apply (find_solution_fails_iff_unreachable 3 3 blocked_grid 10);
      [concrete_shape|reflexivity|cbn; lia|reflexivity].
  - apply (find_solution_fails_iff_unreachable 5 5 ring_grid 26);
      [concrete_shape|reflexivity|cbn; lia|].
    eexists. reflexivity.
Defined.

Lemma find_solution_is_shortest_witness :
  _find_solution 26 ring_grid 5 5
  = Ok [(1, 0); (1, 1); (2, 1); (3, 1); (3, 2); (3, 3); (3, 4)]
  ∧ ∀ q, walk (is_open ring_grid) q → head q = Some entry →
         last q = Some (exit_cell 5 5) → (7 ≤ length q)%nat.
Proof.
  split; [reflexivity|].
  apply (find_solution_is_shortest 5 5 ring_grid 26
           [(1, 0); (1, 1); (2, 1); (3, 1); (3, 2); (3, 3); (3, 4)]);
    [concrete_shape|reflexivity|cbn; lia|reflexivity].
Defined.

Lemma to_cube_grid_content_witness :
  ∃ g, to_cube_grid true (example_maze 5 5) example_world
       = Ok (g, example_maze 5 5, example_world)
       ∧ dimensions g = (5, 1, 5)
       ∧ CubeGridM.get_appearance (2, 0, 3) g = (g, Ok default_wall).
Proof.
  destruct (to_cube_grid_content true (example_maze 5 5) example_world)
    as (g & Hrun & Hdim & Hcells); [cbn; lia|cbn; lia|concrete_shape|].
  exists g. split; [exact Hrun|]. split; [exact Hdim|].
  destruct (Hcells 2 3) as (Hwall & _); [cbn; lia|cbn; lia|].
  apply Hwall. reflexivity.
Defined.

Lemma print_maze_output_witness :
  ∃ lines,
    print_maze false (example_maze 3 3) example_world
    = Ok ((), example_maze 3 3,
          {| heap := heap example_world; rng := rng example_world;
             stdout := stdout example_world ++ lines |})
    ∧ length lines = 3%nat
    ∧ lines !! 0%nat = Some (wall_glyph ++ wall_glyph ++ wall_glyph)%string.
Proof.
  destruct (print_maze_output false (example_maze 3 3) example_world)
    as (lines & Hrun & Hlen & Hrows); [concrete_shape|].
  exists lines. split; [exact Hrun|]. split; [exact Hlen|].
  apply (Hrows 0). cbn. lia.
Defined.

Lemma generate_mesh_sizes_witness :
  ∃ mesh,
    generate_mesh {| cube_size := 1%Q |} two_cubes = Ok mesh
    ∧ length (vertices mesh) = 16%nat
    ∧ length (faces mesh) = 24%nat.
Proof.
  destruct (generate_mesh_sizes {| cube_size := 1%Q |} two_cubes
              [(0, 0, 0); (1, 0, 1)])
    as (mesh & Hrun & Hv & Hf & _); [reflexivity|cbn; lia|].
  exists mesh. split; [exact Hrun|]. split; [exact Hv|exact Hf].
Defined.

Lemma mesh_faces_index_own_cube_witness :
  ∃ mesh,
    generate_mesh {| cube_size := 1%Q |} two_cubes = Ok mesh
    ∧ ∀ face i, faces mesh !! 12%nat = Some face → i ∈ face → 8 ≤ i < 16.
Proof.
  destruct (mesh_faces_index_own_cube {| cube_size := 1%Q |} two_cubes
              [(0, 0, 0); (1, 0, 1)])
    as (mesh & Hrun & Hfaces); [reflexivity|cbn; lia|].
  exists mesh. split; [exact Hrun|]. intros face i Hface Hi.
  apply (Hfaces 12%nat face i Hface Hi).
Defined.

Lemma mesh_rows_of_cube_witness :
  ∃ mesh,
    generate_mesh {| cube_size := 1%Q |} two_cubes = Ok mesh
    ∧ colors mesh !! 8%nat = Some [1; 0; 0; 1]%Q
    ∧ colors mesh !! 0%nat = Some [0.5; 0.5; 0.5; 1]%Q.
Proof.
  destruct (mesh_rows_of_cube {| cube_size := 1%Q |} two_cubes
              [(0, 0, 0); (1, 0, 1)])
    as (mesh & Hrun & Hrows); [reflexivity|cbn; lia|].
  exists mesh. split; [exact Hrun|]. split.
  - destruct (Hrows 1%nat 1 0 1 _ eq_refl eq_refl) as (Hc & _).
    apply (Hc 0%nat). lia.
  - destruct (Hrows 0%nat 0 0 0 _ eq_refl eq_refl) as (Hc & _).
    apply (Hc 0%nat). lia.
Defined.

Lemma solution_is_drawn_witness :
  ∃ self' σ' p g,
    generate 26 (Some 42) (example_maze 5 5) example_world = Ok ((), self', σ')
    ∧ returned_path self' σ' = Ok p
    ∧ to_cube_grid true self' σ' = Ok (g, self', σ')
    ∧ ∀ x y, (x, y) ∈ p →
        CubeGridM.get_appearance (x, 0, y) g = (g, Ok default_solution).
Proof.
  destruct (solution_is_drawn (Some 42) (example_maze 5 5) example_world 26)
    as (self' & σ' & p & g & Hrun & Hpath & Hgrid & Hsol & _); [discharge..|].
  exists self', σ', p, g. split; [exact Hrun|]. split; [exact Hpath|].
  split; [exact Hgrid|]. intros x y Hxy. apply (Hsol x y Hxy).
Defined.

(** ** Appearances *)

Lemma between_0_1_spec c :
  between_0_1 c = true ↔ (0 <= c)%Q ∧ (c <= 1)%Q.
Proof.
  unfold between_0_1. by rewrite andb_true_iff, !Qle_bool_iff.
Qed.

(** X18: what [CubeAppearance.__init__] checks. It raises the colour
    [ValueError] when a colour component lies outside [[0, 1]], the alpha
    [ValueError] when the colour is fine and alpha lies outside [[0, 1]],
    and otherwise returns an appearance with the colour and alpha given
    (the bounds 0 and 1 included), whose material is the one given, or
    ["default"] when none or the empty string is given: the material of
    an appearance is never empty. *)
Theorem appearance_init_checks r g b al mat :
  let fits c := (0 <= c)%Q ∧ (c <= 1)%Q in
  let res := CubeAppearance_init (r, g, b) al mat in
  (¬ (fits r ∧ fits g ∧ fits b) →
   res = Raise (ValueError "Color values must be between 0 and 1"))
  ∧ (fits r ∧ fits g ∧ fits b → ¬ fits al →
     res = Raise (ValueError "Alpha must be between 0 and 1"))
  ∧ (fits r ∧ fits g ∧ fits b ∧ fits al →
     ∃ a, res = Ok a ∧ color a = (r, g, b) ∧ alpha a = al
          ∧ material a ≠ EmptyString
          ∧ (∀ s, mat = Some s → s ≠ EmptyString → material a = s)
          ∧ (mat = None ∨ mat = Some EmptyString →
             material a = "default"%string)).
Proof.
  intros fits res. subst fits res. cbv beta.
  unfold CubeAppearance_init. cbn [forallb].
  destruct (between_0_1 r) eqn:Er;
    [apply between_0_1_spec in Er
    |apply not_true_iff_false in Er; rewrite between_0_1_spec in Er];
  (destruct (between_0_1 g) eqn:Eg;
    [apply between_0_1_spec in Eg
    |apply not_true_iff_false in Eg; rewrite between_0_1_spec in Eg]);
  (destruct (between_0_1 b) eqn:Eb;
    [apply between_0_1_spec in Eb
    |apply not_true_iff_false in Eb; rewrite between_0_1_spec in Eb]);
  cbn [andb negb]; try (split; [done|split; tauto]).
  destruct (between_0_1 al) eqn:Ea;
    [apply between_0_1_spec in Ea
    |apply not_true_iff_false in Ea; rewrite between_0_1_spec in Ea];
  cbn [negb]; [|split; [tauto|split; [done|tauto]]].
  split; [tauto|]. split; [tauto|].
  intros _. eexists. split; [done|]. cbn. do 2 (split; [done|]).
  destruct mat as [s|].
  - destruct (String.eqb_spec s EmptyString) as [-> | Hs].
    + split; [done|]. split; [by intros s [= <-] ?|done].
    + split; [done|]. split; [by intros s' [= <-] _|].
      intros [?|[= ->]]; done.
  - split; [done|]. split; [by intros s ?|done].
Qed.

(** ** The number of walls of a generated maze *)

Lemma NoDup_cprod {A B : Type} (l : list A) (k : list B) :
  NoDup l → NoDup k → NoDup (cprod l k).
Proof.
  intros Hl Hk. rewrite list_cprod_list_prod.
  induction Hl as [|x l Hx Hl IH]; [apply NoDup_nil_2|].
  cbn [list_prod]. apply NoDup_app. split; [|split; [|done]].
  - by apply (NoDup_fmap_2 (pair x)).
  - intros [a b] [b' [[= -> ->] _]]%list_elem_of_fmap Hin.
    rewrite <- list_cprod_list_prod in Hin.
    apply list_elem_of_cprod in Hin as [Hin _]. done.
Qed.

Lemma elem_of_odds n x :
  n `mod` 2 = 1 → x ∈ odds n ↔ x `mod` 2 = 1 ∧ 0 < x < n - 1.
Proof.
  intros Hn. unfold odds. rewrite list_elem_of_fmap. split.
  - intros (i & -> & Hi%elem_of_seqZ). split; zlia.
  - intros [Hx Hr]. exists (x `div` 2). split; [zlia|].
    apply elem_of_seqZ. zlia.
Qed.

Lemma NoDup_odds n : NoDup (odds n).
Proof.
  apply NoDup_fmap_2; [|apply NoDup_seqZ]. intros i j ?. lia.
Qed.

Lemma elem_of_rooms w h c :
  w `mod` 2 = 1 → h `mod` 2 = 1 →
  c ∈ rooms w h ↔ room c ∧ interior w h c.
Proof.
  intros Hw Hh. unfold rooms, room, interior.
  rewrite elem_of_list_to_set, list_elem_of_cprod, !elem_of_odds by done.
  tauto.
Qed.

Lemma size_rooms w h :
  size (rooms w h)
  = (Z.to_nat ((w - 1) `div` 2) * Z.to_nat ((h - 1) `div` 2))%nat.
Proof.
  unfold rooms. rewrite size_list_to_set
    by (apply NoDup_cprod; apply NoDup_odds).
  rewrite list_cprod_list_prod, length_prod. unfold odds.
  by rewrite !length_fmap, !length_seqZ.
Qed.

Lemma closed_rooms_all_walls w h :
  w `mod` 2 = 1 → h `mod` 2 = 1 →
  closed_rooms w h (all_walls w h) = size (rooms w h).
Proof.
  intros Hw Hh. unfold closed_rooms. f_equal. apply set_eq. intros c.
  rewrite elem_of_filter. split; [tauto|]. intros Hc. split; [|done].
  apply elem_of_rooms in Hc as [_ [Hx Hy]]; [|done..].
  apply cell_all_walls. split; lia.
Qed.

Lemma closed_rooms_open_room w h m r :
  w `mod` 2 = 1 → h `mod` 2 = 1 →
  shape w h m → r ∈ rooms w h → is_wall m r →
  S (closed_rooms w h (upd m r false)) = closed_rooms w h m.
Proof.
  intros Hw Hh Hs Hr Hwall. unfold closed_rooms.
  pose proof Hr as Hr'. apply elem_of_rooms in Hr' as [_ [Hx Hy]]; [|done..].
  assert (inside w h r) as Hin by (split; lia).
  assert (filter (λ c, cell (upd m r false) c = Some true) (rooms w h)
          = filter (λ c, cell m c = Some true) (rooms w h) ∖ {[r]}) as ->.
  { apply set_eq. intros c.
    rewrite elem_of_difference, !elem_of_filter, elem_of_singleton.
    destruct (decide (c = r)) as [-> | Hne].
    - rewrite (cell_upd_eq w h) by done. split; [by intros [? _]|tauto].
    - rewrite cell_upd_ne by (done || lia). tauto. }
  assert (({[r]} : gset coord)
          ⊆ filter (λ c, cell m c = Some true) (rooms w h)) as Hsub.
  { intros c ->%elem_of_singleton. by apply elem_of_filter. }
  rewrite (size_difference _ _ Hsub), size_singleton.
  apply subseteq_size in Hsub. rewrite size_singleton in Hsub. lia.
Qed.

Lemma closed_rooms_open_other w h m c v :
  c ∉ rooms w h → 0 ≤ c.1 → 0 ≤ c.2 →
  closed_rooms w h (upd m c v) = closed_rooms w h m.
Proof.
  intros Hc Hx Hy. unfold closed_rooms. f_equal. apply set_eq. intros c'.
  rewrite !elem_of_filter. destruct (decide (c = c')) as [<- | Hne]; [tauto|].
  by rewrite cell_upd_ne.
Qed.

Lemma closed_rooms_none w h m :
  (∀ c, c ∈ rooms w h → is_open m c) → closed_rooms w h m = 0%nat.
Proof.
  intros Hopen. unfold closed_rooms.
  assert (filter (λ c, cell m c = Some true) (rooms w h) = ∅) as ->;
    [|apply size_empty].
  apply set_eq. intros c. rewrite elem_of_filter, elem_of_empty.
  split; [|done]. intros [Hwall Hc]. specialize (Hopen c Hc).
  unfold is_open in Hopen. congruence.
Qed.

Lemma size_wall_cells_upd w h m c :
  shape w h m → is_wall m c →
  S (size (wall_cells w h (upd m c false))) = size (wall_cells w h m).
Proof.
  intros Hs Hwall. unfold wall_cells.
  pose proof (cell_Some_inside _ _ _ _ _ Hs Hwall) as Hin.
  assert (filter (λ c', cell (upd m c false) c' = Some true) (cells w h)
          = filter (λ c', cell m c' = Some true) (cells w h) ∖ {[c]}) as ->.
  { apply set_eq. intros c'.
    rewrite elem_of_difference, !elem_of_filter, elem_of_singleton.
    destruct (decide (c' = c)) as [-> | Hne].
    - rewrite (cell_upd_eq w h) by done. split; [by intros [? _]|tauto].
    - destruct Hin. rewrite cell_upd_ne by (done || lia). tauto. }
  assert (({[c]} : gset coord)
          ⊆ filter (λ c', cell m c' = Some true) (cells w h)) as Hsub.
  { intros c' ->%elem_of_singleton. apply elem_of_filter.
    split; [done|by apply elem_of_cells]. }
  rewrite (size_difference _ _ Hsub), size_singleton.
  apply subseteq_size in Hsub. rewrite size_singleton in Hsub. lia.
Qed.

Lemma size_wall_cells_all_walls w h :
  size (wall_cells w h (all_walls w h)) = (Z.to_nat h * Z.to_nat w)%nat.
Proof.
  unfold wall_cells.
  assert (filter (λ c, cell (all_walls w h) c = Some true) (cells w h)
          = cells w h) as ->.
  { apply set_eq. intros c. rewrite elem_of_filter, elem_of_cells.
    split; [tauto|]. intros Hc. split; [by apply cell_all_walls|done]. }
  unfold cells. rewrite size_list_to_set
    by (apply NoDup_cprod; apply NoDup_seqZ).
  rewrite list_cprod_list_prod, length_prod, !length_seqZ. lia.
Qed.

Section CarverCounts.
Context {G : Type} `{!RandomSource G}.
Variables w h : Z.
Variable μ : grid → nat.
Hypothesis Hw : w `mod` 2 = 1.
Hypothesis Hh : h `mod` 2 = 1.
Hypothesis μ_open :
  ∀ m c, shape w h m → is_wall m c → S (μ (upd m c false)) = μ m.

Lemma surplus_open_room m r :
  pending w h m r → surplus μ w h (upd m r false) = surplus μ w h m + 1.
Proof.
  intros Hp. unfold surplus.
  pose proof (μ_open m r (pending_shape _ _ _ _ Hp) (pending_wall _ _ _ _ Hp)).
  assert (r ∈ rooms w h) as Hr.
  { apply elem_of_rooms; [done..|].
    split; [apply (pending_room _ _ _ _ Hp)|apply (pending_interior _ _ _ _ Hp)]. }
  pose proof (closed_rooms_open_room w h m r Hw Hh (pending_shape _ _ _ _ Hp)
                Hr (pending_wall _ _ _ _ Hp)).
  lia.
Qed.

Lemma surplus_open_wall m c :
  shape w h m → is_wall m c → ¬ room c →
  surplus μ w h (upd m c false) = surplus μ w h m - 1.
Proof.
  intros Hs Hwall Hroom. unfold surplus.
  pose proof (μ_open m c Hs Hwall).
  destruct (cell_Some_inside _ _ _ _ _ Hs Hwall) as [Hx Hy].
  rewrite closed_rooms_open_other; [lia| |lia|lia].
  rewrite elem_of_rooms by done. tauto.
Qed.

Lemma carve_loop_counts (rec : Z → Z → grid * G → result (grid * G)) bound :
  carves w h rec bound → counts μ w h rec →
  ∀ ds, (∀ d, d ∈ ds → d ∈ directions) →
  ∀ r m g m' g', carved w h m → room r → interior w h r → is_open m r →
    carve_loop rec w h r.1 r.2 ds (m, g) = Ok (m', g') →
    surplus μ w h m' = surplus μ w h m.
Proof.
  intros Hrec Hcnt. induction ds as [|[dx dy] ds IH];
    intros Hds [x y] m g m' g' Hcarved Hroom Hint Hopen Hrun.
  { cbn in Hrun. by simplify_eq. }
  assert (∀ d, d ∈ ds → d ∈ directions) as Hds'.
  { intros d Hd. apply Hds. by apply list_elem_of_further. }
  assert ((dx, dy) ∈ directions) as Hdir by apply Hds, list_elem_of_here.
  pose proof (carved_shape _ _ _ Hcarved) as Hs.
  cbn [carve_loop fst snd] in Hrun.
  destruct (in_bounds w h (x + dx) (y + dy)) eqn:Hin.
  2:{ by apply (IH Hds' (x, y) m g m' g'). }
  apply in_bounds_inside in Hin.
  destruct (maze_get_inside w h m _ _ Hs Hin) as (b & Hb & Hget).
  rewrite Hget, bind_Ok in Hrun. destruct b.
  2:{ by apply (IH Hds' (x, y) m g m' g'). }
  destruct (open_between w h m (x, y) (dx, dy))
    as (Hbw & Hbin & Hadj1 & Hadj2 & Hpend); [done..|].
  pose proof (adjacent_room_not_room (x, y) _ Hadj1 Hroom) as Hnoroom.
  pose proof (surplus_open_wall m _ Hs Hbw Hnoroom) as Hsur1.
  change (between (x, y) (dx, dy))
    with (x + dx `div` 2, y + dy `div` 2) in *.
  change (move (x, y) (dx, dy)) with (x + dx, y + dy) in *.
  rewrite (maze_set_inside w h) in Hrun by done. rewrite bind_Ok in Hrun.
  destruct (Hrec (x + dx, y + dy) _ g Hpend)
    as [(m2 & g2 & Hrun2 & Hc2 & Hg2 & Ho2)|[Hrun2 Hlt]];
    cbn [fst snd] in Hrun2; rewrite Hrun2 in Hrun; [|done].
  rewrite bind_Ok in Hrun.
  pose proof (Hcnt (x + dx, y + dy) _ g m2 g2 Hpend Hrun2) as Hsur2.
  apply (IH Hds' (x, y) m2 g2 m' g') in Hrun; [lia|done..|].
  apply (grown_mono _ _ _ _ _ Hg2).
  apply (is_open_upd w h m _ _ Hs Hbin). by right.
Qed.

Lemma carve_path_counts fuel : counts μ w h (_carve_path fuel w h).
Proof.
  induction fuel as [|fuel IH]; intros [x y] m g m' g' Hpend Hrun; [done|].
  pose proof (open_room _ _ _ _ Hpend) as Hcarved.
  assert (inside w h (x, y)) as Hin.
  { destruct (pending_interior _ _ _ _ Hpend). split; simpl in *; lia. }
  cbn [_carve_path fst snd] in Hrun.
  rewrite (maze_set_inside w h)
    in Hrun by (done || apply (pending_shape _ _ _ _ Hpend)).
  rewrite bind_Ok in Hrun.
  apply (carve_loop_counts _ fuel (carve_path_carves w h Hw Hh fuel) IH
           (shuffle g directions).1
           (λ d Hd, proj1 (elem_of_Permutation_proper _ _ _
                             (shuffle_perm g directions)) Hd)
           (x, y) (upd m (x, y) false) (shuffle g directions).2) in Hrun.
  - rewrite Hrun. by apply surplus_open_room.
  - done.
  - apply (pending_room _ _ _ _ Hpend).
  - apply (pending_interior _ _ _ _ Hpend).
  - apply (is_open_upd w h m _ _ (pending_shape _ _ _ _ Hpend) Hin). by left.
Qed.

End CarverCounts.

Section WallCount.
Context {G : Type} `{!RandomSource G}.

(** The wall field [generate] leaves in the instance is the field the
    carver returns with the entry and the exit opened. *)
Lemma generate_maze fuel seed self (σ : world G) self' σ' :
  valid_dims (width self) (height self) →
  generate fuel seed self σ = Ok ((), self', σ') →
  ∃ m1 g1,
    _carve_path fuel (width self) (height self) 1 1
      (all_walls (width self) (height self),
       match seed with Some s => seed_state s | None => rng σ end)
    = Ok (m1, g1)
    ∧ _maze self'
      = upd (upd m1 entry false) (exit_cell (width self) (height self)) false.
Proof.
  intros Hdims. unfold generate.
  set (w := width self) in *. set (h := height self) in *.
  set (g0 := match seed with Some s => seed_state s | None => rng σ end).
  destruct (carve_from_start fuel w h g0 Hdims)
    as [(m1 & g1 & -> & Hcarved & _ & _)|[-> _]]; [|done].
  rewrite bind_Ok. cbn [fst snd].
  pose proof (carved_shape _ _ _ Hcarved) as Hs.
  destruct Hdims as (Hw & Hh & _).
  rewrite (maze_set_inside w h); [|done|split; simpl; lia].
  rewrite bind_Ok.
  rewrite (maze_set_inside w h); [|by apply shape_upd|split; simpl; lia].
  rewrite bind_Ok.
  destruct (_find_solution _ _ _ _) as [p| |]; [|done..].
  rewrite bind_Ok. unfold alloc. intros [= <- _]. by exists m1, g1.
Qed.

(** The walls of a generated maze, counted by any [μ] that goes down by
    one when a wall is opened: the rooms, one wall less than rooms, the
    entry and the exit have been opened. *)
Lemma generated_measure (μ : grid → nat) seed self (σ : world G) fuel self' σ' :
  (∀ m c, shape (width self) (height self) m → is_wall m c →
          S (μ (upd m c false)) = μ m) →
  valid_dims (width self) (height self) →
  generate fuel seed self σ = Ok ((), self', σ') →
  let n := ((width self - 1) `div` 2) * ((height self - 1) `div` 2) in
  Z.of_nat (μ (_maze self'))
  = Z.of_nat (μ (all_walls (width self) (height self))) - (n + (n - 1) + 2).
Proof.
  intros Hμ Hdims Hrun.
  destruct (generate_spec fuel seed self σ Hdims)
    as [(self2 & σ2 & path & Hrun2 & _ & _ & Hgen & _)|[Hout _]];
    [|congruence].
  assert (self2 = self') as -> by congruence. clear Hrun2.
  destruct (generate_maze _ _ _ _ _ _ Hdims Hrun) as (m1 & g1 & Hcarve & Hm).
  set (w := width self) in *. set (h := height self) in *.
  destruct (valid_dims_mod _ _ Hdims) as [Hwm Hhm].
  destruct (carve_from_start fuel w h
              (match seed with Some s => seed_state s | None => rng σ end)
              Hdims)
    as [(m1' & g1' & Hcarve' & Hcarved & _ & _)|[Hout _]]; [|congruence].
  assert (m1' = m1) as -> by congruence. clear Hcarve'.
  pose proof (carve_path_counts w h μ Hwm Hhm Hμ fuel (1, 1) _ _ _ _
                (pending_all_walls w h Hdims) Hcarve) as Hsur.
  pose proof (carved_shape _ _ _ Hcarved) as Hs.
  destruct Hdims as (Hw & Hh & _).
  assert (inside w h entry) as Hentry by (split; simpl; lia).
  assert (inside w h (exit_cell w h)) as Hexit by (split; simpl; lia).
  assert (∀ c, inside w h c → ¬ interior w h c → is_wall m1 c) as Hedge.
  { intros c Hc Hn. apply (not_open_wall w h); [done..|].
    intros Ho. by destruct (carved_cells _ _ _ Hcarved c Ho). }
  assert (surplus μ w h (upd m1 entry false) = surplus μ w h m1 - 1) as Hsur2.
  { apply surplus_open_wall; [done..| |].
    - apply Hedge; [done|]. unfold interior, entry. cbn. lia.
    - unfold room, entry. cbn. zlia. }
  assert (surplus μ w h (_maze self')
          = surplus μ w h (upd m1 entry false) - 1) as Hsur3.
  { rewrite Hm. apply surplus_open_wall; [done..|by apply shape_upd| |].
    - apply (not_open_wall w h); [by apply shape_upd|done|].
      rewrite (is_open_upd w h) by done. intros [Heq|Ho].
      + unfold exit_cell, entry in Heq. simplify_eq. lia.
      + destruct (carved_cells _ _ _ Hcarved _ Ho) as [[_ Hy] _].
        unfold exit_cell in Hy. cbn in Hy. lia.
    - unfold room, exit_cell. cbn. zlia. }
  assert (closed_rooms w h (_maze self') = 0%nat) as Hnone.
  { apply closed_rooms_none. intros c [Hr Hi]%elem_of_rooms; [|done..].
    by apply (gen_rooms _ _ _ Hgen). }
  unfold surplus in Hsur, Hsur2, Hsur3.
  rewrite Hnone in Hsur3.
  rewrite closed_rooms_all_walls, size_rooms in Hsur by done.
  cbv zeta.
  assert (0 ≤ (w - 1) `div` 2) by (apply Z.div_pos; lia).
  assert (0 ≤ (h - 1) `div` 2) by (apply Z.div_pos; lia).
  rewrite !Nat2Z.inj_mul, !Z2Nat.id in Hsur by lia. lia.
Qed.

(** X19: the number of walls of a generated maze. A [width] by [height]
    maze has [(width - 1) / 2] times [(height - 1) / 2] rooms, and after
    [generate] its open cells are the rooms, one wall less than rooms
    between them, the entry and the exit: all the other cells are walls,
    whatever the seed. *)
Theorem generated_maze_wall_count seed self (σ : world G) fuel :
  valid_dims (width self) (height self) →
  (Z.to_nat (width self * height self) < fuel)%nat →
  ∃ self' σ',
    generate fuel seed self σ = Ok ((), self', σ')
    ∧ let n := ((width self - 1) `div` 2) * ((height self - 1) `div` 2) in
      Z.of_nat (count_walls (_maze self'))
      = width self * height self - (n + (n - 1) + 2).
Proof.
  intros Hdims Hfuel.
  destruct (generate_spec fuel seed self σ Hdims)
    as [(self' & σ' & path & Hrun & _)|[_ Hle]]; [|lia].
  exists self', σ'. split; [done|].
  pose proof (generated_measure count_walls seed self σ fuel self' σ'
                (count_walls_upd _ _) Hdims Hrun) as Hcount.
  cbv zeta in Hcount |- *. rewrite Hcount, count_walls_all_walls.
  destruct Hdims as (Hw & Hh & _). lia.
Qed.

End WallCount.

Lemma generated_maze_wall_count_witness :
  ∃ self' σ',
    generate 26 (Some 42) (example_maze 5 5) example_world = Ok ((), self', σ')
    ∧ Z.of_nat (count_walls (_maze self')) = 16.
Proof.
  destruct (generated_maze_wall_count (Some 42) (example_maze 5 5)
              example_world 26)
    as (self' & σ' & Hrun & Hcount); [discharge..|].
  exists self', σ'. split; [exact Hrun|]. exact Hcount.
Defined.

(** ** The mesh of a generated maze *)

Section MazeMesh.
Context {G : Type} `{!RandomSource G} {F : Type} `{!MeshNumbers F}.

(** The cubes of the grid [to_cube_grid] builds without the solution, on
    an instance without a path appearance: one per wall cell. *)
Lemma wall_cubes self (σ : world G) :
  0 < width self → 0 < height self →
  shape (width self) (height self) (_maze self) →
  path_appearance self = None →
  ∃ g ps,
    to_cube_grid false self σ = Ok (g, self, σ)
    ∧ get_occupied_positions g = (g, Ok ps)
    ∧ length ps
      = size (wall_cells (width self) (height self) (_maze self)).
Proof.
  intros Hw Hh Hs Hnone.
  destruct (to_cube_grid_cubes false self σ Hw Hh Hs)
    as (g & Hgrid & Hdim & Hwf & _ & Hcube).
  exists g, (filter (λ p, p ∈ _grid g) (all_positions (dimensions g))).
  split; [done|]. split; [done|].
  set (f := λ c : coord, (c.1, 0, c.2)).
  set (X := wall_cells (width self) (height self) (_maze self)).
  assert (∀ x y, 0 ≤ x < width self → 0 ≤ y < height self →
                 (is_Some (_appearances g !! (x, 0, y))
                  ↔ cell (_maze self) (x, y) = Some true)) as Hwall.
  { intros x y Hx Hy. rewrite (Hcube x y Hx Hy). unfold cube_of_cell.
    rewrite bool_decide_false, Hnone by set_solver.
    destruct (cell (_maze self) (x, y)) as [[]|].
    - split; [done|eauto].
    - split; [by intros [? ?]|done].
    - split; [by intros [? ?]|done]. }
  transitivity (length (f <$> elements X)); [|by rewrite length_fmap].
  apply Permutation_length, NoDup_Permutation.
  - apply NoDup_filter, NoDup_all_positions.
  - apply NoDup_fmap_2; [|apply NoDup_elements].
    intros [a b] [c d] [= -> ->]. done.
  - intros [[x y] z]. rewrite list_elem_of_filter, elem_of_all_positions, Hdim.
    rewrite list_elem_of_fmap. cbn [fst snd]. split.
    + intros [Hin (Hx & Hy & Hz)]. assert (y = 0) as -> by lia.
      exists (x, z). split; [done|]. apply elem_of_elements.
      apply elem_of_filter. split; [|apply elem_of_cells; by split].
      apply Hwall; [done..|]. by apply Hwf.
    + intros ([a b] & [= -> -> ->] & Hc%elem_of_elements).
      apply elem_of_filter in Hc as [Hc [Ha Hb]%elem_of_cells].
      cbn [fst snd] in Ha, Hb. split; [|lia].
      apply Hwf, Hwall; done.
Qed.

(** X20: the mesh of a generated maze. For an instance without a path
    appearance and with at most [2^28] cells, [generate], then
    [to_cube_grid()] without the solution, then [generate_mesh] all
    return, and the mesh has eight vertices and twelve faces for every
    wall of the maze: for every cell that is not one of the
    [(width - 1) / 2] times [(height - 1) / 2] rooms, one of the walls
    opened between them, the entry or the exit. *)
Theorem maze_mesh_size seed self (σ : world G) fuel (mg : MeshGenerator F) :
  valid_dims (width self) (height self) →
  (Z.to_nat (width self * height self) < fuel)%nat →
  path_appearance self = None →
  8 * (width self * height self) ≤ 2 ^ 31 →
  ∃ self' σ' g mesh,
    generate fuel seed self σ = Ok ((), self', σ')
    ∧ to_cube_grid false self' σ' = Ok (g, self', σ')
    ∧ generate_mesh mg g = Ok mesh
    ∧ let n := ((width self - 1) `div` 2) * ((height self - 1) `div` 2) in
      let walls := width self * height self - (n + (n - 1) + 2) in
      Z.of_nat (length (vertices mesh)) = 8 * walls
      ∧ Z.of_nat (length (faces mesh)) = 12 * walls.
Proof.
  intros Hdims Hfuel Hnone Hsize.
  destruct (generate_spec fuel seed self σ Hdims)
    as [(self' & σ' & path & Hrun & Hw & Hh & Hgen & _)|[_ Hle]]; [|lia].
  destruct (generate_frame _ _ _ _ _ _ Hrun) as (_ & _ & _ & Hpa & _).
  pose proof (generated_measure
                (λ m, size (wall_cells (width self) (height self) m))
                seed self σ fuel self' σ'
                (size_wall_cells_upd _ _) Hdims Hrun) as Hcount.
  cbv beta zeta in Hcount. rewrite size_wall_cells_all_walls in Hcount.
  destruct Hdims as (Hw3 & Hh3 & _).
  destruct (wall_cubes self' σ') as (g & ps & Hgrid & Hps & Hlen);
    [lia|lia|rewrite Hw, Hh; apply Hgen|congruence|].
  rewrite Hw, Hh in Hlen.
  assert (0 ≤ (width self - 1) `div` 2) by (apply Z.div_pos; lia).
  assert (0 ≤ (height self - 1) `div` 2) by (apply Z.div_pos; lia).
  destruct (generate_mesh_spec mg g ps Hps)
    as (nv & nf & nc & Hmesh & Hnv & Hnf & _); [nia|].
  exists self', σ', g. eexists. split; [done|]. split; [done|].
  split; [exact Hmesh|]. cbn [vertices faces]. cbv zeta.
  rewrite length_fmap, Hnv, Hnf, Hlen. nia.
Qed.

End MazeMesh.

Lemma maze_mesh_size_witness :
  ∃ self' σ' g mesh,
    generate 26 (Some 42) (example_maze 5 5) example_world = Ok ((), self', σ')
    ∧ to_cube_grid false self' σ' = Ok (g, self', σ')
    ∧ generate_mesh {| cube_size := 1%Q |} g = Ok mesh
    ∧ Z.of_nat (length (vertices mesh)) = 128.
Proof.
  destruct (maze_mesh_size (Some 42) (example_maze 5 5) example_world 26
              {| cube_size := 1%Q |})
    as (self' & σ' & g & mesh & Hrun & Hgrid & Hmesh & Hv & _);
    [discharge|discharge|reflexivity|cbn; lia|].
  exists self', σ', g, mesh. split; [exact Hrun|]. split; [exact Hgrid|].
  split; [exact Hmesh|exact Hv].
Defined.
